(** * rpt.py: the Ren'Py translation-template generator, embedded in Rocq

    A shallow embedding of [src/rpt.py].  Python strings are lists of Unicode
    code points, sets are [gset]s, files are the text they hold, and the
    regular expressions of the script are values of a small regex syntax run
    by a backtracking matcher that follows [re]'s priority order. *)

From Stdlib Require Import NArith String Ascii Sorted.
From stdpp Require Import gmap list strings.
From Equations Require Import Equations.

Open Scope N_scope.

(** ** Python strings *)

(** A [str] is a sequence of code points; [bytes] holds values below 256. *)
Definition pystr := list N.
Definition bytes := list N.

(** Literals: [py "abc"] is the Python string ['abc'] (ASCII only). *)
Definition py (s : string) : pystr :=
  map N_of_ascii (list_ascii_of_string s).

Definition NL : N := 10.
Definition CR : N := 13.
Definition DQ : N := 34.
Definition BSL : N := 92.

(** [Py_UNICODE_ISSPACE]: what [str.strip], [str.isspace] and the pattern
    [\s] take as whitespace. *)
Definition is_space (c : N) : bool :=
  ((9 <=? c) && (c <=? 13)) || ((28 <=? c) && (c <=? 32))
  || (c =? 133) || (c =? 160) || (c =? 5760)
  || ((8192 <=? c) && (c <=? 8202))
  || (c =? 8232) || (c =? 8233) || (c =? 8239) || (c =? 8287) || (c =? 12288).

(** The line boundaries of [str.splitlines]. *)
Definition is_linebreak (c : N) : bool :=
  ((10 <=? c) && (c <=? 13)) || ((28 <=? c) && (c <=? 30))
  || (c =? 133) || (c =? 8232) || (c =? 8233).

Fixpoint drop_while {A} (p : A → bool) (s : list A) : list A :=
  match s with
  | [] => []
  | c :: t => if p c then drop_while p t else s
  end.

Fixpoint take_while {A} (p : A → bool) (s : list A) : list A :=
  match s with
  | [] => []
  | c :: t => if p c then c :: take_while p t else []
  end.

Definition lstrip (s : pystr) : pystr := drop_while is_space s.
Definition rstrip (s : pystr) : pystr := rev (drop_while is_space (rev s)).
Definition strip (s : pystr) : pystr := lstrip (rstrip s).

(** [s.startswith(p)] *)
Fixpoint startswith (s p : pystr) : bool :=
  match p, s with
  | [], _ => true
  | _ :: _, [] => false
  | a :: p', b :: s' => (a =? b) && startswith s' p'
  end.

(** [sep.join(parts)] *)
Fixpoint join (sep : pystr) (parts : list pystr) : pystr :=
  match parts with
  | [] => []
  | [x] => x
  | x :: rest => x ++ sep ++ join sep rest
  end.

(** [s.replace(old, new)]: occurrences are replaced left to right without
    overlap.  [skip] counts the characters of an occurrence still to pass. *)
Fixpoint replace_from (old new : pystr) (skip : nat) (s : pystr) : pystr :=
  match s with
  | [] => []
  | c :: t =>
      match skip with
      | S k => replace_from old new k t
      | O => if startswith s old
             then new ++ replace_from old new (length old - 1) t
             else c :: replace_from old new 0 t
      end
  end.

Definition replace (s old new : pystr) : pystr :=
  match old with
  | [] => new ++ flat_map (λ c, c :: new) s
  | _ :: _ => replace_from old new 0 s
  end.

(** [s.splitlines()]: split at every line boundary, [\r\n] counting as one;
    no empty last line after a final boundary. *)
Fixpoint splitlines_from (cur : pystr) (s : pystr) : list pystr :=
  match s with
  | [] => match cur with [] => [] | _ :: _ => [cur] end
  | c :: t =>
      if is_linebreak c then
        match t with
        | d :: t' =>
            if (c =? CR) && (d =? NL)
            then cur :: splitlines_from [] t'
            else cur :: splitlines_from [] t
        | [] => [cur]
        end
      else splitlines_from (cur ++ [c]) t
  end.

Definition splitlines (s : pystr) : list pystr := splitlines_from [] s.

(** ** Escaper *)

(** [quote]: escape backslashes and newlines for the template format. *)
Definition quote (s : pystr) : pystr :=
  let s := replace s [BSL] [BSL; BSL] in
  let s := replace s [NL] [BSL; 110] in
  s.

(** [str.encode("utf-8")]; a surrogate code point cannot be encoded. *)
Definition utf8_char (c : N) : option bytes :=
  if c <? 128 then Some [c]
  else if c <? 2048 then Some [192 + c / 64; 128 + c mod 64]
  else if (55296 <=? c) && (c <=? 57343) then None
  else if c <? 65536 then
    Some [224 + c / 4096; 128 + (c / 64) mod 64; 128 + c mod 64]
  else if c <? 1114112 then
    Some [240 + c / 262144; 128 + (c / 4096) mod 64;
          128 + (c / 64) mod 64; 128 + c mod 64]
  else None.

Fixpoint encode_utf8 (s : pystr) : option bytes :=
  match s with
  | [] => Some []
  | c :: t =>
      match utf8_char c, encode_utf8 t with
      | Some b, Some bs => Some (b ++ bs)
      | _, _ => None
      end
  end.

Definition hex_value (b : N) : option N :=
  if (48 <=? b) && (b <=? 57) then Some (b - 48)
  else if (97 <=? b) && (b <=? 102) then Some (b - 87)
  else if (65 <=? b) && (b <=? 70) then Some (b - 55)
  else None.

Definition is_octal (b : N) : bool := (48 <=? b) && (b <=? 55).

(** [n] hexadecimal digits at the head of [bs], most significant first. *)
Fixpoint hex_digits (n : nat) (acc : N) (bs : bytes) : option N :=
  match n with
  | O => Some acc
  | S n' =>
      match bs with
      | b :: t =>
          match hex_value b with
          | Some v => hex_digits n' (16 * acc + v) t
          | None => None
          end
      | [] => None
      end
  end.

Section UnicodeEscape.

(** The character-name table of the interpreter, which [\N{...}] consults. *)
Variable ucd_lookup : bytes → option N.

(** The escape that starts after a backslash: the decoded characters and
    the number of bytes it takes after the backslash; [None] is a
    [UnicodeDecodeError]. *)
Definition escape_at (t : bytes) : option (pystr * nat) :=
  match t with
  | [] => None
  | c :: t' =>
      if c =? 10 then Some ([], 1%nat)
      else if c =? 92 then Some ([92], 1%nat)
      else if c =? 39 then Some ([39], 1%nat)
      else if c =? 34 then Some ([34], 1%nat)
      else if c =? 98 then Some ([8], 1%nat)
      else if c =? 102 then Some ([12], 1%nat)
      else if c =? 116 then Some ([9], 1%nat)
      else if c =? 110 then Some ([10], 1%nat)
      else if c =? 114 then Some ([13], 1%nat)
      else if c =? 118 then Some ([11], 1%nat)
      else if c =? 97 then Some ([7], 1%nat)
      else if is_octal c then
        match t' with
        | d :: t'' =>
            if is_octal d then
              match t'' with
              | e :: _ =>
                  if is_octal e
                  then Some ([64 * (c - 48) + 8 * (d - 48) + (e - 48)], 3%nat)
                  else Some ([8 * (c - 48) + (d - 48)], 2%nat)
              | [] => Some ([8 * (c - 48) + (d - 48)], 2%nat)
              end
            else Some ([c - 48], 1%nat)
        | [] => Some ([c - 48], 1%nat)
        end
      else if c =? 120 then
        match hex_digits 2 0 t' with
        | Some v => Some ([v], 3%nat)
        | None => None
        end
      else if c =? 117 then
        match hex_digits 4 0 t' with
        | Some v => Some ([v], 5%nat)
        | None => None
        end
      else if c =? 85 then
        match hex_digits 8 0 t' with
        | Some v => if v <=? 1114111 then Some ([v], 9%nat) else None
        | None => None
        end
      else if c =? 78 then
        match t' with
        | o :: t'' =>
            let name := take_while (λ b, negb (b =? 125)) t'' in
            if (o =? 123) && (length name <? length t'')%nat then
              match ucd_lookup name with
              | Some v => Some ([v], (3 + length name)%nat)
              | None => None
              end
            else None
        | [] => None
        end
      else Some ([92; c], 1%nat)
  end.

(** [bytes.decode("unicode_escape")]: a byte outside an escape is the
    character of the same number (Latin-1). *)
Fixpoint decode_from (skip : nat) (bs : bytes) : option pystr :=
  match bs with
  | [] => Some []
  | b :: t =>
      match skip with
      | S k => decode_from k t
      | O =>
          if b =? BSL then
            match escape_at t with
            | Some (out, n) => app out <$> decode_from n t
            | None => None
            end
          else cons b <$> decode_from 0 t
      end
  end.

Definition decode_unicode_escape (bs : bytes) : option pystr :=
  decode_from 0 bs.

(** The decoding of a matched single-line dialogue body:
    [text.encode("utf-8").decode("unicode_escape")]. *)
Definition unescape (text : pystr) : option pystr :=
  encode_utf8 text ≫= decode_unicode_escape.

End UnicodeEscape.

(** ** Regular expressions

    The patterns of the script use a small part of [re]: character classes,
    sequence, ordered alternation, greedy and lazy repetition, capture
    groups and [^] under [re.MULTILINE].  The matcher tries the alternatives
    in [re]'s order and gives the first way to match, as a backtracking
    matcher does. *)

Inductive regex : Type :=
| Eps
| Bol
| Cls (p : N → bool)
| Seq (a b : regex)
| Alt (a b : regex)
| Star (greedy : bool) (a : regex)
| Grp (name : string) (a : regex).

Definition Chr (c : N) : regex := Cls (N.eqb c).
Definition Plus (greedy : bool) (a : regex) : regex := Seq a (Star greedy a).

(** The pattern text of [re.escape(s)]: [s] matched literally. *)
Fixpoint Lit (s : pystr) : regex :=
  match s with
  | [] => Eps
  | c :: t => Seq (Chr c) (Lit t)
  end.

(** A position in the subject: its index, the character before it, the text
    from it on, and the groups captured on the way. *)
Record cursor : Type := Cursor {
  pos : nat;
  prev : option N;
  rest : pystr;
  caps : gmap string pystr
}.

Definition at_line_start (st : cursor) : bool :=
  match prev st with
  | None => true
  | Some c => c =? NL
  end.

Definition set_group (name : string) (entry st : cursor) : cursor :=
  Cursor (pos st) (prev st) (rest st)
         (<[name := take (pos st - pos entry) (rest entry)]> (caps st)).

Definition or_else {A} (x y : option A) : option A :=
  match x with
  | Some _ => x
  | None => y
  end.

(** The repetition of [body]: with [greedy] one more round is tried before
    going on, without it going on is tried first.  A round that takes no
    character is not repeated, so [n] rounds are enough when [n] exceeds
    the number of characters left. *)
Fixpoint star_loop (body : cursor → (cursor → option cursor) → option cursor)
    (greedy : bool) (k : cursor → option cursor) (n : nat) (st : cursor)
  : option cursor :=
  match n with
  | O => k st
  | S n' =>
      let again :=
        body st
          (λ st', if (length (rest st') <? length (rest st))%nat
                  then star_loop body greedy k n' st' else None) in
      if greedy then or_else again (k st) else or_else (k st) again
  end.

(** [rmatch r st k]: the first way, in priority order, to match [r] at [st]
    and then satisfy the continuation [k]. *)
Fixpoint rmatch (r : regex) (st : cursor) (k : cursor → option cursor)
  : option cursor :=
  match r with
  | Eps => k st
  | Bol => if at_line_start st then k st else None
  | Cls p =>
      match rest st with
      | c :: t =>
          if p c then k (Cursor (S (pos st)) (Some c) t (caps st)) else None
      | [] => None
      end
  | Seq a b => rmatch a st (λ st', rmatch b st' k)
  | Alt a b => or_else (rmatch a st k) (rmatch b st k)
  | Star greedy a => star_loop (rmatch a) greedy k (S (length (rest st))) st
  | Grp name a => rmatch a st (λ st', k (set_group name st st'))
  end.

(** One match object: its span and its groups. *)
Record rematch : Type := ReMatch {
  m_start : nat;
  m_end : nat;
  m_groups : gmap string pystr
}.

(** [m.group(name)] *)
Definition group (m : rematch) (name : string) : pystr :=
  default [] (m_groups m !! name).

(** A match of [r] that starts at the position itself; with [must_advance]
    an empty match is refused, and the matcher backtracks for another. *)
Definition match_here (r : regex) (p : nat) (pv : option N) (s : pystr)
    (must_advance : bool) : option rematch :=
  let accept st' :=
    if must_advance && (pos st' =? p)%nat then None else Some st' in
  (λ st', ReMatch p (pos st') (caps st')) <$>
    rmatch r (Cursor p pv s ∅) accept.

(** The matches that start at one position: at most an empty one followed
    by a non-empty one. *)
Definition matches_here (r : regex) (p : nat) (pv : option N) (s : pystr)
  : list rematch :=
  match match_here r p pv s false with
  | None => []
  | Some m =>
      if (m_end m =? p)%nat
      then m :: option_list (match_here r p pv s true)
      else [m]
  end.

(** [r.finditer(text)] from position [p]: the matches from left to right
    without overlap; [skip] counts the characters of the last match still to
    pass. *)
Fixpoint finditer_from (r : regex) (p : nat) (pv : option N) (s : pystr)
    (skip : nat) : list rematch :=
  let found := match skip with O => matches_here r p pv s | S _ => [] end in
  let skip' :=
    match last found with
    | Some m => (m_end m - p - 1)%nat
    | None => (skip - 1)%nat
    end in
  found ++
  match s with
  | [] => []
  | c :: t => finditer_from r (S p) (Some c) t skip'
  end.

Definition finditer (r : regex) (text : pystr) : list rematch :=
  finditer_from r 0 None text 0.

(** ** The patterns of the script *)

Definition ascii_alnum (c : N) : bool :=
  ((48 <=? c) && (c <=? 57)) || ((65 <=? c) && (c <=? 90))
  || ((97 <=? c) && (c <=? 122)).

Definition ws : regex := Cls is_space.

Section Patterns.

(** [Py_UNICODE_ISALNUM] beyond ASCII, from the interpreter's Unicode
    tables. *)
Variable unicode_alnum : N → bool.

(** The class [\w]. *)
Definition is_word (c : N) : bool :=
  if c <? 128 then ascii_alnum c || (c =? 95) else unicode_alnum c.

(** [^\s*(?:\$|define)\s+(?P<short>\w+)\s*=\s*Character\(] with
    [re.MULTILINE] *)
Definition DEFINE_RE : regex :=
  Seq Bol (Seq (Star true ws)
    (Seq (Alt (Chr 36) (Lit (py "define")))
      (Seq (Plus true ws)
        (Seq (Grp "short" (Plus true (Cls is_word)))
          (Seq (Star true ws)
            (Seq (Chr 61)
              (Seq (Star true ws) (Lit (py "Character("))))))))).

End Patterns.

(** ["|".join(re.escape(n) for n in char_names)] *)
Fixpoint names_pattern (char_names : list pystr) : regex :=
  match char_names with
  | [] => Eps
  | [n] => Lit n
  | n :: more => Alt (Lit n) (names_pattern more)
  end.

Definition not_in (cs : list N) (c : N) : bool :=
  negb (existsb (N.eqb c) cs).

(** [.] without [re.DOTALL], and with it. *)
Definition any_but_newline (c : N) : bool := negb (c =? NL).
Definition any_char (c : N) : bool := true.

(** [build_patterns].  In the pattern texts quoted here, Q stands for the
    double-quote character:
    [^\s*(?P<char>{pattern})\s+Q(?P<text>T)Q] with [re.MULTILINE], where T
    is the greedy star of [(?:[^Q\\]|\\.)], and
    [^\s*(?P<char>{pattern})\s+QQQ\s*\n(?P<text>.*?)\s*QQQ] with
    [re.MULTILINE | re.DOTALL]. *)
Definition build_patterns (char_names : list pystr) : regex * regex :=
  let pattern := names_pattern char_names in
  let single_re :=
    Seq Bol (Seq (Star true ws)
      (Seq (Grp "char" pattern)
        (Seq (Plus true ws)
          (Seq (Chr DQ)
            (Seq (Grp "text"
                    (Star true (Alt (Cls (not_in [DQ; BSL]))
                                    (Seq (Chr BSL) (Cls any_but_newline)))))
              (Chr DQ)))))) in
  let multi_re :=
    Seq Bol (Seq (Star true ws)
      (Seq (Grp "char" pattern)
        (Seq (Plus true ws)
          (Seq (Lit [DQ; DQ; DQ])
            (Seq (Star true ws)
              (Seq (Chr NL)
                (Seq (Grp "text" (Star false (Cls any_char)))
                  (Seq (Star true ws) (Lit [DQ; DQ; DQ]))))))))) in
  (single_re, multi_re).

(** [^\s*Q([^Q]+)Q\s*:] with [re.MULTILINE] *)
Definition menu_choice_re : regex :=
  Seq Bol (Seq (Star true ws)
    (Seq (Chr DQ)
      (Seq (Grp "1" (Plus true (Cls (not_in [DQ]))))
        (Seq (Chr DQ) (Seq (Star true ws) (Chr 58)))))).

(** [(label|textbutton)\s+_\(Q([^Q]+)Q\)] *)
Definition screen_text_re : regex :=
  Seq (Grp "1" (Alt (Lit (py "label")) (Lit (py "textbutton"))))
    (Seq (Plus true ws)
      (Seq (Lit (py "_("))
        (Seq (Chr DQ)
          (Seq (Grp "2" (Plus true (Cls (not_in [DQ]))))
            (Seq (Chr DQ) (Chr 41)))))).

(** ** Text files *)

(** Reading in text mode with the default [newline=None]: every [\r\n] and
    every lone [\r] arrives as [\n]. *)
Fixpoint universal_newlines (s : pystr) : pystr :=
  match s with
  | [] => []
  | c :: t =>
      if c =? CR then
        NL :: match t with
              | d :: t' =>
                  if d =? NL then universal_newlines t'
                  else universal_newlines t
              | [] => []
              end
      else c :: universal_newlines t
  end.

(** [f.readlines()] on text already read: the lines, each with its final
    [\n]; a last line without one is kept as it is. *)
Fixpoint readlines_from (cur : pystr) (s : pystr) : list pystr :=
  match s with
  | [] => match cur with [] => [] | _ :: _ => [cur] end
  | c :: t =>
      if c =? NL then (cur ++ [NL]) :: readlines_from [] t
      else readlines_from (cur ++ [c]) t
  end.

Definition readlines (s : pystr) : list pystr := readlines_from [] s.

(** ** TemplateDeduplicator *)

(** [lines[i][2:].rstrip()] *)
Definition payload (line : pystr) : pystr := rstrip (drop 2 line).

(** [line.strip() == ""] *)
Definition is_blank (line : pystr) : bool :=
  match strip line with
  | [] => true
  | _ :: _ => false
  end.

(** [line.replace('\n', '\r\n')] *)
Definition crlf (line : pystr) : pystr := replace line [NL] [CR; NL].

(** The translation line looked for right after a kept source line. *)
Definition translation_after (more : list pystr) : list pystr :=
  match more with
  | t :: _ => if startswith t (py ">") then [t] else []
  | [] => []
  end.

Definition skipped (line : pystr) : bool :=
  startswith line (py ">") || is_blank line.

(** The [while i < len(lines)] loop of [deduplicate_rpt]; [lines] is
    [lines[i:]] and the result is what the loop appends to [output_lines]
    from there on. *)
Equations? dedup_loop (seen : gset pystr) (lines : list pystr)
  : list pystr by wf (length lines) lt :=
  dedup_loop seen [] := [];
  dedup_loop seen (line :: more) :=
    if startswith line (py "< ") then
      let src := payload line in
      if bool_decide (src ∈ seen) then
        dedup_loop seen (drop_while skipped more)
      else
        let tr := translation_after more in
        let more' := drop (length tr) more in
        crlf line :: map crlf tr ++ map crlf (take_while is_blank more')
          ++ dedup_loop ({[src]} ∪ seen) (drop_while is_blank more')
    else crlf line :: dedup_loop seen more.
Proof.
  all: assert (Hdw : ∀ (p : pystr → bool) l,
                 (length (drop_while p l) ≤ length l)%nat)
    by (intros p l; induction l as [|x l IH]; simpl;
        [lia | destruct (p x); simpl; lia]).
  - specialize (Hdw skipped more). lia.
  - specialize (Hdw is_blank more'). subst more'.
    rewrite length_drop in Hdw. lia.
Qed.

(** [deduplicate_rpt] as the change it makes to the text of the file at
    [filepath]: read with universal newlines, written back as it is
    ([newline=""]). *)
Definition deduplicate_rpt (text : pystr) : pystr :=
  let lines := readlines (universal_newlines text) in
  concat (dedup_loop ∅ lines).

(** ** The run of the script

    The script reads the [.rpy] files under the input root and rewrites one
    template file.  A [world] holds the files that [glob] finds, in its
    order and under the names it gives them, each with its text as decoded
    from UTF-8 (so the first writer, which writes text of the sources and
    fixed text, does not fail to encode it); what the file system holds
    under any other path, which is what [os.path.isfile] and [open] get
    when the path they are given is not spelled as [glob] spells it (the
    root [game//] gives [game//screens.rpy] where [glob] has
    [game/screens.rpy]); the text of the template file (the output file,
    taken not to be one of the sources) and a log of the scans and writes
    done so far.  Console messages and argument parsing are left out. *)

Inductive event : Type :=
| ScreenTextScan (path : pystr)
| CharacterScan (path : pystr)
| DialogueScan (path : pystr)
| TemplateWritten
| TemplateAppended
| TemplateDeduplicated.

Record world : Type := World {
  elsewhere : pystr → option pystr;
  rpy : list (pystr * pystr);
  template : option pystr;
  log : list event
}.

(** How a step ends: normally, by [sys.exit(msg)], or by an exception that
    nothing catches. *)
Inductive outcome (A : Type) : Type :=
| Ok (a : A) (w : world)
| Exit (msg : pystr) (w : world)
| Raised (w : world).
Arguments Ok {A} a w.
Arguments Exit {A} msg w.
Arguments Raised {A} w.

Definition M (A : Type) : Type := world → outcome A.

Definition ret {A} (a : A) : M A := λ w, Ok a w.

Definition bind {A B} (m : M A) (f : A → M B) : M B :=
  λ w, match m w with
       | Ok a w' => f a w'
       | Exit msg w' => Exit msg w'
       | Raised w' => Raised w'
       end.

Declare Scope run_scope.
Delimit Scope run_scope with run.
Notation "'do' x <- m ; k" := (bind m (λ x, k))
  (at level 10, x name, m at level 100, k at level 200) : run_scope.
Notation "m ;;; k" := (bind m (λ _, k))
  (at level 100, k at level 200, right associativity) : run_scope.
Open Scope run_scope.

Definition sys_exit {A} (msg : pystr) : M A := λ w, Exit msg w.

Definition emit (e : event) : M unit :=
  λ w, Ok () (World (elsewhere w) (rpy w) (template w) (log w ++ [e])).

Fixpoint assoc (path : pystr) (files : list (pystr * pystr)) : option pystr :=
  match files with
  | [] => None
  | (p, text) :: more =>
      if bool_decide (p = path) then Some text else assoc path more
  end.

(** The regular file the file system has at [path], if any: one of the
    files [glob] found when the path is spelled as [glob] spells it,
    otherwise what the file system holds there. *)
Definition file_at (w : world) (path : pystr) : option pystr :=
  match assoc path (rpy w) with
  | Some text => Some text
  | None => elsewhere w path
  end.

(** [open(path, encoding="utf-8").read()], for the scan [scan]. *)
Definition read_text (scan : pystr → event) (path : pystr) : M pystr :=
  emit (scan path) ;;;
  λ w, match file_at w path with
       | Some text => Ok (universal_newlines text) w
       | None => Raised w
       end.

(** [glob(os.path.join(input_dir, "**", "*.rpy"), recursive=True)] *)
Definition glob_rpy : M (list pystr) := λ w, Ok (map fst (rpy w)) w.

(** [os.path.isfile(path)] *)
Definition isfile (path : pystr) : M bool :=
  λ w, Ok (match file_at w path with Some _ => true | None => false end) w.

(** Opening the template with ["w"] and writing [text]. *)
Definition write_template (text : pystr) : M unit :=
  emit TemplateWritten ;;;
  λ w, Ok () (World (elsewhere w) (rpy w) (Some text) (log w)).

(** Opening the template with ["a"], which makes an empty file when there is
    none. *)
Definition open_append : M unit :=
  emit TemplateAppended ;;;
  λ w, Ok () (World (elsewhere w) (rpy w) (Some (default [] (template w))) (log w)).

(** [fout.write(text)] on the template opened with ["a"]: the text is
    encoded as UTF-8 on the way, which a surrogate in it makes fail. *)
Definition write_appended (text : pystr) : M unit :=
  λ w, match encode_utf8 text with
       | Some _ =>
           Ok () (World (elsewhere w) (rpy w) (Some (default [] (template w) ++ text)) (log w))
       | None => Raised w
       end.

(** The loop [for x in xs: acc = f(acc, x)]. *)
Fixpoint for_each {A B} (f : A → B → M A) (acc : A) (xs : list B) : M A :=
  match xs with
  | [] => ret acc
  | x :: more => do acc' <- f acc x; for_each f acc' more
  end.

(** [os.path.join(a, b)] *)
Definition path_join (a b : pystr) : pystr :=
  if startswith b (py "/") then b
  else match last a with
       | None => b
       | Some c => if c =? 47 then a ++ b else a ++ py "/" ++ b
       end.

Fixpoint remove_first (x : pystr) (l : list pystr) : list pystr :=
  match l with
  | [] => []
  | y :: more => if bool_decide (y = x) then more else y :: remove_first x more
  end.

(** One record as the writers emit it: [< source], [> translation] and a
    blank line, each ended by [eol]. *)
Definition template_record (fill_template : bool) (eol orig : pystr) : pystr :=
  let q_orig := quote orig in
  let q_trans := if fill_template then quote orig else [] in
  (py "< " ++ q_orig ++ eol) ++ (py "> " ++ q_trans ++ eol ++ eol).

Definition empty_slots : list pystr :=
  map (λ i, py " " ++ [48 + i] ++ py ". Empty Slot.") [1; 2; 3; 4; 5; 6; 7; 8; 9].

Definition joystick_lines : list pystr :=
  [ py "Joystick Configuration";
    py "Left - Axis 0.0 Negative";
    py "Right - Axis 0.0 Positive";
    py "Up - Axis 0.1 Negative";
    py "Down - Axis 0.1 Positive";
    py "Select/Dismiss - Button 0.0";
    py "Rollback - Not Assigned";
    py "Hold to Skip - Not Assigned";
    py "Toggle Skip - Not Assigned";
    py "Hide Text - Not Assigned";
    py "Menu - Button 0.7";
    py "Joystick Mapping - Left";
    py "Joystick Mapping - Right";
    py "Joystick Mapping - Up";
    py "Joystick Mapping - Down";
    py "Joystick Mapping - Select/Dismiss";
    py "Joystick Mapping - Rollback";
    py "Joystick Mapping - Hold to Skip";
    py "Joystick Mapping - Toggle Skip";
    py "Joystick Mapping - Hide Text";
    py "Joystick Mapping - Menu";
    py "Move the joystick or press a joystick button to create the mapping. Click the mouse to remove the mapping." ].

(** What the first writer puts into the template when [screens.rpy] is
    there: the label texts, the load-screen slots, the quit question and the
    joystick section, with [\n] line ends. *)
Definition screens_template (fill_template : bool) (label_texts : list pystr)
  : pystr :=
  let rec := template_record fill_template [NL] in
  concat (map rec label_texts)
  ++ concat (map rec empty_slots)
  ++ rec (py "Are you sure you want to quit?")
  ++ concat (map rec joystick_lines).

(** The loop of step 6 of [main]: texts that are non-empty and not yet
    seen, in their first order. *)
Definition unique_step (st : gset pystr * list pystr) (t : pystr)
  : gset pystr * list pystr :=
  let '(seen, unique_texts) := st in
  if negb (bool_decide (t = [])) && negb (bool_decide (t ∈ seen))
  then ({[t]} ∪ seen, unique_texts ++ [t])
  else (seen, unique_texts).

Definition unique_texts_of (all_texts : list pystr) : list pystr :=
  snd (foldl unique_step (∅, []) all_texts).

(** [extract_screen_texts] *)
Definition extract_screen_texts (screens_path : pystr) : M (list pystr) :=
  do content <- read_text ScreenTextScan screens_path;
  ret (map (λ m, group m "2") (finditer screen_text_re content)).

(** The second loop of [extract_dialogues]. *)
Definition multi_line_text (raw : pystr) : pystr :=
  let lines := map rstrip (splitlines raw) in
  strip (join [NL] lines).

Definition multi_line_texts (multi_re : regex) (content : pystr) : list pystr :=
  map (λ m, multi_line_text (group m "text")) (finditer multi_re content).

(** The third loop of [extract_dialogues]. *)
Definition menu_choices (content : pystr) : list pystr :=
  map (λ m, strip (group m "1")) (finditer menu_choice_re content).

(** [if short not in names: names.append(short)] *)
Definition add_name (names : list pystr) (short : pystr) : list pystr :=
  if bool_decide (short ∈ names) then names else names ++ [short].

Record args : Type := Args {
  input_dir : pystr;
  output_file : pystr;
  fill_template : bool
}.

Section Run.

Variable unicode_alnum : N → bool.
Variable ucd_lookup : bytes → option N.

(** The inner loop of [gather_char_names] over one file. *)
Definition scan_definitions (names : list pystr) (text : pystr)
  : list pystr :=
  foldl (λ names m, add_name names (group m "short")) names
        (finditer (DEFINE_RE unicode_alnum) text).

(** [gather_char_names] *)
Definition gather_char_names (rpy_files : list pystr) : M (list pystr) :=
  for_each (λ names path,
              do text <- read_text CharacterScan path;
              ret (scan_definitions names text))
           [] rpy_files.

(** The first loop of [extract_dialogues]; [None] when a body does not
    decode. *)
Definition single_line_texts (single_re : regex) (content : pystr)
  : option (list pystr) :=
  mapM (λ m, strip <$> unescape ucd_lookup (group m "text"))
       (finditer single_re content).

(** [extract_dialogues] *)
Definition extract_dialogues (rpy_path : pystr) (single_re multi_re : regex)
  : M (list pystr) :=
  do content <- read_text DialogueScan rpy_path;
  match single_line_texts single_re content with
  | None => Raised
  | Some singles =>
      ret (singles ++ multi_line_texts multi_re content
                   ++ menu_choices content)
  end.

(** [main], after the arguments are parsed. *)
Definition main (a : args) : M unit :=
  do rpy_files <- glob_rpy;
  if bool_decide (rpy_files = []) then
    sys_exit (py "Error: No .rpy files found under '" ++ input_dir a
              ++ py "'.")
  else
  let screens_path := path_join (input_dir a) (py "screens.rpy") in
  do present <- isfile screens_path;
  (if present : bool then
     do label_texts <- extract_screen_texts screens_path;
     write_template (screens_template (fill_template a) label_texts)
   else write_template []) ;;;
  let script_path := path_join (input_dir a) (py "script.rpy") in
  let rpy_files :=
    if bool_decide (script_path ∈ rpy_files)
    then script_path :: remove_first script_path rpy_files
    else rpy_files in
  do char_names <- gather_char_names rpy_files;
  if bool_decide (char_names = []) then
    sys_exit (py "Error: No character definitions ('$' or 'define') found in any .rpy files.")
  else
  let '(single_re, multi_re) := build_patterns char_names in
  do all_texts <-
    for_each (λ all_texts path,
                do texts <- extract_dialogues path single_re multi_re;
                ret (all_texts ++ texts))
             [] rpy_files;
  let unique_texts := unique_texts_of all_texts in
  if bool_decide (unique_texts = []) then
    sys_exit (py "Error: No dialogue lines are found from .rpy files.")
  else
  open_append ;;;
  for_each (λ (_ : unit) orig,
              let q_orig := quote orig in
              let q_trans := if fill_template a then quote orig else [] in
              write_appended (py "< " ++ q_orig ++ [CR; NL]) ;;;
              write_appended (py "> " ++ q_trans ++ [CR; NL; CR; NL]))
           () unique_texts ;;;
  emit TemplateDeduplicated ;;;
  λ w, match template w with
       | Some text => Ok () (World (elsewhere w) (rpy w) (Some (deduplicate_rpt text)) (log w))
       | None => Raised w
       end.

End Run.

(** ** Specification-side definitions *)

(** What [quote] does to one character. *)
Definition escape_char (c : N) : pystr :=
  if c =? BSL then [BSL; BSL] else if c =? NL then [BSL; 110] else [c].

(** The first occurrences of the elements of a list, in their order. *)
Fixpoint first_occurrences (l : list pystr) : list pystr :=
  match l with
  | [] => []
  | x :: more => x :: filter (λ y, y ≠ x) (first_occurrences more)
  end.

(** Text that UTF-8 can encode. *)
Definition encodable (s : pystr) : bool :=
  match encode_utf8 s with
  | Some _ => true
  | None => false
  end.

(** The phases of a run, for stating what [main] does. *)

Definition logged (w : world) (es : list event) : world :=
  World (elsewhere w) (rpy w) (template w) (log w ++ es).

(** The text a read of [path] returns. *)
Definition text_read (files : list (pystr * pystr)) (path : pystr) : pystr :=
  universal_newlines (default [] (assoc path files)).

(** The order in which [main] goes through the sources: [script.rpy] of the
    input root first. *)
Definition run_order (a : args) (w : world) : list pystr :=
  let script_path := path_join (input_dir a) (py "script.rpy") in
  let rpy_files := map fst (rpy w) in
  if bool_decide (script_path ∈ rpy_files)
  then script_path :: remove_first script_path rpy_files
  else rpy_files.

(** The world after the first writer. *)
Definition after_screens (a : args) (w : world) : world :=
  let screens_path := path_join (input_dir a) (py "screens.rpy") in
  match file_at w screens_path with
  | Some text =>
      let labels :=
        map (λ m, group m "2")
            (finditer screen_text_re (universal_newlines text)) in
      World (elsewhere w) (rpy w)
            (Some (screens_template (fill_template a) labels))
            (log w ++ [ScreenTextScan screens_path; TemplateWritten])
  | None =>
      World (elsewhere w) (rpy w) (Some []) (log w ++ [TemplateWritten])
  end.

(** The character names a run finds. *)
Definition run_names (unicode_alnum : N → bool) (a : args) (w : world)
  : list pystr :=
  foldl (scan_definitions unicode_alnum) []
        (map (text_read (rpy w)) (run_order a w)).

(** The texts one source gives, and those all the sources give. *)
Definition dialogues_of (ucd_lookup : bytes → option N)
    (single_re multi_re : regex) (content : pystr) : option (list pystr) :=
  match single_line_texts ucd_lookup single_re content with
  | None => None
  | Some singles =>
      Some (singles ++ multi_line_texts multi_re content ++ menu_choices content)
  end.

Definition run_dialogues (unicode_alnum : N → bool)
    (ucd_lookup : bytes → option N) (a : args) (w : world)
  : option (list pystr) :=
  let '(single_re, multi_re) := build_patterns (run_names unicode_alnum a w) in
  (λ tss, concat tss) <$> mapM (λ p, dialogues_of ucd_lookup single_re multi_re
                     (text_read (rpy w) p))
                  (run_order a w).

Definition no_sources_message (a : args) : pystr :=
  py "Error: No .rpy files found under '" ++ input_dir a ++ py "'.".
Definition no_characters_message : pystr :=
  py "Error: No character definitions ('$' or 'define') found in any .rpy files.".
Definition no_dialogue_message : pystr :=
  py "Error: No dialogue lines are found from .rpy files.".

(** The world when the character names have been gathered. *)
Definition after_names (a : args) (w : world) : world :=
  logged (after_screens a w) (map CharacterScan (run_order a w)).

(** A file system that has nothing under the paths [glob] did not give. *)
Definition no_other_paths : pystr → option pystr := λ _, None.

(** Stand-ins for the interpreter's Unicode tables in runs on ASCII text,
    where the tables are not consulted. *)
Definition no_unicode_alnum : N → bool := λ _, false.
Definition no_ucd_names : bytes → option N := λ _, None.

(** The cursor after the characters [w] have been passed. *)
Definition advance (st : cursor) (w : pystr) : cursor :=
  Cursor (pos st + length w)
         (match last w with Some c => Some c | None => prev st end)
         (drop (length w) (rest st)) (caps st).

(** The character before the cursor once [w] has been passed. *)
Definition prev_after (pv : option N) (w : pystr) : option N :=
  match last w with
  | Some c => Some c
  | None => pv
  end.

(** [r] is empty or starts with a character outside the class. *)
Definition stops (p : N → bool) (r : pystr) : Prop :=
  match r with
  | [] => True
  | c :: _ => p c = false
  end.

(** The names in the definition statements of the files [rpy_files], file by
    file and, within a file, in the order of the scan. *)
Definition definitions_in (unicode_alnum : N → bool) (w : world)
    (rpy_files : list pystr) : list pystr :=
  flat_map (λ path, map (λ m, group m "short")
                        (finditer (DEFINE_RE unicode_alnum)
                                  (text_read (rpy w) path)))
           rpy_files.

(** ** Example inputs *)

(** A UI source with a label and a button, and no other source. *)
Definition label_only_screens : pystr :=
  py "label _(" ++ [DQ] ++ py "Start Game" ++ [DQ] ++ py ")" ++ [NL]
  ++ py "textbutton _(" ++ [DQ] ++ py "Quit" ++ [DQ] ++ py ")" ++ [NL].

Definition label_only_world : world :=
  World no_other_paths [(py "game/screens.rpy", label_only_screens)] None [].

(** The same UI source beside a script that defines a character and has no
    dialogue. *)
Definition silent_script : pystr :=
  py "define e = Character('Eve')" ++ [NL].

Definition silent_world : world :=
  World no_other_paths
        [(py "game/screens.rpy", label_only_screens);
         (py "game/script.rpy", silent_script)] None [].

(** A script with dialogue and no character definition. *)
Definition undefined_speaker_world : world :=
  World no_other_paths
        [(py "game/script.rpy", py "e " ++ [DQ] ++ py "Hi" ++ [DQ; NL])]
        None [].

(** Two sources that define [e], [b] and again [e]. *)
Definition two_scripts_world : world :=
  World no_other_paths
        [(py "game/a.rpy",
          py "define e = Character('Eve')" ++ [NL]
          ++ py "$ b = Character('Bob')" ++ [NL]);
         (py "game/script.rpy",
          py "define b = Character('B')" ++ [NL]
          ++ py "define e = Character('E')" ++ [NL])] None [].

Definition game_args (fill : bool) : args :=
  Args (py "game") (py "translations.rpt") fill.

(** ** Specification of the deduplication *)

(** A line that starts a record. *)
Definition is_source (line : pystr) : bool := startswith line (py "< ").

(** The lines the loop of [deduplicate_rpt] keeps, as they were read. *)
Equations? kept_lines (seen : gset pystr) (lines : list pystr)
  : list pystr by wf (length lines) lt :=
  kept_lines seen [] := [];
  kept_lines seen (line :: more) :=
    if is_source line then
      if bool_decide (payload line ∈ seen) then
        kept_lines seen (drop_while skipped more)
      else
        let more' := drop (length (translation_after more)) more in
        line :: translation_after more ++ take_while is_blank more'
          ++ kept_lines ({[payload line]} ∪ seen) (drop_while is_blank more')
    else line :: kept_lines seen more.
Proof.
  all: assert (Hdw : ∀ (p : pystr → bool) l,
                 (length (drop_while p l) ≤ length l)%nat)
    by (intros p l; induction l as [|x l IH]; simpl;
        [lia | destruct (p x); simpl; lia]).
  - specialize (Hdw skipped more). lia.
  - specialize (Hdw is_blank more'). subst more'.
    rewrite length_drop in Hdw. lia.
Qed.

(** The source lines whose payload is not in [seen] and has not come
    before. *)
Fixpoint first_from (seen : gset pystr) (sources : list pystr) : list pystr :=
  match sources with
  | [] => []
  | line :: more =>
      if bool_decide (payload line ∈ seen) then first_from seen more
      else line :: first_from ({[payload line]} ∪ seen) more
  end.

Definition first_by_payload (sources : list pystr) : list pystr :=
  first_from ∅ sources.

(** The source lines of a template text, as a reader of the file gets
    them. *)
Definition source_lines (text : pystr) : list pystr :=
  filter (λ line, is_source line = true) (readlines (universal_newlines text)).

(** A line as [readlines] gives it: some text without line ends, then a
    newline; only the last line of a file may lack the newline. *)
Definition terminated (line : pystr) : Prop :=
  ∃ body, line = body ++ [NL] ∧ (NL ∉ body) ∧ (CR ∉ body).

Definition line_ok (line : pystr) : Prop :=
  terminated line ∨ (line ≠ [] ∧ (NL ∉ line) ∧ (CR ∉ line)).

Fixpoint lines_wf (lines : list pystr) : Prop :=
  match lines with
  | [] => True
  | line :: more => line_ok line ∧ (more ≠ [] → terminated line) ∧ lines_wf more
  end.

(** A pattern every match of which takes at least one character. *)
Fixpoint consumes (r : regex) : bool :=
  match r with
  | Eps | Bol | Star _ _ => false
  | Cls _ => true
  | Seq a b => consumes a || consumes b
  | Alt a b => consumes a && consumes b
  | Grp _ a => consumes a
  end.

(** What a greedy run over the characters [w] of a class comes to: what
    follows is tried after the whole of [w] first, then after each shorter
    part of it. *)
Fixpoint greedy_back (k : cursor → option cursor) (q : nat) (pv : option N)
    (w r : pystr) (cs : gmap string pystr) : option cursor :=
  match w with
  | [] => k (Cursor q pv r cs)
  | c :: w' =>
      or_else (greedy_back k (S q) (Some c) w' r cs)
              (k (Cursor q pv (w ++ r) cs))
  end.

(** What a lazy run over any characters comes to: what follows is tried
    at once, then after each further character. *)
Fixpoint lazy_any (k : cursor → option cursor) (q : nat) (pv : option N)
    (s : pystr) (cs : gmap string pystr) : option cursor :=
  or_else (k (Cursor q pv s cs))
          (match s with
           | [] => None
           | c :: s' => lazy_any k (S q) (Some c) s' cs
           end).

(** One step of the body of a single-line dialogue: a character that is
    neither a quote nor a backslash, or a backslash and the character after
    it, which is not a newline. *)
Definition body_token (t : pystr) : bool :=
  match t with
  | [c] => not_in [DQ; BSL] c
  | [b; d] => (b =? BSL) && any_but_newline d
  | _ => false
  end.

(** A pattern without a capture group. *)
Fixpoint group_free (r : regex) : bool :=
  match r with
  | Eps | Bol | Cls _ => true
  | Seq a b | Alt a b => group_free a && group_free b
  | Star _ a => group_free a
  | Grp _ _ => false
  end.

(** A source seen line by line for the menu-choice scan: a line that
    holds, after optional indentation, a quoted text and a colon right
    after it, then whatever ends the line; or a line whose first character
    after its indentation is not a quote. *)
Inductive menu_line : Type :=
| ChoiceLine (indent s tail : pystr)
| OtherLine (lead : pystr) (c : N) (body : pystr).

Definition render_line (l : menu_line) : pystr :=
  match l with
  | ChoiceLine indent s tail => indent ++ DQ :: s ++ DQ :: 58 :: tail ++ [NL]
  | OtherLine lead c body => lead ++ c :: body ++ [NL]
  end.

Definition menu_line_ok (l : menu_line) : bool :=
  match l with
  | ChoiceLine indent s tail =>
      forallb is_space indent
      && match s with [] => false | _ :: _ => true end
      && forallb (not_in [DQ]) s
      && forallb any_but_newline tail
  | OtherLine lead c body =>
      forallb is_space lead && negb (is_space c) && negb (c =? DQ)
      && forallb any_but_newline body
  end.

(** The quoted texts of the choice lines, trimmed. *)
Definition choices_of (lines : list menu_line) : list pystr :=
  flat_map (λ l, match l with
                 | ChoiceLine _ s _ => [strip s]
                 | OtherLine _ _ _ => []
                 end) lines.

(** * Properties *)

(** ** Escaper *)

Lemma replace_one_char (a : N) (new s : pystr) :
  replace s [a] new = flat_map (λ c, if c =? a then new else [c]) s.
Proof.
  unfold replace. induction s as [|c t IH]; [done|].
  cbn [replace_from startswith flat_map length].
  replace (startswith t []) with true by (by destruct t).
  rewrite N.eqb_sym, andb_true_r. simpl (_ - _)%nat.
  destruct (c =? a); rewrite IH; done.
Qed.

Lemma quote_flat_map (s : pystr) : quote s = flat_map escape_char s.
Proof.
  unfold quote. rewrite !replace_one_char.
  induction s as [|c t IH]; [done|]. simpl. rewrite flat_map_app, IH.
  f_equal. unfold escape_char.
  destruct (c =? BSL) eqn:Hb; [done|].
  destruct (c =? NL) eqn:Hn; simpl; rewrite ?Hn; done.
Qed.

Lemma encode_utf8_ascii (s : pystr) :
  Forall (λ c, c < 128) s → encode_utf8 s = Some s.
Proof.
  induction 1 as [|c t Hc _ IH]; [done|]. simpl. rewrite IH.
  unfold utf8_char. destruct (N.ltb_spec c 128); [done|lia].
Qed.

Lemma escape_char_ascii (s : pystr) :
  Forall (λ c, c < 128) s → Forall (λ c, c < 128) (flat_map escape_char s).
Proof.
  induction 1 as [|c t Hc _ IH]; [constructor|]. simpl.
  apply Forall_app. split; [|done]. unfold escape_char.
  destruct (c =? BSL); [|destruct (c =? NL)];
    repeat constructor; unfold BSL; lia.
Qed.

Lemma decode_from_backslash ucd c (t : bytes) out :
  escape_at ucd (c :: t) = Some (out, 1%nat) →
  decode_from ucd 0 (BSL :: c :: t) = app out <$> decode_from ucd 0 t.
Proof. intros H. cbn [decode_from]. rewrite N.eqb_refl, H. done. Qed.

Lemma decode_from_plain ucd c (t : bytes) :
  c ≠ BSL →
  decode_from ucd 0 (c :: t) = cons c <$> decode_from ucd 0 t.
Proof. intros H. cbn [decode_from]. by apply N.eqb_neq in H as ->. Qed.

Lemma decode_escaped ucd (s : pystr) :
  decode_from ucd 0 (flat_map escape_char s) = Some s.
Proof.
  induction s as [|c t IH]; [done|]. cbn [flat_map]. unfold escape_char at 1.
  destruct (N.eqb_spec c BSL) as [->|Hb].
  - cbn [app]. rewrite (decode_from_backslash _ _ _ [BSL]), IH by done. done.
  - destruct (N.eqb_spec c NL) as [->|Hn].
    + cbn [app]. rewrite (decode_from_backslash _ _ _ [NL]), IH by done. done.
    + cbn [app]. rewrite decode_from_plain, IH by done. done.
Qed.

(** The round trip holds on ASCII text. *)
Lemma unescape_quote_ascii ucd (s : pystr) :
  Forall (λ c, c < 128) s → unescape ucd (quote s) = Some s.
Proof.
  intros Hs. unfold unescape. rewrite quote_flat_map.
  rewrite encode_utf8_ascii by (by apply escape_char_ascii).
  apply decode_escaped.
Qed.

(** C1: the round trip breaks on a printable character beyond ASCII: the
    one-character text U+00E9 is left alone by [quote], encoded to the two
    bytes C3 A9, and decoded byte by byte to the two characters U+00C3
    U+00A9. *)
Theorem C1_unescape_quote_breaks_beyond_ascii ucd :
  quote [233] = [233]
  ∧ unescape ucd (quote [233]) = Some [195; 169]
  ∧ unescape ucd (quote [233]) ≠ Some [233].
Proof. split_and!; done. Qed.

(** ** First occurrences *)

Lemma first_occurrences_elem (l : list pystr) (x : pystr) :
  x ∈ first_occurrences l ↔ x ∈ l.
Proof.
  induction l as [|y l IH]; [done|]. simpl.
  rewrite !elem_of_cons, list_elem_of_filter, IH.
  destruct (decide (x = y)); naive_solver.
Qed.

Lemma first_occurrences_NoDup (l : list pystr) : NoDup (first_occurrences l).
Proof.
  induction l as [|y l IH]; simpl; constructor.
  - rewrite list_elem_of_filter. naive_solver.
  - by apply NoDup_filter.
Qed.

Lemma filter_first_occurrences (P : pystr → Prop) `{∀ x, Decision (P x)}
    (l : list pystr) :
  filter P (first_occurrences l) = first_occurrences (filter P l).
Proof.
  induction l as [|y l IH]; [done|]. simpl.
  rewrite !filter_cons. destruct (decide (P y)); simpl.
  - rewrite <- IH, !list_filter_filter. f_equal.
    apply list_filter_iff. naive_solver.
  - rewrite <- IH, list_filter_filter. apply list_filter_iff.
    intros x. split; [naive_solver|]. intros Hx. split; [done|].
    by intros ->.
Qed.

Lemma foldl_add_name (acc l : list pystr) :
  foldl add_name acc l = acc ++ filter (λ x, x ∉ acc) (first_occurrences l).
Proof.
  revert acc. induction l as [|x l IH]; intros acc; simpl.
  { by rewrite app_nil_r. }
  rewrite IH. unfold add_name. rewrite filter_cons, list_filter_filter.
  case_bool_decide as Hx.
  - rewrite decide_False by naive_solver.
    f_equal. apply list_filter_iff. intros y. split; [|naive_solver].
    intros Hy. split; [done|]. by intros ->.
  - rewrite decide_True by done. rewrite <- app_assoc. simpl. do 2 f_equal.
    apply list_filter_iff. intros y. rewrite elem_of_app, list_elem_of_singleton.
    naive_solver.
Qed.

Lemma foldl_unique_step (seen : gset pystr) (uniq l : list pystr) :
  snd (foldl unique_step (seen, uniq) l)
  = uniq ++ filter (λ x, x ∉ seen)
              (first_occurrences (filter (λ t, t ≠ []) l)).
Proof.
  revert seen uniq. induction l as [|t l IH]; intros seen uniq; simpl.
  { by rewrite app_nil_r. }
  rewrite filter_cons.
  change (foldl unique_step (unique_step (seen, uniq) t) l) with
    (foldl unique_step
       (if negb (bool_decide (t = [])) && negb (bool_decide (t ∈ seen))
        then ({[t]} ∪ seen, uniq ++ [t]) else (seen, uniq)) l).
  case_bool_decide as Ht; simpl.
  { rewrite decide_False by naive_solver. apply IH. }
  rewrite decide_True by done. simpl. rewrite filter_cons, list_filter_filter.
  case_bool_decide as Hs; simpl.
  - rewrite decide_False by naive_solver. rewrite IH. f_equal.
    apply list_filter_iff. intros y. split; [|naive_solver].
    intros Hy. split; [done|]. by intros ->.
  - rewrite decide_True by done. rewrite IH, <- app_assoc. simpl.
    do 2 f_equal. apply list_filter_iff. intros y. set_solver.
Qed.

Lemma unique_texts_of_spec (all_texts : list pystr) :
  unique_texts_of all_texts
  = first_occurrences (filter (λ t, t ≠ []) all_texts).
Proof.
  unfold unique_texts_of. rewrite foldl_unique_step. simpl.
  induction (first_occurrences _) as [|x l IH]; [done|].
  by rewrite filter_cons_True, IH by set_solver.
Qed.

(** ** The run *)

Lemma assoc_elem (path : pystr) (files : list (pystr * pystr)) :
  path ∈ map fst files →
  ∃ text, assoc path files = Some text ∧ (path, text) ∈ files.
Proof.
  induction files as [|[p t] files IH]; simpl.
  { by intros ?%elem_of_nil. }
  intros Hin. case_bool_decide as Hp.
  - subst p. exists t. split; [done|]. left.
  - apply elem_of_cons in Hin as [?|Hin]; [done|].
    destruct (IH Hin) as (text & ? & ?). exists text. split; [done|].
    by right.
Qed.

Lemma read_text_ok (scan : pystr → event) (path : pystr) (w : world) :
  path ∈ map fst (rpy w) →
  read_text scan path w = Ok (text_read (rpy w) path) (logged w [scan path]).
Proof.
  intros (text & Ha & _)%assoc_elem.
  unfold read_text, bind, emit, file_at, text_read, logged. simpl.
  by rewrite Ha.
Qed.

Lemma logged_logged (w : world) (es es' : list event) :
  logged (logged w es) es' = logged w (es ++ es').
Proof. unfold logged. simpl. by rewrite app_assoc. Qed.

Lemma logged_nil (w : world) : logged w [] = w.
Proof. destruct w. unfold logged. simpl. by rewrite app_nil_r. Qed.

Lemma remove_first_subseteq (x : pystr) (l : list pystr) :
  remove_first x l ⊆ l.
Proof.
  induction l as [|y l IH]; simpl; [done|].
  case_bool_decide; set_solver.
Qed.

Lemma run_order_subseteq (a : args) (w : world) :
  run_order a w ⊆ map fst (rpy w).
Proof.
  unfold run_order. cbv zeta. case_bool_decide as H; [|done].
  pose proof (remove_first_subseteq
                (path_join (input_dir a) (py "script.rpy"))
                (map fst (rpy w))).
  set_solver.
Qed.

Section GatherLemmas.

Variable unicode_alnum : N → bool.

Lemma gather_loop_ok (ps : list pystr) (names : list pystr) (w : world) :
  ps ⊆ map fst (rpy w) →
  for_each (λ names path,
              do text <- read_text CharacterScan path;
              ret (scan_definitions unicode_alnum names text))
           names ps w
  = Ok (foldl (scan_definitions unicode_alnum) names (map (text_read (rpy w)) ps))
       (logged w (map CharacterScan ps)).
Proof.
  revert names w. induction ps as [|p ps IH]; intros names w Hps.
  { simpl. unfold ret. by rewrite logged_nil. }
  cbn [for_each map foldl]. unfold bind at 1. unfold bind at 1.
  rewrite read_text_ok by set_solver. unfold ret at 1.
  rewrite IH by set_solver. by rewrite logged_logged.
Qed.

Lemma gather_char_names_ok (ps : list pystr) (w : world) :
  ps ⊆ map fst (rpy w) →
  gather_char_names unicode_alnum ps w
  = Ok (foldl (scan_definitions unicode_alnum) [] (map (text_read (rpy w)) ps))
       (logged w (map CharacterScan ps)).
Proof. apply gather_loop_ok. Qed.

End GatherLemmas.

Lemma for_each_cons {A B} (f : A → B → M A) (acc : A) (x : B)
    (xs : list B) (w : world) :
  for_each f acc (x :: xs) w
  = match f acc x w with
    | Ok acc' w' => for_each f acc' xs w'
    | Exit msg w' => Exit msg w'
    | Raised w' => Raised w'
    end.
Proof. done. Qed.

Section DialogueLemmas.

Variable ucd_lookup : bytes → option N.

Lemma extract_dialogues_ok (p : pystr) (single_re multi_re : regex)
    (w : world) :
  p ∈ map fst (rpy w) →
  extract_dialogues ucd_lookup p single_re multi_re w
  = match dialogues_of ucd_lookup single_re multi_re (text_read (rpy w) p) with
    | Some texts => Ok texts (logged w [DialogueScan p])
    | None => Raised (logged w [DialogueScan p])
    end.
Proof.
  intros Hp. unfold extract_dialogues, bind. rewrite read_text_ok by done.
  unfold dialogues_of. by destruct (single_line_texts _ _ _).
Qed.

Lemma dialogue_step_ok (p : pystr) (single_re multi_re : regex)
    (acc : list pystr) (w : world) :
  p ∈ map fst (rpy w) →
  (do texts <- extract_dialogues ucd_lookup p single_re multi_re;
   ret (acc ++ texts)) w
  = match dialogues_of ucd_lookup single_re multi_re
            (text_read (rpy w) p) with
    | Some texts => Ok (acc ++ texts) (logged w [DialogueScan p])
    | None => Raised (logged w [DialogueScan p])
    end.
Proof.
  intros Hp. unfold bind. rewrite extract_dialogues_ok by done.
  by destruct (dialogues_of _ _ _ _).
Qed.

Lemma dialogue_loop_ok (single_re multi_re : regex) (ps : list pystr)
    (acc : list pystr) (w : world) :
  ps ⊆ map fst (rpy w) →
  match mapM (λ p, dialogues_of ucd_lookup single_re multi_re
                     (text_read (rpy w) p)) ps with
  | Some tss =>
      for_each (λ all_texts path,
                  do texts <- extract_dialogues ucd_lookup path
                                single_re multi_re;
                  ret (all_texts ++ texts))
               acc ps w
      = Ok (acc ++ concat tss) (logged w (map DialogueScan ps))
  | None =>
      ∃ w',
        for_each (λ all_texts path,
                    do texts <- extract_dialogues ucd_lookup path
                                  single_re multi_re;
                    ret (all_texts ++ texts))
                 acc ps w
        = Raised w'
        ∧ rpy w' = rpy w ∧ template w' = template w
  end.
Proof.
  revert acc w. induction ps as [|p ps IH]; intros acc w Hps.
  { simpl. unfold ret. by rewrite logged_nil, app_nil_r. }
  rewrite for_each_cons, dialogue_step_ok by set_solver.
  cbn [mapM].
  destruct (dialogues_of _ _ _ _) as [texts|] eqn:Hd; cbn [mbind option_bind].
  - specialize (IH (acc ++ texts) (logged w [DialogueScan p])).
    change (rpy (logged w [DialogueScan p])) with (rpy w) in IH.
    destruct (mapM _ ps) as [tss|]; cbn [mbind option_bind mret option_ret].
    + rewrite IH by set_solver.
      by rewrite logged_logged, <- app_assoc.
    + destruct IH as (w' & Hr & Hf & Ht); [set_solver|].
      exists w'. split_and!; [exact Hr|exact Hf|exact Ht].
  - eexists. done.
Qed.

End DialogueLemmas.

Lemma bind_ok {A B} (m : M A) (f : A → M B) (w w' : world) (a : A) :
  m w = Ok a w' → bind m f w = f a w'.
Proof. unfold bind. by intros ->. Qed.

Lemma bind_raised {A B} (m : M A) (f : A → M B) (w w' : world) :
  m w = Raised w' → bind m f w = Raised w'.
Proof. unfold bind. by intros ->. Qed.

Lemma screens_phase_ok (a : args) (w : world) :
  (if match file_at w (path_join (input_dir a) (py "screens.rpy")) with
      | Some _ => true
      | None => false
      end then
     do label_texts <-
       extract_screen_texts (path_join (input_dir a) (py "screens.rpy"));
     write_template (screens_template (fill_template a) label_texts)
   else write_template []) w
  = Ok () (after_screens a w).
Proof.
  unfold after_screens. cbv zeta.
  destruct (file_at w (path_join (input_dir a) (py "screens.rpy")))
    as [text|] eqn:Hs; [|done].
  unfold extract_screen_texts, read_text, write_template, bind, emit, ret.
  unfold file_at in *. cbn [rpy elsewhere template log]. rewrite Hs.
  cbn [rpy elsewhere template log]. by rewrite <- app_assoc.
Qed.

Lemma rpy_after_screens (a : args) (w : world) :
  rpy (after_screens a w) = rpy w.
Proof. unfold after_screens. cbv zeta. by destruct (file_at w _). Qed.

Lemma elsewhere_after_screens (a : args) (w : world) :
  elsewhere (after_screens a w) = elsewhere w.
Proof. unfold after_screens. cbv zeta. by destruct (file_at w _). Qed.

Lemma main_prefix unicode_alnum (a : args) (w : world)
    (k : list pystr → M unit) :
  (do char_names <- gather_char_names unicode_alnum (run_order a w);
   k char_names) (after_screens a w)
  = k (run_names unicode_alnum a w) (after_names a w).
Proof.
  erewrite bind_ok; [reflexivity|].
  rewrite gather_char_names_ok.
  - by rewrite rpy_after_screens.
  - rewrite rpy_after_screens. apply run_order_subseteq.
Qed.

(** *** The second writer *)

Lemma encode_utf8_app (s t : pystr) :
  encode_utf8 (s ++ t)
  = match encode_utf8 s, encode_utf8 t with
    | Some a, Some b => Some (a ++ b)
    | _, _ => None
    end.
Proof.
  induction s as [|c s IH]; simpl.
  { by destruct (encode_utf8 t). }
  rewrite IH. destruct (utf8_char c), (encode_utf8 s), (encode_utf8 t);
    by rewrite <- ?app_assoc.
Qed.

Lemma encodable_app (s t : pystr) :
  encodable (s ++ t) = encodable s && encodable t.
Proof.
  unfold encodable. rewrite encode_utf8_app.
  by destruct (encode_utf8 s), (encode_utf8 t).
Qed.

Lemma encodable_quote (s : pystr) : encodable (quote s) = encodable s.
Proof.
  rewrite quote_flat_map. induction s as [|c s IH]; [done|].
  cbn [flat_map]. rewrite encodable_app, IH.
  change (c :: s) with ([c] ++ s). rewrite (encodable_app [c]). f_equal.
  unfold escape_char. destruct (N.eqb_spec c BSL) as [->|_]; [done|].
  by destruct (N.eqb_spec c NL) as [->|_].
Qed.

Lemma write_appended_ok (text : pystr) (w : world) :
  encodable text = true →
  write_appended text w
  = Ok () (World (elsewhere w) (rpy w) (Some (default [] (template w) ++ text)) (log w)).
Proof.
  unfold encodable, write_appended. by destruct (encode_utf8 text).
Qed.

Lemma write_appended_raised (text : pystr) (w : world) :
  encodable text = false → write_appended text w = Raised w.
Proof.
  unfold encodable, write_appended. by destruct (encode_utf8 text).
Qed.

Lemma write_loop_ok (fill : bool) (texts : list pystr) (w : world)
    (old : pystr) :
  template w = Some old →
  forallb encodable texts = true →
  for_each (λ (_ : unit) orig,
              let q_orig := quote orig in
              let q_trans := if fill then quote orig else [] in
              write_appended (py "< " ++ q_orig ++ [CR; NL]) ;;;
              write_appended (py "> " ++ q_trans ++ [CR; NL; CR; NL]))
           () texts w
  = Ok () (World (elsewhere w) (rpy w)
             (Some (old ++ concat (map (template_record fill [CR; NL]) texts)))
             (log w)).
Proof.
  revert w old. induction texts as [|t texts IH]; intros w old Hold Henc.
  { simpl. unfold ret. destruct w as [r tm l]; simpl in *.
    by rewrite Hold, app_nil_r. }
  simpl in Henc. apply andb_true_iff in Henc as [Ht Henc].
  rewrite for_each_cons. cbv zeta.
  erewrite bind_ok; [|apply write_appended_ok].
  2:{ rewrite !encodable_app, encodable_quote, Ht. reflexivity. }
  rewrite write_appended_ok.
  2:{ rewrite !encodable_app.
      destruct fill; rewrite ?encodable_quote, ?Ht; reflexivity. }
  erewrite IH; [|reflexivity|done]. cbn [rpy template log map concat].
  rewrite Hold. cbn [default].
  unfold template_record, id. cbv zeta. by rewrite <- !app_assoc.
Qed.

Lemma write_loop_raised (fill : bool) (texts : list pystr) (w : world) :
  forallb encodable texts = false →
  ∃ w',
    for_each (λ (_ : unit) orig,
                let q_orig := quote orig in
                let q_trans := if fill then quote orig else [] in
                write_appended (py "< " ++ q_orig ++ [CR; NL]) ;;;
                write_appended (py "> " ++ q_trans ++ [CR; NL; CR; NL]))
             () texts w
    = Raised w'.
Proof.
  revert w. induction texts as [|t texts IH]; intros w Henc; [done|].
  simpl in Henc. rewrite for_each_cons. cbv zeta.
  destruct (encodable t) eqn:Ht.
  - erewrite bind_ok; [|apply write_appended_ok].
    2:{ rewrite !encodable_app, encodable_quote, Ht. reflexivity. }
    rewrite write_appended_ok.
    2:{ rewrite !encodable_app.
      destruct fill; rewrite ?encodable_quote, ?Ht; reflexivity. }
    by apply IH.
  - erewrite bind_raised; [by eexists|]. apply write_appended_raised.
    by rewrite !encodable_app, encodable_quote, Ht.
Qed.

Section MainLemmas.

Variable unicode_alnum : N → bool.
Variable ucd_lookup : bytes → option N.

Lemma main_no_sources (a : args) (w : world) :
  rpy w = [] → main unicode_alnum ucd_lookup a w = Exit (no_sources_message a) w.
Proof.
  intros Hw. unfold main. erewrite bind_ok by reflexivity.
  rewrite Hw. done.
Qed.

Lemma main_no_characters (a : args) (w : world) :
  rpy w ≠ [] → run_names unicode_alnum a w = [] →
  main unicode_alnum ucd_lookup a w
  = Exit no_characters_message (after_names a w).
Proof.
  intros Hw Hn. unfold main. erewrite bind_ok by reflexivity.
  rewrite bool_decide_false by (by destruct (rpy w)).
  cbv zeta. erewrite bind_ok by reflexivity.
  erewrite bind_ok by apply screens_phase_ok.
  fold (run_order a w). rewrite main_prefix.
  by rewrite Hn.
Qed.

(** What is left of [main] once the texts of the sources are there. *)
Lemma main_after_dialogues (a : args) (w : world) (all_texts : list pystr) :
  rpy w ≠ [] → run_names unicode_alnum a w ≠ [] →
  run_dialogues unicode_alnum ucd_lookup a w = Some all_texts →
  main unicode_alnum ucd_lookup a w
  = (if bool_decide (unique_texts_of all_texts = []) then
       sys_exit no_dialogue_message
     else
       open_append ;;;
       for_each (λ (_ : unit) orig,
                   let q_orig := quote orig in
                   let q_trans := if fill_template a then quote orig else [] in
                   write_appended (py "< " ++ q_orig ++ [CR; NL]) ;;;
                   write_appended (py "> " ++ q_trans ++ [CR; NL; CR; NL]))
                () (unique_texts_of all_texts) ;;;
       emit TemplateDeduplicated ;;;
       λ w, match template w with
            | Some text =>
                Ok () (World (elsewhere w) (rpy w) (Some (deduplicate_rpt text)) (log w))
            | None => Raised w
            end)
      (logged (after_names a w) (map DialogueScan (run_order a w))).
Proof.
  intros Hw Hn Hd. unfold main. erewrite bind_ok by reflexivity.
  rewrite bool_decide_false by (by destruct (rpy w)).
  cbv zeta. erewrite bind_ok by reflexivity.
  erewrite bind_ok by apply screens_phase_ok.
  fold (run_order a w). rewrite main_prefix.
  rewrite bool_decide_false by done.
  unfold run_dialogues in Hd.
  destruct (build_patterns (run_names unicode_alnum a w))
    as [single_re multi_re].
  pose proof (dialogue_loop_ok ucd_lookup single_re multi_re
                (run_order a w) [] (after_names a w)) as Hloop.
  change (rpy (after_names a w)) with (rpy (after_screens a w)) in Hloop.
  rewrite rpy_after_screens in Hloop.
  destruct (mapM _ (run_order a w)) as [tss|]; [|done].
  simpl in Hd. injection Hd as <-.
  erewrite bind_ok by (apply Hloop, run_order_subseteq).
  done.
Qed.

Lemma main_no_dialogue (a : args) (w : world) (all_texts : list pystr) :
  rpy w ≠ [] → run_names unicode_alnum a w ≠ [] →
  run_dialogues unicode_alnum ucd_lookup a w = Some all_texts →
  unique_texts_of all_texts = [] →
  main unicode_alnum ucd_lookup a w
  = Exit no_dialogue_message
      (logged (after_names a w) (map DialogueScan (run_order a w))).
Proof.
  intros Hw Hn Hd Hu. rewrite (main_after_dialogues a w all_texts) by done.
  by rewrite bool_decide_true.
Qed.

Lemma main_ok (a : args) (w : world) (all_texts : list pystr) :
  rpy w ≠ [] → run_names unicode_alnum a w ≠ [] →
  run_dialogues unicode_alnum ucd_lookup a w = Some all_texts →
  unique_texts_of all_texts ≠ [] →
  forallb encodable (unique_texts_of all_texts) = true →
  main unicode_alnum ucd_lookup a w
  = Ok () (World (elsewhere w) (rpy w)
             (Some (deduplicate_rpt
                      (default [] (template (after_screens a w))
                       ++ concat (map (template_record (fill_template a) [CR; NL])
                                    (unique_texts_of all_texts)))))
             (log (after_names a w) ++ map DialogueScan (run_order a w)
              ++ [TemplateAppended; TemplateDeduplicated])).
Proof.
  intros Hw Hn Hd Hu Henc.
  rewrite (main_after_dialogues a w all_texts) by done.
  rewrite bool_decide_false by done.
  erewrite bind_ok by reflexivity.
  erewrite bind_ok by (by apply write_loop_ok).
  unfold bind, emit, logged, after_names, logged. simpl.
  rewrite rpy_after_screens, elsewhere_after_screens, <- !app_assoc. done.
Qed.

Lemma main_write_raised (a : args) (w : world) (all_texts : list pystr) :
  rpy w ≠ [] → run_names unicode_alnum a w ≠ [] →
  run_dialogues unicode_alnum ucd_lookup a w = Some all_texts →
  forallb encodable (unique_texts_of all_texts) = false →
  ∃ w', main unicode_alnum ucd_lookup a w = Raised w'.
Proof.
  intros Hw Hn Hd Henc.
  rewrite (main_after_dialogues a w all_texts) by done.
  rewrite bool_decide_false by (intros Hu; by rewrite Hu in Henc).
  erewrite bind_ok by reflexivity.
  edestruct (write_loop_raised (fill_template a)) as [w' Hr]; [done|].
  exists w'. by erewrite bind_raised.
Qed.

Lemma main_raised (a : args) (w : world) :
  rpy w ≠ [] → run_names unicode_alnum a w ≠ [] →
  run_dialogues unicode_alnum ucd_lookup a w = None →
  ∃ w', main unicode_alnum ucd_lookup a w = Raised w'.
Proof.
  intros Hw Hn Hd. unfold main. erewrite bind_ok by reflexivity.
  rewrite bool_decide_false by (by destruct (rpy w)).
  cbv zeta. erewrite bind_ok by reflexivity.
  erewrite bind_ok by apply screens_phase_ok.
  fold (run_order a w). rewrite main_prefix.
  rewrite bool_decide_false by done.
  unfold run_dialogues in Hd.
  destruct (build_patterns (run_names unicode_alnum a w))
    as [single_re multi_re].
  pose proof (dialogue_loop_ok ucd_lookup single_re multi_re
                (run_order a w) [] (after_names a w)) as Hloop.
  change (rpy (after_names a w)) with (rpy (after_screens a w)) in Hloop.
  rewrite rpy_after_screens in Hloop.
  destruct (mapM _ (run_order a w)) as [tss|]; [done|].
  destruct Hloop as (w' & Hr & _); [apply run_order_subseteq|].
  exists w'. by erewrite bind_raised.
Qed.

End MainLemmas.

Section RunEnds.

Variable unicode_alnum : N → bool.
Variable ucd_lookup : bytes → option N.

(** The ends a run can come to once it has found sources. *)
Lemma main_ends (a : args) (w : world) :
  rpy w ≠ [] →
  (run_names unicode_alnum a w = []
   ∧ main unicode_alnum ucd_lookup a w
     = Exit no_characters_message (after_names a w))
  ∨ (run_names unicode_alnum a w ≠ []
     ∧ run_dialogues unicode_alnum ucd_lookup a w = None
     ∧ ∃ w', main unicode_alnum ucd_lookup a w = Raised w')
  ∨ (∃ all_texts,
       run_names unicode_alnum a w ≠ []
       ∧ run_dialogues unicode_alnum ucd_lookup a w = Some all_texts
       ∧ ((unique_texts_of all_texts = []
           ∧ main unicode_alnum ucd_lookup a w
             = Exit no_dialogue_message
                 (logged (after_names a w)
                    (map DialogueScan (run_order a w))))
          ∨ (forallb encodable (unique_texts_of all_texts) = false
             ∧ ∃ w', main unicode_alnum ucd_lookup a w = Raised w')
          ∨ (unique_texts_of all_texts ≠ []
             ∧ forallb encodable (unique_texts_of all_texts) = true
             ∧ main unicode_alnum ucd_lookup a w
               = Ok () (World (elsewhere w) (rpy w)
                          (Some (deduplicate_rpt
                                   (default [] (template (after_screens a w))
                                    ++ concat
                                         (map (template_record
                                                 (fill_template a) [CR; NL])
                                            (unique_texts_of all_texts)))))
                          (log (after_names a w)
                           ++ map DialogueScan (run_order a w)
                           ++ [TemplateAppended; TemplateDeduplicated]))))).
Proof.
  intros Hw.
  destruct (decide (run_names unicode_alnum a w = [])) as [Hn|Hn].
  { left. split; [done|]. by apply main_no_characters. }
  right.
  destruct (run_dialogues unicode_alnum ucd_lookup a w) as [all_texts|]
    eqn:Hd.
  - right. exists all_texts. split_and!; [done..|].
    destruct (decide (unique_texts_of all_texts = [])) as [Hu|Hu].
    { left. split; [done|]. by apply (main_no_dialogue _ _ a w all_texts). }
    right.
    destruct (forallb encodable (unique_texts_of all_texts)) eqn:Henc.
    + right. split_and!; [done..|]. by apply (main_ok _ _ a w all_texts).
    + left. split; [done|]. by apply (main_write_raised _ _ a w all_texts).
  - left. split_and!; [done..|]. by apply main_raised.
Qed.

End RunEnds.

Lemma screens_template_records (fill : bool) (labels : list pystr) :
  screens_template fill labels
  = concat (map (template_record fill [NL])
              (labels ++ empty_slots
               ++ [py "Are you sure you want to quit?"]
               ++ joystick_lines)).
Proof.
  unfold screens_template.
  rewrite !map_app, !concat_app. do 2 f_equal.
  change (map ?f [?x]) with [f x].
  change (concat [?x]) with (x ++ []). by rewrite app_nil_r.
Qed.

(** What the first writer has put into the output file: nothing, or the
    records of the label texts and of the fixed texts. *)
Lemma first_writer_records (a : args) (w : world) :
  ∃ first,
    template (after_screens a w) = Some first
    ∧ (first = []
       ∨ ∃ labels,
           first
           = concat (map (template_record (fill_template a) [NL])
                       (labels ++ empty_slots
                        ++ [py "Are you sure you want to quit?"]
                        ++ joystick_lines))).
Proof.
  unfold after_screens. cbv zeta.
  destruct (file_at w _) as [text|]; cbn [template].
  - eexists. split; [done|]. right. eexists. apply screens_template_records.
  - eexists. split; [done|]. by left.
Qed.

(** C5: [quote] first doubles every backslash, then turns every newline
    into backslash-n, which leaves every other character as it is; and a
    record carries the transform on its source line and on its translation
    line (the empty translation being the transform of the empty text), in
    the first writer and in the second.  So it is in every run of [main]:
    what a run that ends normally has written before the deduplication is
    the records of the first writer, if any, each made so with newline
    line ends, and then one record made so for each unique text, with
    carriage return and newline; and what a run that ends by a fatal exit
    after finding sources has written is the records of the first
    writer. *)
Theorem C5_quote_escapes_backslash_then_newline :
  (∀ s, quote s = replace (replace s [BSL] [BSL; BSL]) [NL] [BSL; 110])
  ∧ (∀ s, replace s [BSL] [BSL; BSL]
          = flat_map (λ c, if c =? BSL then [BSL; BSL] else [c]) s)
  ∧ (∀ s, replace s [NL] [BSL; 110]
          = flat_map (λ c, if c =? NL then [BSL; 110] else [c]) s)
  ∧ (∀ s, quote s = flat_map escape_char s)
  ∧ (∀ fill eol orig,
       template_record fill eol orig
       = py "< " ++ quote orig ++ eol
         ++ py "> " ++ quote (if fill then orig else []) ++ eol ++ eol)
  ∧ (∀ fill labels,
       screens_template fill labels
       = concat (map (template_record fill [NL])
                   (labels ++ empty_slots
                    ++ [py "Are you sure you want to quit?"]
                    ++ joystick_lines)))
  ∧ (∀ (fill : bool) (texts : list pystr) (w : world) (old : pystr),
       template w = Some old →
       forallb encodable texts = true →
       for_each (λ (_ : unit) (orig : pystr),
                   let q_orig := quote orig in
                   let q_trans := if fill then quote orig else [] in
                   write_appended (py "< " ++ q_orig ++ [CR; NL]) ;;;
                   write_appended (py "> " ++ q_trans ++ [CR; NL; CR; NL]))
                () texts w
       = Ok () (World (elsewhere w) (rpy w)
                  (Some (old ++ concat (map (template_record fill [CR; NL])
                                          texts)))
                  (log w)))
  ∧ (∀ ua ucd a w w',
       main ua ucd a w = Ok () w' →
       ∃ first all_texts,
         run_dialogues ua ucd a w = Some all_texts
         ∧ (first = []
            ∨ ∃ labels,
                first
                = concat (map (template_record (fill_template a) [NL])
                            (labels ++ empty_slots
                             ++ [py "Are you sure you want to quit?"]
                             ++ joystick_lines)))
         ∧ template w'
           = Some (deduplicate_rpt
                     (first
                      ++ concat (map (template_record (fill_template a)
                                        [CR; NL])
                                   (unique_texts_of all_texts)))))
  ∧ (∀ ua ucd a w msg w',
       rpy w ≠ [] →
       main ua ucd a w = Exit msg w' →
       ∃ first,
         template w' = Some first
         ∧ (first = []
            ∨ ∃ labels,
                first
                = concat (map (template_record (fill_template a) [NL])
                            (labels ++ empty_slots
                             ++ [py "Are you sure you want to quit?"]
                             ++ joystick_lines)))).
Proof.
  split_and!.
  - done.
  - intros s. apply replace_one_char.
  - intros s. apply replace_one_char.
  - apply quote_flat_map.
  - intros fill eol orig. unfold template_record. cbv zeta.
    destruct fill; rewrite <- !app_assoc; done.
  - apply screens_template_records.
  - intros fill texts w old. apply write_loop_ok.
  - intros ua ucd a w w' Hmain.
    destruct (decide (rpy w = [])) as [Hw|Hw].
    { by rewrite main_no_sources in Hmain. }
    destruct (first_writer_records a w) as (first & Hfirst & Hshape).
    destruct (main_ends ua ucd a w Hw)
      as [[_ Hm]|[(_ & _ & w1 & Hm)|(all_texts & _ & Hd & Hcases)]];
      [by rewrite Hm in Hmain..|].
    destruct Hcases as [[_ Hm]|[(_ & w1 & Hm)|(_ & _ & Hm)]];
      [by rewrite Hm in Hmain..|].
    rewrite Hm in Hmain. injection Hmain as <-.
    exists first, all_texts. split_and!; [done..|].
    cbn [template]. by rewrite Hfirst.
  - intros ua ucd a w msg w' Hw Hmain.
    destruct (first_writer_records a w) as (first & Hfirst & Hshape).
    exists first. split; [|done].
    destruct (main_ends ua ucd a w Hw)
      as [[_ Hm]|[(_ & _ & w1 & Hm)|(all_texts & _ & Hd & Hcases)]].
    + rewrite Hm in Hmain. by injection Hmain as <- <-.
    + by rewrite Hm in Hmain.
    + destruct Hcases as [[_ Hm]|[(_ & w1 & Hm)|(_ & _ & Hm)]].
      * rewrite Hm in Hmain. by injection Hmain as <- <-.
      * by rewrite Hm in Hmain.
      * by rewrite Hm in Hmain.
Qed.

(** ** The matcher on text of a known shape *)

Lemma prev_after_cons (pv : option N) (c : N) (w : pystr) :
  prev_after (Some c) w = prev_after pv (c :: w).
Proof.
  unfold prev_after. destruct w as [|d w]; [done|].
  change (last (c :: d :: w)) with (last (d :: w)).
  destruct (last (d :: w)) eqn:Hl; [done|]. by apply last_None in Hl.
Qed.

Lemma rmatch_cls_stops (p : N → bool) (q : nat) (pv : option N) (r : pystr)
    (cs : gmap string pystr) (k : cursor → option cursor) :
  stops p r → rmatch (Cls p) (Cursor q pv r cs) k = None.
Proof. destruct r as [|c r]; simpl; [done|]. intros Hc. by rewrite Hc. Qed.

Lemma star_loop_cls_greedy (p : N → bool) (k : cursor → option cursor)
    (w : pystr) :
  ∀ (n q : nat) (pv : option N) (r : pystr) (cs : gmap string pystr) x,
    forallb p w = true → stops p r →
    (length (w ++ r) < n)%nat →
    k (Cursor (q + length w) (prev_after pv w) r cs) = Some x →
    star_loop (rmatch (Cls p)) true k n (Cursor q pv (w ++ r) cs) = Some x.
Proof.
  induction w as [|c w IH]; intros n q pv r cs x Hw Hr Hn Hk.
  - destruct n as [|n]; [simpl in Hn; lia|].
    cbn [star_loop app]. rewrite rmatch_cls_stops by done.
    simpl. by rewrite Nat.add_0_r in Hk.
  - destruct n as [|n]; [simpl in Hn; lia|].
    simpl in Hw. apply andb_true_iff in Hw as [Hc Hw].
    cbn [star_loop app rmatch rest pos caps]. rewrite Hc.
    cbn [rest length]. rewrite (proj2 (Nat.ltb_lt _ _)) by lia.
    erewrite IH; [done..| |].
    + simpl in Hn. lia.
    + rewrite prev_after_cons with (pv := pv).
      rewrite <- Hk. f_equal. f_equal. simpl. lia.
Qed.

Lemma rmatch_star_cls (p : N → bool) (k : cursor → option cursor)
    (w : pystr) (q : nat) (pv : option N) (r : pystr)
    (cs : gmap string pystr) x :
  forallb p w = true → stops p r →
  k (Cursor (q + length w) (prev_after pv w) r cs) = Some x →
  rmatch (Star true (Cls p)) (Cursor q pv (w ++ r) cs) k = Some x.
Proof.
  intros. cbn [rmatch rest]. apply star_loop_cls_greedy; [done..|lia|done].
Qed.

Lemma rmatch_plus_cls (p : N → bool) (k : cursor → option cursor)
    (w : pystr) (q : nat) (pv : option N) (r : pystr)
    (cs : gmap string pystr) x :
  w ≠ [] → forallb p w = true → stops p r →
  k (Cursor (q + length w) (prev_after pv w) r cs) = Some x →
  rmatch (Plus true (Cls p)) (Cursor q pv (w ++ r) cs) k = Some x.
Proof.
  intros Hne Hw Hr Hk. destruct w as [|c w]; [done|].
  simpl in Hw. apply andb_true_iff in Hw as [Hc Hw].
  unfold Plus. cbn [rmatch app rest pos caps]. rewrite Hc.
  apply star_loop_cls_greedy; [done..|lia|].
  rewrite prev_after_cons with (pv := pv).
  rewrite <- Hk. f_equal. f_equal. simpl. lia.
Qed.

Lemma rmatch_chr (c : N) (k : cursor → option cursor) (q : nat)
    (pv : option N) (r : pystr) (cs : gmap string pystr) :
  rmatch (Chr c) (Cursor q pv (c :: r) cs) k = k (Cursor (S q) (Some c) r cs).
Proof. unfold Chr. cbn [rmatch rest pos caps]. by rewrite N.eqb_refl. Qed.

Lemma rmatch_chr_ne (c : N) (k : cursor → option cursor) (q : nat)
    (pv : option N) (r : pystr) (cs : gmap string pystr) :
  stops (N.eqb c) r → rmatch (Chr c) (Cursor q pv r cs) k = None.
Proof. apply rmatch_cls_stops. Qed.

Lemma rmatch_lit (s : pystr) (k : cursor → option cursor) :
  ∀ (q : nat) (pv : option N) (r : pystr) (cs : gmap string pystr),
    rmatch (Lit s) (Cursor q pv (s ++ r) cs) k
    = k (Cursor (q + length s) (prev_after pv s) r cs).
Proof.
  induction s as [|c s IH]; intros q pv r cs.
  - simpl. by rewrite Nat.add_0_r.
  - cbn [Lit app]. change (rmatch (Seq ?a ?b) ?st ?k)
      with (rmatch a st (λ st', rmatch b st' k)).
    rewrite rmatch_chr, IH, prev_after_cons with (pv := pv).
    f_equal. f_equal. simpl. lia.
Qed.

(** A literal that is not a prefix of the text does not match. *)
Lemma rmatch_lit_none (s : pystr) (k : cursor → option cursor) :
  ∀ (q : nat) (pv : option N) (t : pystr) (cs : gmap string pystr),
    (∀ r, t ≠ s ++ r) → rmatch (Lit s) (Cursor q pv t cs) k = None.
Proof.
  induction s as [|c s IH]; intros q pv t cs Ht.
  - by destruct (Ht t).
  - cbn [Lit]. change (rmatch (Seq ?a ?b) ?st ?k)
      with (rmatch a st (λ st', rmatch b st' k)).
    destruct t as [|d t]; [done|].
    destruct (N.eqb_spec c d) as [->|Hcd].
    + rewrite rmatch_chr. apply IH. intros r ->. by apply (Ht r).
    + apply rmatch_chr_ne. simpl. by apply N.eqb_neq.
Qed.

Lemma take_group (q : nat) (w r : pystr) :
  take (q + length w - q) (w ++ r) = w.
Proof.
  replace (q + length w - q)%nat with (length w) by lia.
  by rewrite take_app_length.
Qed.

(** The first position of a scan. *)
Lemma finditer_from_here (r : regex) (p : nat) (pv : option N) (s : pystr)
    (m : rematch) :
  match_here r p pv s false = Some m → m_end m ≠ p →
  ∃ more, finditer_from r p pv s 0 = m :: more.
Proof.
  intros Hm He.
  assert (matches_here r p pv s = [m]) as Hf.
  { unfold matches_here. rewrite Hm.
    by rewrite (proj2 (Nat.eqb_neq _ _)). }
  destruct s; simpl; rewrite Hf; eauto.
Qed.

(** ** Matches take characters *)

Lemma or_else_some {A} (x y : option A) (v : A) :
  or_else x y = Some v → x = Some v ∨ y = Some v.
Proof. destruct x; simpl; auto. Qed.

Lemma star_loop_advances
    (body : cursor → (cursor → option cursor) → option cursor) (g : bool)
    (k : cursor → option cursor) :
  (∀ st k' x, body st k' = Some x →
              ∃ st', k' st' = Some x ∧ (pos st ≤ pos st')%nat) →
  ∀ n st x, star_loop body g k n st = Some x →
            ∃ st', k st' = Some x ∧ (pos st ≤ pos st')%nat.
Proof.
  intros Hbody. induction n as [|n IH]; intros st x; simpl.
  { intros Hk. by exists st. }
  intros Hx.
  assert (body st (λ st', if (length (rest st') <? length (rest st))%nat
                          then star_loop body g k n st' else None) = Some x
          ∨ k st = Some x) as [Hagain|Hk].
  { destruct g; apply or_else_some in Hx; tauto. }
  - apply Hbody in Hagain as (st1 & H1 & Hle).
    destruct (length (rest st1) <? length (rest st))%nat; [|done].
    apply IH in H1 as (st2 & H2 & Hle2). exists st2. split; [done|lia].
  - by exists st.
Qed.

(** A successful match hands a position at or after its own to what comes
    next. *)
Lemma rmatch_advances (r : regex) :
  ∀ st k x, rmatch r st k = Some x →
            ∃ st', k st' = Some x ∧ (pos st ≤ pos st')%nat.
Proof.
  induction r as [| |p|a IHa b IHb|a IHa b IHb|g a IHa|name a IHa];
    intros st k x; cbn [rmatch].
  - intros Hk. by exists st.
  - destruct (at_line_start st); [|done]. intros Hk. by exists st.
  - destruct (rest st) as [|c t]; [done|]. destruct (p c); [|done].
    intros Hk. eexists. split; [exact Hk|]. simpl. lia.
  - intros (st1 & H1 & Hle1)%IHa. apply IHb in H1 as (st2 & H2 & Hle2).
    exists st2. split; [done|lia].
  - intros [H|H]%or_else_some; [by apply IHa|by apply IHb].
  - apply star_loop_advances. exact IHa.
  - intros (st1 & H1 & Hle1)%IHa. eexists. split; [exact H1|]. done.
Qed.

Lemma rmatch_consumes (r : regex) :
  consumes r = true →
  ∀ st k x, rmatch r st k = Some x →
            ∃ st', k st' = Some x ∧ (pos st < pos st')%nat.
Proof.
  induction r as [| |p|a IHa b IHb|a IHa b IHb|g a IHa|name a IHa];
    cbn [consumes]; intros Hc st k x; try done; cbn [rmatch].
  - destruct (rest st) as [|c t]; [done|]. destruct (p c); [|done].
    intros Hk. eexists. split; [exact Hk|]. simpl. lia.
  - apply orb_true_iff in Hc as [Hc|Hc].
    + intros (st1 & H1 & Hlt)%(IHa Hc).
      apply rmatch_advances in H1 as (st2 & H2 & Hle).
      exists st2. split; [done|lia].
    + intros (st1 & H1 & Hle)%rmatch_advances.
      apply (IHb Hc) in H1 as (st2 & H2 & Hlt).
      exists st2. split; [done|lia].
  - apply andb_true_iff in Hc as [Ha Hb].
    intros [H|H]%or_else_some; [by apply IHa|by apply IHb].
  - intros (st1 & H1 & Hlt)%(IHa Hc). eexists. split; [exact H1|]. done.
Qed.

Lemma match_here_span (r : regex) (p : nat) (pv : option N) (s : pystr)
    (must : bool) (m : rematch) :
  consumes r = true →
  match_here r p pv s must = Some m →
  m_start m = p ∧ (p < m_end m)%nat.
Proof.
  intros Hc. unfold match_here.
  destruct (rmatch r _ _) as [x|] eqn:Hx; [|done].
  intros [= <-]. split; [done|]. simpl.
  apply (rmatch_consumes r Hc) in Hx as (st' & Hk & Hlt). simpl in *.
  destruct (must && (pos st' =? p)%nat); [done|].
  by injection Hk as <-.
Qed.

(** For a pattern that takes characters, the matches of a scan follow one
    another without overlap: each is non-empty and starts where the one
    before ended, or later. *)
Lemma finditer_from_disjoint (r : regex) (s : pystr) :
  consumes r = true →
  ∀ (p : nat) (pv : option N) (skip : nat),
    Forall (λ m, (p + skip ≤ m_start m)%nat ∧ (m_start m < m_end m)%nat)
           (finditer_from r p pv s skip)
    ∧ StronglySorted (λ a b, (m_end a ≤ m_start b)%nat)
        (finditer_from r p pv s skip).
Proof.
  intros Hc.
  assert (∀ p pv s skip,
            match skip with O => matches_here r p pv s | S _ => [] end = []
            ∨ ∃ m, skip = O
                   ∧ match skip with O => matches_here r p pv s | S _ => [] end
                     = [m]
                   ∧ m_start m = p ∧ (p < m_end m)%nat) as Hfound.
  { intros p pv s' [|skip]; [|by left]. unfold matches_here.
    destruct (match_here r p pv s' false) as [m|] eqn:Hm; [|by left].
    destruct (match_here_span r p pv s' false m Hc Hm) as [Hs He].
    right. exists m. rewrite (proj2 (Nat.eqb_neq _ _)) by lia. done. }
  induction s as [|c s IH]; intros p pv skip; cbn [finditer_from].
  - rewrite app_nil_r.
    destruct (Hfound p pv [] skip) as [->|(m & -> & -> & Hs & He)].
    + split; constructor.
    + split; repeat constructor; lia.
  - destruct (Hfound p pv (c :: s) skip) as [->|(m & -> & -> & Hs & He)].
    + cbn [last app].
      destruct (IH (S p) (Some c) (skip - 1)%nat) as [Hall Hsorted].
      split; [|done]. eapply Forall_impl; [exact Hall|].
      simpl. intros m [? ?]. split; lia.
    + cbn [last app].
      destruct (IH (S p) (Some c) (m_end m - p - 1)%nat) as [Hall Hsorted].
      split.
      * constructor; [lia|]. eapply Forall_impl; [exact Hall|].
        simpl. intros m' [? ?]. split; lia.
      * constructor; [done|]. eapply Forall_impl; [exact Hall|].
        simpl. intros m' [? ?]. lia.
Qed.

(** Where no match starts, the scan moves on. *)
Lemma finditer_from_unmatched (r : regex) (s1 s2 : pystr) :
  ∀ (p : nat) (pv : option N),
    (∀ a b, s1 = a ++ b → b ≠ [] →
            match_here r (p + length a) (prev_after pv a) (b ++ s2) false
            = None) →
    finditer_from r p pv (s1 ++ s2) 0
    = finditer_from r (p + length s1) (prev_after pv s1) s2 0.
Proof.
  induction s1 as [|c s1 IH]; intros p pv Hnone.
  { simpl. by rewrite Nat.add_0_r. }
  cbn [app finditer_from]. unfold matches_here.
  pose proof (Hnone [] (c :: s1) eq_refl) as H0.
  cbn [app length] in H0. rewrite Nat.add_0_r in H0.
  change (prev_after pv []) with pv in H0.
  rewrite H0 by done. cbn [last app Nat.sub].
  rewrite IH.
  - rewrite prev_after_cons with (pv := pv). f_equal. simpl. lia.
  - intros a b -> Hb. specialize (Hnone (c :: a) b eq_refl Hb).
    rewrite prev_after_cons with (pv := pv).
    rewrite <- Hnone. f_equal. simpl. lia.
Qed.

Lemma rmatch_seq (a b : regex) (st : cursor) (k : cursor → option cursor) :
  rmatch (Seq a b) st k = rmatch a st (λ st', rmatch b st' k).
Proof. done. Qed.

Lemma rmatch_grp (name : string) (a : regex) (st : cursor)
    (k : cursor → option cursor) :
  rmatch (Grp name a) st k = rmatch a st (λ st', k (set_group name st st')).
Proof. done. Qed.

Lemma rmatch_bol (st : cursor) (k : cursor → option cursor) :
  at_line_start st = true → rmatch Bol st k = k st.
Proof. simpl. by intros ->. Qed.

(** ** Menu choices *)

(** At the start of a line, a quoted text without a quote in it and a colon
    right after it are matched, whatever the indentation before and the
    text after; group 1 is the quoted text. *)
Lemma menu_choice_re_matches (p : nat) (pv : option N)
    (indent s post : pystr) :
  pv = None ∨ pv = Some NL →
  forallb is_space indent = true →
  s ≠ [] → forallb (not_in [DQ]) s = true →
  match_here menu_choice_re p pv (indent ++ DQ :: s ++ DQ :: 58 :: post) false
  = Some (ReMatch p (p + length indent + length s + 3) (<["1" := s]> ∅)).
Proof.
  intros Hbol Hind Hne Hs. unfold match_here.
  assert (rmatch menu_choice_re
            (Cursor p pv (indent ++ DQ :: s ++ DQ :: 58 :: post) ∅)
            (λ st', if false && (pos st' =? p)%nat then None else Some st')
          = Some (Cursor (p + length indent + length s + 3) (Some 58) post
                         (<["1" := s]> ∅))) as ->; [|done].
  unfold menu_choice_re.
  rewrite rmatch_seq, rmatch_bol by (by destruct Hbol as [->| ->]).
  rewrite rmatch_seq. apply rmatch_star_cls; [done..|].
  rewrite rmatch_seq, rmatch_chr, rmatch_seq, rmatch_grp.
  apply rmatch_plus_cls; [done..|].
  unfold set_group. cbn [pos prev rest caps]. rewrite take_group.
  rewrite rmatch_seq, rmatch_chr, rmatch_seq.
  apply (rmatch_star_cls is_space _ []); [done..|].
  rewrite rmatch_chr. cbn [andb]. do 2 f_equal. simpl. lia.
Qed.

Lemma group_insert (p e : nat) (name : string) (s : pystr)
    (groups : gmap string pystr) :
  group (ReMatch p e (<[name := s]> groups)) name = s.
Proof. unfold group. simpl. by rewrite lookup_insert_eq. Qed.

(** ** Single-line pattern at a triple-quoted block *)

Lemma or_else_none_r {A} (x : option A) : or_else x None = x.
Proof. by destruct x. Qed.

(** A repetition whose body cannot match goes on at once. *)
Lemma rmatch_star_stops (g : bool) (a : regex) (st : cursor)
    (k : cursor → option cursor) :
  (∀ k', rmatch a st k' = None) → rmatch (Star g a) st k = k st.
Proof.
  intros Ha. cbn [rmatch star_loop]. rewrite Ha.
  destruct g; simpl; [done|apply or_else_none_r].
Qed.

Lemma names_pattern_pick (names : list pystr) (name : pystr) (st : cursor)
    (k : cursor → option cursor) (x : cursor) :
  name ∈ names →
  (∀ n, n ∈ names → n ≠ name → rmatch (Lit n) st k = None) →
  rmatch (Lit name) st k = Some x →
  rmatch (names_pattern names) st k = Some x.
Proof.
  intros Hin Hothers Hname.
  induction names as [|n names IH]; [by apply elem_of_nil in Hin|].
  destruct names as [|n' names].
  { by apply list_elem_of_singleton in Hin as ->. }
  change (names_pattern (n :: n' :: names))
    with (Alt (Lit n) (names_pattern (n' :: names))).
  cbn [rmatch]. destruct (decide (n = name)) as [->|Hn].
  - by rewrite Hname.
  - rewrite (Hothers n) by (done || left). simpl. apply IH.
    + by apply elem_of_cons in Hin as [->|?].
    + intros; apply Hothers; [by right|done].
Qed.

(** After a name that is not the one written, no whitespace follows. *)
Lemma other_name_stops (n name : pystr) (g : N) (r more : pystr) :
  n ++ r = name ++ g :: more →
  forallb (λ c, negb (is_space c)) n = true →
  forallb (λ c, negb (is_space c)) name = true →
  is_space g = true → n ≠ name →
  stops is_space r.
Proof.
  revert name. induction n as [|a n IH]; intros name Heq Hn Hname Hg Hne.
  - destruct name as [|c name]; [done|]. simpl in *. subst r. simpl.
    apply andb_true_iff in Hname as [Hc _]. by apply negb_true_iff.
  - simpl in Hn. apply andb_true_iff in Hn as [Ha Hn].
    destruct name as [|c name]; simpl in Heq.
    + injection Heq as -> _. rewrite Hg in Ha. done.
    + injection Heq as -> Heq. simpl in Hname.
      apply andb_true_iff in Hname as [_ Hname].
      apply (IH name); [done..|]. by intros ->.
Qed.

Lemma single_re_at_triple_quote (names : list pystr) (name : pystr)
    (p : nat) (pv : option N) (indent gap tail : pystr) :
  pv = None ∨ pv = Some NL →
  name ∈ names → name ≠ [] →
  Forall (λ n, forallb (λ c, negb (is_space c)) n = true) names →
  forallb is_space indent = true →
  gap ≠ [] → forallb is_space gap = true →
  match_here (fst (build_patterns names)) p pv
    (indent ++ name ++ gap ++ DQ :: DQ :: DQ :: tail) false
  = Some (ReMatch p (p + length indent + length name + length gap + 2)
            (<["text" := []]> (<["char" := name]> ∅))).
Proof.
  intros Hbol Hin Hne Hnames Hind Hgne Hgap. unfold match_here.
  assert (rmatch (fst (build_patterns names))
            (Cursor p pv (indent ++ name ++ gap ++ DQ :: DQ :: DQ :: tail) ∅)
            (λ st', if false && (pos st' =? p)%nat then None else Some st')
          = Some (Cursor (p + length indent + length name + length gap + 2)
                    (Some DQ) (DQ :: tail)
                    (<["text" := []]> (<["char" := name]> ∅)))) as ->; [|done].
  assert (forallb (λ c, negb (is_space c)) name = true) as Hname.
  { rewrite Forall_forall in Hnames. by apply Hnames. }
  destruct gap as [|g gap]; [done|]. simpl in Hgap.
  apply andb_true_iff in Hgap as [Hg Hgap].
  cbn [build_patterns fst].
  rewrite rmatch_seq, rmatch_bol by (by destruct Hbol as [->| ->]).
  rewrite rmatch_seq. apply rmatch_star_cls; [done| |].
  { destruct name as [|c name]; [done|]. simpl in *.
    apply andb_true_iff in Hname as [Hc _]. by apply negb_true_iff. }
  rewrite rmatch_seq, rmatch_grp.
  apply names_pattern_pick with (name := name); [done| |].
  - intros n Hn Hnn.
    destruct (decide (n `prefix_of` name ++ (g :: gap) ++ DQ :: DQ :: DQ :: tail))
      as [[r Hr]|Hnp].
    + rewrite Hr, rmatch_lit. rewrite rmatch_seq. unfold Plus.
      rewrite rmatch_seq. apply rmatch_cls_stops.
      apply (other_name_stops n name g r (gap ++ DQ :: DQ :: DQ :: tail));
        [done| |done..].
      rewrite Forall_forall in Hnames. by apply Hnames.
    + apply rmatch_lit_none. intros r Hr. apply Hnp. by exists r.
  - rewrite rmatch_lit. unfold set_group. cbn [pos prev rest caps].
    rewrite take_group, rmatch_seq.
    apply (rmatch_plus_cls is_space _ (g :: gap)); [done| |done|].
    { simpl. by rewrite Hg, Hgap. }
    rewrite rmatch_seq, rmatch_chr, rmatch_seq, rmatch_grp.
    rewrite rmatch_star_stops.
    + unfold set_group. cbn [pos prev rest caps].
      rewrite Nat.sub_diag, take_0, rmatch_chr. cbn [andb].
      do 2 f_equal. simpl. lia.
    + intros k'. done.
Qed.

(** ** Texts given to the writer *)

Lemma unique_texts_of_elem (all_texts : list pystr) (t : pystr) :
  t ∈ unique_texts_of all_texts ↔ t ∈ all_texts ∧ t ≠ [].
Proof.
  rewrite unique_texts_of_spec, first_occurrences_elem, list_elem_of_filter.
  naive_solver.
Qed.

(** C10: the texts the extraction-phase writer is given are those extracted
    texts that are not empty, so none of them is empty; the template a
    completed run leaves is written from these texts; and at a line start
    where a known name, whitespace and a triple quote stand, the single-line
    pattern matches with an empty body, which gives the empty text that is
    dropped; it is the first match of the scan of a source that starts
    so. *)
Theorem C10_writer_gets_no_empty_text :
  (∀ all_texts t,
     t ∈ unique_texts_of all_texts ↔ t ∈ all_texts ∧ t ≠ [])
  ∧ (∀ ua ucd a w w',
       main ua ucd a w = Ok () w' →
       ∃ all_texts,
         run_dialogues ua ucd a w = Some all_texts
         ∧ Forall (λ t, t ≠ []) (unique_texts_of all_texts)
         ∧ template w'
           = Some (deduplicate_rpt
                     (default [] (template (after_screens a w))
                      ++ concat (map (template_record (fill_template a) [CR; NL])
                                   (unique_texts_of all_texts)))))
  ∧ (∀ ucd names name p pv indent gap tail,
       pv = None ∨ pv = Some NL →
       name ∈ names → name ≠ [] →
       Forall (λ n, forallb (λ c, negb (is_space c)) n = true) names →
       forallb is_space indent = true →
       gap ≠ [] → forallb is_space gap = true →
       ∃ m, match_here (fst (build_patterns names)) p pv
              (indent ++ name ++ gap ++ DQ :: DQ :: DQ :: tail) false = Some m
            ∧ group m "text" = []
            ∧ strip <$> unescape ucd (group m "text") = Some []
            ∧ [] ∉ unique_texts_of [[]])
  ∧ (∀ names name indent gap tail,
       name ∈ names → name ≠ [] →
       Forall (λ n, forallb (λ c, negb (is_space c)) n = true) names →
       forallb is_space indent = true →
       gap ≠ [] → forallb is_space gap = true →
       ∃ m more,
         finditer (fst (build_patterns names))
           (indent ++ name ++ gap ++ DQ :: DQ :: DQ :: tail)
         = m :: more
         ∧ group m "text" = []).
Proof.
  split_and!.
  - apply unique_texts_of_elem.
  - intros ua ucd a w w' Hmain.
    destruct (decide (rpy w = [])) as [Hw|Hw].
    { by rewrite main_no_sources in Hmain. }
    destruct (decide (run_names ua a w = [])) as [Hn|Hn].
    { by rewrite main_no_characters in Hmain. }
    destruct (run_dialogues ua ucd a w) as [all_texts|] eqn:Hd.
    + destruct (decide (unique_texts_of all_texts = [])) as [Hu|Hu].
      { by rewrite (main_no_dialogue _ _ _ _ all_texts) in Hmain. }
      destruct (forallb encodable (unique_texts_of all_texts)) eqn:Henc.
      * rewrite (main_ok _ _ _ _ all_texts) in Hmain by done.
        injection Hmain as <-. exists all_texts. split_and!; [done| |done].
        apply Forall_forall. intros t Ht.
        by apply unique_texts_of_elem in Ht as [_ ?].
      * destruct (main_write_raised ua ucd a w all_texts) as [w'' Hr];
          [done..|]. by rewrite Hr in Hmain.
    + destruct (main_raised ua ucd a w) as [w'' Hr]; [done..|].
      by rewrite Hr in Hmain.
  - intros ucd names name p pv indent gap tail Hbol Hin Hne Hnames Hind Hg Hgap.
    eexists. split; [by apply single_re_at_triple_quote|].
    rewrite group_insert.
    split_and!; [done..|]. intros [_ ?]%unique_texts_of_elem. done.
  - intros names name indent gap tail Hin Hne Hnames Hind Hg Hgap.
    destruct (finditer_from_here (fst (build_patterns names)) 0 None
                (indent ++ name ++ gap ++ DQ :: DQ :: DQ :: tail)
                (ReMatch 0 (0 + length indent + length name + length gap + 2)
                   (<["text" := []]> (<["char" := name]> ∅))))
      as [more Hmore].
    { apply single_re_at_triple_quote; try done. by left. }
    { simpl. lia. }
    eexists _, more. split; [exact Hmore|]. by rewrite group_insert.
Qed.

(** ** Multi-line blocks *)

Lemma drop_while_take_while {A} (p : A → bool) (l : list A) :
  take_while p l ++ drop_while p l = l.
Proof.
  induction l as [|x l IH]; simpl; [done|].
  destruct (p x); simpl; by f_equal.
Qed.

Lemma take_while_all {A} (p : A → bool) (l : list A) :
  forallb p (take_while p l) = true.
Proof.
  induction l as [|x l IH]; simpl; [done|].
  destruct (p x) eqn:E; simpl; [by rewrite E|done].
Qed.

Lemma drop_while_stops (p : N → bool) (l : pystr) : stops p (drop_while p l).
Proof. induction l as [|x l IH]; simpl; [done|]. by destruct (p x) eqn:E. Qed.

Lemma drop_while_idemp {A} (p : A → bool) (l : list A) :
  drop_while p (drop_while p l) = drop_while p l.
Proof.
  induction l as [|x l IH]; simpl; [done|].
  destruct (p x) eqn:E; [done|]. simpl. by rewrite E.
Qed.

(** [rstrip] takes a run of whitespace off the end and nothing else. *)
Lemma rstrip_spec (l : pystr) :
  ∃ trail, l = rstrip l ++ trail
           ∧ forallb is_space trail = true
           ∧ match last (rstrip l) with
             | Some c => is_space c = false
             | None => True
             end.
Proof.
  unfold rstrip. exists (rev (take_while is_space (rev l))). split_and!.
  - rewrite <- rev_app_distr, drop_while_take_while. by rewrite rev_involutive.
  - rewrite forallb_forall. intros c Hc%in_rev.
    pose proof (take_while_all is_space (rev l)) as Ha.
    rewrite forallb_forall in Ha. by apply Ha.
  - pose proof (drop_while_stops is_space (rev l)) as Hs.
    destruct (drop_while is_space (rev l)) as [|c t]; [done|].
    simpl. by rewrite last_snoc.
Qed.

Lemma rstrip_idemp (l : pystr) : rstrip (rstrip l) = rstrip l.
Proof. unfold rstrip. by rewrite rev_involutive, drop_while_idemp. Qed.

Lemma strip_rstrip (l : pystr) : strip (rstrip l) = strip l.
Proof. unfold strip. by rewrite rstrip_idemp. Qed.

Lemma drop_while_sublist {A} (p : A → bool) (l : list A) :
  drop_while p l `sublist_of` l.
Proof.
  induction l as [|x l IH]; simpl; [done|].
  destruct (p x); [by apply sublist_cons|done].
Qed.

Lemma sublist_rev {A} (l1 l2 : list A) :
  l1 `sublist_of` l2 → rev l1 `sublist_of` rev l2.
Proof.
  induction 1 as [|x l1 l2 _ IH|x l1 l2 _ IH]; simpl; [done| |].
  - by apply sublist_app.
  - by apply sublist_inserts_r.
Qed.

Lemma strip_sublist (l : pystr) : strip l `sublist_of` l.
Proof.
  unfold strip, lstrip, rstrip. etrans; [apply drop_while_sublist|].
  rewrite <- (rev_involutive l) at 2.
  apply sublist_rev, drop_while_sublist.
Qed.

Lemma splitlines_from_no_break (s cur : pystr) :
  forallb (λ c, negb (is_linebreak c)) cur = true →
  Forall (λ l, forallb (λ c, negb (is_linebreak c)) l = true)
         (splitlines_from cur s).
Proof.
  assert (∀ n s cur,
            (length s ≤ n)%nat →
            forallb (λ c, negb (is_linebreak c)) cur = true →
            Forall (λ l, forallb (λ c, negb (is_linebreak c)) l = true)
                   (splitlines_from cur s)) as H; [|by apply (H (length s))].
  clear. induction n as [|n IH]; intros s cur Hn Hcur.
  { destruct s; [|simpl in Hn; lia]. destruct cur; repeat constructor. done. }
  destruct s as [|c t]; simpl.
  { destruct cur; repeat constructor. done. }
  simpl in Hn. destruct (is_linebreak c) eqn:Hc.
  - destruct t as [|d t'].
    + by repeat constructor.
    + simpl in Hn.
      destruct ((c =? CR) && (d =? NL)); constructor; try done;
        apply IH; simpl; (lia || done).
  - apply IH; [lia|]. rewrite forallb_app. simpl.
    by rewrite Hcur, Hc.
Qed.

(** ** Multi-line pattern at a block of one line *)

Lemma star_loop_cls_back (p : N → bool) (k : cursor → option cursor)
    (w : pystr) :
  ∀ (n q : nat) (pv : option N) (r : pystr) (cs : gmap string pystr),
    forallb p w = true → stops p r →
    (length (w ++ r) < n)%nat →
    star_loop (rmatch (Cls p)) true k n (Cursor q pv (w ++ r) cs)
    = greedy_back k q pv w r cs.
Proof.
  induction w as [|c w IH]; intros n q pv r cs Hw Hr Hn.
  - destruct n as [|n]; [simpl in Hn; lia|].
    cbn [star_loop app greedy_back]. by rewrite rmatch_cls_stops.
  - destruct n as [|n]; [simpl in Hn; lia|].
    simpl in Hw. apply andb_true_iff in Hw as [Hc Hw].
    cbn [star_loop app rmatch rest pos caps greedy_back]. rewrite Hc.
    cbn [rest length]. rewrite (proj2 (Nat.ltb_lt _ _)) by lia.
    rewrite IH; [done..|]. simpl in Hn. lia.
Qed.

Lemma rmatch_star_cls_back (p : N → bool) (k : cursor → option cursor)
    (w : pystr) (q : nat) (pv : option N) (r : pystr)
    (cs : gmap string pystr) :
  forallb p w = true → stops p r →
  rmatch (Star true (Cls p)) (Cursor q pv (w ++ r) cs) k
  = greedy_back k q pv w r cs.
Proof.
  intros. cbn [rmatch rest]. apply star_loop_cls_back; [done..|lia].
Qed.

(** When what follows fails after every part of the run, the run fails. *)
Lemma greedy_back_none (k : cursor → option cursor) (w : pystr) :
  ∀ (q : nat) (pv : option N) (r : pystr) (cs : gmap string pystr),
    (∀ a b, w = a ++ b →
            k (Cursor (q + length a) (prev_after pv a) (b ++ r) cs) = None) →
    greedy_back k q pv w r cs = None.
Proof.
  induction w as [|c w IH]; intros q pv r cs Hk.
  - simpl. specialize (Hk [] [] eq_refl). simpl in Hk.
    by rewrite Nat.add_0_r in Hk.
  - cbn [greedy_back]. rewrite IH.
    + simpl. specialize (Hk [] (c :: w) eq_refl). simpl in Hk.
      by rewrite Nat.add_0_r in Hk.
    + intros a b ->. specialize (Hk (c :: a) b eq_refl).
      rewrite prev_after_cons with (pv := pv). rewrite <- Hk.
      f_equal. f_equal. simpl. lia.
Qed.

(** When what follows fails after every non-empty part of the run, it is
    tried with nothing of the run taken. *)
Lemma greedy_back_first (k : cursor → option cursor) (w : pystr)
    (q : nat) (pv : option N) (r : pystr) (cs : gmap string pystr) :
  (∀ a b, w = a ++ b → a ≠ [] →
          k (Cursor (q + length a) (prev_after pv a) (b ++ r) cs) = None) →
  greedy_back k q pv w r cs = k (Cursor q pv (w ++ r) cs).
Proof.
  intros Hk. destruct w as [|c w]; [done|]. cbn [greedy_back].
  rewrite greedy_back_none; [done|].
  intros a b ->. specialize (Hk (c :: a) b eq_refl).
  rewrite prev_after_cons with (pv := pv). rewrite <- Hk by done.
  f_equal. f_equal. simpl. lia.
Qed.

Lemma star_loop_lazy_any (k : cursor → option cursor) (s : pystr) :
  ∀ (n q : nat) (pv : option N) (cs : gmap string pystr),
    (length s < n)%nat →
    star_loop (rmatch (Cls any_char)) false k n (Cursor q pv s cs)
    = lazy_any k q pv s cs.
Proof.
  induction s as [|c s IH]; intros n q pv cs Hn.
  - destruct n as [|n]; [simpl in Hn; lia|]. done.
  - destruct n as [|n]; [simpl in Hn; lia|].
    cbn [star_loop rmatch rest pos caps lazy_any any_char].
    cbn [rest length]. rewrite (proj2 (Nat.ltb_lt _ _)) by lia.
    rewrite IH; [done|]. simpl in Hn. lia.
Qed.

Lemma rmatch_lazy_any (k : cursor → option cursor) (s : pystr) (q : nat)
    (pv : option N) (cs : gmap string pystr) :
  rmatch (Star false (Cls any_char)) (Cursor q pv s cs) k
  = lazy_any k q pv s cs.
Proof. cbn [rmatch rest]. apply star_loop_lazy_any. lia. Qed.

(** A lazy run stops at the first place where what follows succeeds. *)
Lemma lazy_any_first (k : cursor → option cursor) (body : pystr) :
  ∀ (q : nat) (pv : option N) (r : pystr) (cs : gmap string pystr) x,
    (∀ a b, body = a ++ b → b ≠ [] →
            k (Cursor (q + length a) (prev_after pv a) (b ++ r) cs) = None) →
    k (Cursor (q + length body) (prev_after pv body) r cs) = Some x →
    lazy_any k q pv (body ++ r) cs = Some x.
Proof.
  induction body as [|c body IH]; intros q pv r cs x Hnone Hk.
  - cbn [length] in Hk. rewrite Nat.add_0_r in Hk.
    change (prev_after pv []) with pv in Hk.
    destruct r; simpl; by rewrite Hk.
  - cbn [app lazy_any].
    pose proof (Hnone [] (c :: body) eq_refl) as H0.
    cbn [app length] in H0. rewrite Nat.add_0_r in H0.
    change (prev_after pv []) with pv in H0. rewrite H0 by done.
    simpl. apply IH.
    + intros a b -> Hb. specialize (Hnone (c :: a) b eq_refl Hb).
      rewrite prev_after_cons with (pv := pv). rewrite <- Hnone.
      f_equal. f_equal. simpl. lia.
    + rewrite prev_after_cons with (pv := pv). rewrite <- Hk.
      f_equal. f_equal. simpl. lia.
Qed.

Lemma rmatch_quote_lit_none (lit t : pystr) (q : nat) (pv : option N)
    (cs : gmap string pystr) (k : cursor → option cursor) :
  stops (N.eqb DQ) t →
  rmatch (Lit (DQ :: lit)) (Cursor q pv t cs) k = None.
Proof.
  intros Ht. cbn [Lit]. rewrite rmatch_seq. by apply rmatch_chr_ne.
Qed.

(** Whitespace and then a quote cannot be matched where, after any
    whitespace, something else than a quote stands. *)
Lemma rmatch_ws_quote_none (lit t : pystr) (q : nat) (pv : option N)
    (cs : gmap string pystr) (k : cursor → option cursor) :
  (∀ a b, t = a ++ b → forallb is_space a = true → stops (N.eqb DQ) b) →
  rmatch (Seq (Star true ws) (Lit (DQ :: lit))) (Cursor q pv t cs) k = None.
Proof.
  intros Ht. rewrite rmatch_seq. unfold ws.
  rewrite <- (drop_while_take_while is_space t).
  rewrite rmatch_star_cls_back;
    [|apply take_while_all|apply drop_while_stops].
  apply greedy_back_none. intros a b Hab.
  apply rmatch_quote_lit_none, (Ht a (b ++ drop_while is_space t)).
  - rewrite app_assoc, <- Hab. symmetry. apply drop_while_take_while.
  - pose proof (take_while_all is_space t) as Hall.
    rewrite Hab, forallb_app in Hall. by apply andb_true_iff in Hall as [? _].
Qed.

Lemma stops_app_in (p : N → bool) (x y : pystr) :
  x ≠ [] → (∀ c, c ∈ x → p c = false) → stops p (x ++ y).
Proof.
  intros Hne Hx. destruct x as [|c x]; [done|]. simpl. apply Hx. left.
Qed.

(** After whitespace taken from the front of a text that ends in a
    character that is not whitespace, a character of that text stands. *)
Lemma ws_prefix_stops (p : N → bool) (cl : N) (b0 r : pystr) :
  ∀ a b,
    a ++ b = b0 ++ cl :: r →
    forallb is_space a = true → is_space cl = false →
    (∀ c, c ∈ b0 ++ [cl] → p c = false) →
    stops p b.
Proof.
  induction b0 as [|y b0 IH]; intros a b Hab Ha Hcl Hp.
  - destruct a as [|x a].
    + simpl in Hab. subst b. simpl. apply Hp. left.
    + simpl in Hab. injection Hab as -> _. simpl in Ha.
      rewrite Hcl in Ha. done.
  - destruct a as [|x a].
    + simpl in Hab. subst b. simpl. apply Hp. left.
    + simpl in Hab. injection Hab as -> Hab. simpl in Ha.
      apply andb_true_iff in Ha as [_ Ha].
      apply (IH a b Hab Ha Hcl). intros c Hc. apply Hp. by right.
Qed.

Lemma suffix_of_snoc (x a b : pystr) (cl : N) :
  x ++ [cl] = a ++ b → b ≠ [] → ∃ b0, b = b0 ++ [cl] ∧ x = a ++ b0.
Proof.
  intros Heq Hb. destruct b as [|c b _] using rev_ind; [done|].
  rewrite app_assoc in Heq. apply app_inj_tail in Heq as [-> ->]. eauto.
Qed.

Lemma multi_re_at_one_line_block (names : list pystr) (name : pystr)
    (p : nat) (pv : option N) (indent gap lead core trail tail : pystr)
    (cl : N) :
  pv = None ∨ pv = Some NL →
  name ∈ names → name ≠ [] →
  Forall (λ n, forallb (λ c, negb (is_space c)) n = true) names →
  forallb is_space indent = true →
  gap ≠ [] → forallb is_space gap = true →
  forallb is_space lead = true → forallb is_space trail = true →
  stops is_space (core ++ [cl]) → is_space cl = false →
  (∀ c, c ∈ lead ++ core ++ [cl] → c ≠ DQ ∧ c ≠ NL) →
  match_here (snd (build_patterns names)) p pv
    (indent ++ name ++ gap ++ [DQ; DQ; DQ]
     ++ NL :: (lead ++ core ++ [cl] ++ trail) ++ NL :: [DQ; DQ; DQ] ++ tail)
    false
  = Some (ReMatch p
            (p + length indent + length name + length gap + 3 + 1
             + length (lead ++ core ++ [cl] ++ trail) + 1 + 3)
            (<["text" := lead ++ core ++ [cl]]> (<["char" := name]> ∅))).
Proof.
  intros Hbol Hin Hne Hnames Hind Hgne Hgap Hlead Htrail Hcore Hcl Hline.
  unfold match_here.
  assert (rmatch (snd (build_patterns names))
            (Cursor p pv
               (indent ++ name ++ gap ++ [DQ; DQ; DQ]
                ++ NL :: (lead ++ core ++ [cl] ++ trail)
                ++ NL :: [DQ; DQ; DQ] ++ tail) ∅)
            (λ st', if false && (pos st' =? p)%nat then None else Some st')
          = Some (Cursor
                    (p + length indent + length name + length gap + 3 + 1
                     + length (lead ++ core ++ [cl] ++ trail) + 1 + 3)
                    (Some DQ) tail
                    (<["text" := lead ++ core ++ [cl]]>
                       (<["char" := name]> ∅)))) as ->; [|done].
  assert (forallb (λ c, negb (is_space c)) name = true) as Hname.
  { rewrite Forall_forall in Hnames. by apply Hnames. }
  destruct gap as [|g gap]; [done|]. simpl in Hgap.
  apply andb_true_iff in Hgap as [Hg Hgap].
  cbn [build_patterns snd].
  rewrite rmatch_seq, rmatch_bol by (by destruct Hbol as [->| ->]).
  rewrite rmatch_seq. apply rmatch_star_cls; [done| |].
  { destruct name as [|c name]; [done|]. simpl in *.
    apply andb_true_iff in Hname as [Hc _]. by apply negb_true_iff. }
  rewrite rmatch_seq, rmatch_grp.
  apply names_pattern_pick with (name := name); [done| |].
  { intros n Hn Hnn.
    destruct (decide (n `prefix_of`
                        name ++ (g :: gap) ++ [DQ; DQ; DQ]
                        ++ NL :: (lead ++ core ++ [cl] ++ trail)
                        ++ NL :: [DQ; DQ; DQ] ++ tail))
      as [[r Hr]|Hnp].
    - rewrite Hr, rmatch_lit. rewrite rmatch_seq. unfold Plus.
      rewrite rmatch_seq. apply rmatch_cls_stops.
      eapply (other_name_stops n name g r); [symmetry; exact Hr| |done..].
      rewrite Forall_forall in Hnames. by apply Hnames.
    - apply rmatch_lit_none. intros r Hr. apply Hnp. by exists r. }
  rewrite rmatch_lit. unfold set_group. cbn [pos prev rest caps].
  rewrite take_group, rmatch_seq.
  apply (rmatch_plus_cls is_space _ (g :: gap)); [done| |done|].
  { simpl. by rewrite Hg, Hgap. }
  rewrite rmatch_seq, (rmatch_lit [DQ; DQ; DQ]), rmatch_seq.
  (* whitespace after the opening: back to the newline *)
  unfold ws.
  replace (NL :: (lead ++ core ++ [cl] ++ trail) ++ NL :: [DQ; DQ; DQ] ++ tail)
    with ((NL :: lead)
          ++ (core ++ [cl]) ++ trail ++ NL :: [DQ; DQ; DQ] ++ tail)
    by (by rewrite <- !app_assoc).
  rewrite rmatch_star_cls_back; [|by simpl; rewrite Hlead| ].
  2:{ destruct core; simpl in *; done. }
  rewrite greedy_back_first.
  2:{ intros a b Hab Ha. rewrite rmatch_seq. apply rmatch_chr_ne.
      destruct a as [|x a]; [done|]. injection Hab as Hx Hl. subst x lead.
      rewrite app_assoc. apply stops_app_in.
      - by destruct b, core.
      - intros c Hc. apply N.eqb_neq. intros <-.
        destruct (Hline NL) as [_ Hn]; [|done].
        rewrite !elem_of_app in *. tauto. }
  cbn [app]. rewrite rmatch_seq, rmatch_chr, rmatch_seq, rmatch_grp.
  rewrite rmatch_lazy_any.
  rewrite (app_assoc lead (core ++ [cl])).
  apply lazy_any_first.
  - intros a b Hab Hb. unfold set_group. cbn [pos prev rest caps].
    rewrite app_assoc in Hab.
    apply suffix_of_snoc in Hab as (b0 & -> & Hx); [|done].
    apply rmatch_ws_quote_none. intros a' b' Hab' Ha'.
    rewrite <- !app_assoc in Hab'. cbn [app] in Hab'.
    apply (ws_prefix_stops (N.eqb DQ) cl b0
             (trail ++ NL :: [DQ; DQ; DQ] ++ tail) a' b');
      [done..|].
    intros c Hc. apply N.eqb_neq. intros <-.
    destruct (Hline DQ) as [Hq _]; [|done].
    rewrite app_assoc, Hx, <- app_assoc. rewrite !elem_of_app in *. tauto.
  - unfold set_group. cbn [pos prev rest caps]. rewrite take_group.
    rewrite rmatch_seq.
    change (trail ++ NL :: ?x) with (trail ++ [NL] ++ x).
    rewrite (app_assoc trail [NL]).
    apply rmatch_star_cls;
      [by rewrite forallb_app, Htrail|done|].
    change (DQ :: DQ :: DQ :: tail) with ([DQ; DQ; DQ] ++ tail).
    rewrite (rmatch_lit [DQ; DQ; DQ]). cbn [andb].
    f_equal. f_equal. rewrite !length_app. simpl. lia.
Qed.

Lemma drop_while_app_all {A} (p : A → bool) (a b : list A) :
  forallb p a = true → drop_while p (a ++ b) = drop_while p b.
Proof.
  induction a as [|x a IH]; [done|]. simpl.
  intros [Hx Ha]%andb_true_iff. rewrite Hx. by apply IH.
Qed.

Lemma drop_while_stopped (p : N → bool) (b : pystr) :
  stops p b → drop_while p b = b.
Proof. destruct b as [|c b]; [done|]. simpl. by intros ->. Qed.

(** Trimming takes the whitespace off both ends of a text whose ends are
    marked. *)
Lemma strip_marked (lead core trail : pystr) (cl : N) :
  forallb is_space lead = true → forallb is_space trail = true →
  stops is_space (core ++ [cl]) → is_space cl = false →
  rstrip (lead ++ core ++ [cl] ++ trail) = lead ++ core ++ [cl]
  ∧ strip (lead ++ core ++ [cl] ++ trail) = core ++ [cl]
  ∧ strip (lead ++ core ++ [cl]) = core ++ [cl].
Proof.
  intros Hlead Htrail Hcore Hcl.
  assert (∀ x t, forallb is_space t = true →
                 rstrip (x ++ [cl] ++ t) = x ++ [cl]) as Hr.
  { intros x t Ht. unfold rstrip.
    rewrite !rev_app_distr, <- app_assoc. simpl.
    rewrite drop_while_app_all.
    - simpl. rewrite Hcl. simpl. by rewrite rev_involutive.
    - rewrite forallb_forall in *. intros c Hc%in_rev. by apply Ht. }
  assert (rstrip (lead ++ core ++ [cl] ++ trail) = lead ++ core ++ [cl])
    as Hr1.
  { rewrite !app_assoc, <- (app_assoc (lead ++ core)).
    rewrite Hr by done. by rewrite <- app_assoc. }
  assert (lstrip (lead ++ core ++ [cl]) = core ++ [cl]) as Hl.
  { unfold lstrip. rewrite drop_while_app_all by done.
    by apply drop_while_stopped. }
  split_and!; [done| |].
  - unfold strip. by rewrite Hr1.
  - unfold strip.
    rewrite <- (app_nil_r (lead ++ core ++ [cl])) at 1.
    rewrite !app_assoc, <- (app_assoc (lead ++ core)), Hr by done.
    by rewrite <- app_assoc.
Qed.

Lemma splitlines_from_plain (s cur : pystr) :
  forallb (λ c, negb (is_linebreak c)) s = true → cur ++ s ≠ [] →
  splitlines_from cur s = [cur ++ s].
Proof.
  revert cur. induction s as [|c s IH]; intros cur Hs Hne.
  - simpl. rewrite app_nil_r in *. by destruct cur.
  - simpl in Hs. apply andb_true_iff in Hs as [Hc Hs].
    apply negb_true_iff in Hc. cbn [splitlines_from]. rewrite Hc.
    rewrite IH; [by rewrite <- app_assoc|done|]. by destruct cur.
Qed.

(** C8, as the code has it: the text of a matched multi-line block comes
    from the body between the delimiters by splitting it at every line
    boundary that [str.splitlines] knows (newline, carriage return,
    vertical tab, form feed, the file, group and record separators, next
    line, line separator and paragraph separator), taking the whitespace
    off the end of each piece and nothing else, joining the pieces with
    one newline and trimming the whole; a body that splits into one piece
    gives that piece trimmed, with no newline in it, and a body without
    any of these boundary characters is such a body.  And where a known
    name, whitespace, a triple quote, a newline, one line without a quote
    and without a boundary character in it, a newline and a triple quote
    stand at a line start, the pattern matches and the text is that line
    trimmed. *)
Theorem C8_multi_line_block_text :
  (∀ multi_re content,
     multi_line_texts multi_re content
     = map (λ m, strip (join [NL] (map rstrip (splitlines (group m "text")))))
           (finditer multi_re content))
  ∧ (∀ line, ∃ trail,
       line = rstrip line ++ trail
       ∧ forallb is_space trail = true
       ∧ match last (rstrip line) with
         | Some c => is_space c = false
         | None => True
         end)
  ∧ (∀ raw line,
       splitlines raw = [line] →
       multi_line_text raw = strip line ∧ NL ∉ multi_line_text raw)
  ∧ (∀ names name p pv indent gap lead core cl trail tail,
       pv = None ∨ pv = Some NL →
       name ∈ names → name ≠ [] →
       Forall (λ n, forallb (λ c, negb (is_space c)) n = true) names →
       forallb is_space indent = true →
       gap ≠ [] → forallb is_space gap = true →
       forallb is_space lead = true → forallb is_space trail = true →
       stops is_space (core ++ [cl]) → is_space cl = false →
       (∀ c, c ∈ lead ++ core ++ [cl] → c ≠ DQ ∧ is_linebreak c = false) →
       ∃ m, match_here (snd (build_patterns names)) p pv
              (indent ++ name ++ gap ++ [DQ; DQ; DQ]
               ++ NL :: (lead ++ core ++ [cl] ++ trail)
               ++ NL :: [DQ; DQ; DQ] ++ tail) false = Some m
            ∧ multi_line_text (group m "text")
              = strip (lead ++ core ++ [cl] ++ trail)
            ∧ NL ∉ multi_line_text (group m "text"))
  ∧ (∀ names name indent gap lead core cl trail tail,
       name ∈ names → name ≠ [] →
       Forall (λ n, forallb (λ c, negb (is_space c)) n = true) names →
       forallb is_space indent = true →
       gap ≠ [] → forallb is_space gap = true →
       forallb is_space lead = true → forallb is_space trail = true →
       stops is_space (core ++ [cl]) → is_space cl = false →
       (∀ c, c ∈ lead ++ core ++ [cl] → c ≠ DQ ∧ is_linebreak c = false) →
       ∃ more,
         multi_line_texts (snd (build_patterns names))
           (indent ++ name ++ gap ++ [DQ; DQ; DQ]
            ++ NL :: (lead ++ core ++ [cl] ++ trail)
            ++ NL :: [DQ; DQ; DQ] ++ tail)
         = strip (lead ++ core ++ [cl] ++ trail) :: more)
  ∧ (∀ raw,
       forallb (λ c, negb (is_linebreak c)) raw = true →
       multi_line_text raw = strip raw ∧ NL ∉ multi_line_text raw)
  ∧ (∀ c, is_linebreak c = true
          ↔ c = 10 ∨ c = 11 ∨ c = 12 ∨ c = 13 ∨ c = 28 ∨ c = 29 ∨ c = 30
            ∨ c = 133 ∨ c = 8232 ∨ c = 8233).
Proof.
  assert (∀ lead core cl trail,
            forallb is_space lead = true → forallb is_space trail = true →
            stops is_space (core ++ [cl]) → is_space cl = false →
            (∀ c, c ∈ lead ++ core ++ [cl] →
                  c ≠ DQ ∧ is_linebreak c = false) →
            multi_line_text (lead ++ core ++ [cl])
            = strip (lead ++ core ++ [cl] ++ trail)) as Hunit.
  { intros lead core cl trail Hlead Htrail Hcore Hcl Hline.
    destruct (strip_marked lead core trail cl) as (_ & Hs1 & Hs2); [done..|].
    rewrite Hs1. unfold multi_line_text, splitlines.
    rewrite splitlines_from_plain.
    - cbn [map join app]. by rewrite strip_rstrip.
    - rewrite forallb_forall. intros c Hc%list_elem_of_In.
      apply negb_true_iff. by apply Hline.
    - simpl. by destruct lead, core. }
  split_and!.
  - done.
  - apply rstrip_spec.
  - intros raw line Hraw. unfold multi_line_text. rewrite Hraw. simpl.
    rewrite strip_rstrip. split; [done|].
    pose proof (splitlines_from_no_break raw [] eq_refl) as Hnb.
    fold (splitlines raw) in Hnb. rewrite Hraw in Hnb.
    rewrite Forall_singleton in Hnb.
    pose proof (proj1 (forallb_forall _ _) Hnb) as Hall.
    intros Hin. eapply elem_of_sublist in Hin; [|apply strip_sublist].
    apply list_elem_of_In, Hall in Hin. done.
  - intros names name p pv indent gap lead core cl trail tail
      Hbol Hin Hne Hnames Hind Hgne Hgap Hlead Htrail Hcore Hcl Hline.
    eexists. split.
    { apply multi_re_at_one_line_block; try done.
      intros c Hc. destruct (Hline c Hc) as [Hq Hb]. split; [done|].
      by intros ->. }
    rewrite group_insert, (Hunit lead core cl trail) by done.
    split; [done|].
    destruct (strip_marked lead core trail cl) as (_ & Hs1 & _); [done..|].
    rewrite Hs1.
    intros Hnl. destruct (Hline NL) as [_ Hb]; [|done].
    rewrite elem_of_app. by right.
  - intros names name indent gap lead core cl trail tail
      Hin Hne Hnames Hind Hgne Hgap Hlead Htrail Hcore Hcl Hline.
    destruct (finditer_from_here (snd (build_patterns names)) 0 None
                (indent ++ name ++ gap ++ [DQ; DQ; DQ]
                 ++ NL :: (lead ++ core ++ [cl] ++ trail)
                 ++ NL :: [DQ; DQ; DQ] ++ tail)
                (ReMatch 0
                   (0 + length indent + length name + length gap + 3 + 1
                    + length (lead ++ core ++ [cl] ++ trail) + 1 + 3)
                   (<["text" := lead ++ core ++ [cl]]>
                      (<["char" := name]> ∅))))
      as [more Hmore].
    { apply multi_re_at_one_line_block; try done; [by left|].
      intros c Hc. destruct (Hline c Hc) as [Hq Hb]. split; [done|].
      by intros ->. }
    { simpl. lia. }
    exists (map (λ m, multi_line_text (group m "text")) more).
    unfold multi_line_texts, finditer. rewrite Hmore. cbn [map].
    by rewrite group_insert, (Hunit lead core cl trail).
  - intros raw Hraw. destruct raw as [|c raw]; [by split; [|apply not_elem_of_nil]|].
    assert (splitlines (c :: raw) = [c :: raw]) as Hone.
    { unfold splitlines. by rewrite splitlines_from_plain. }
    unfold multi_line_text. rewrite Hone. cbn [map join].
    rewrite strip_rstrip. split; [done|].
    intros Hin. eapply elem_of_sublist in Hin; [|apply strip_sublist].
    apply list_elem_of_In in Hin.
    apply (proj1 (forallb_forall _ _) Hraw) in Hin. done.
  - intros c. unfold is_linebreak.
    rewrite !orb_true_iff, !andb_true_iff, !N.leb_le, !N.eqb_eq. lia.
Qed.

(** C8 as stated fails: a block whose body is one line of the file, with a
    form feed in it, gives a text with a newline in it, which is not that
    line trimmed. *)
Lemma C8_form_feed_splits_a_one_line_block :
  readlines (py "foo" ++ [12] ++ py "bar" ++ [NL])
  = [py "foo" ++ [12] ++ py "bar" ++ [NL]]
  ∧ multi_line_texts (snd (build_patterns [py "e"]))
      (py "e " ++ [DQ; DQ; DQ; NL] ++ py "foo" ++ [12] ++ py "bar"
       ++ [NL; DQ; DQ; DQ; NL])
    = [py "foo" ++ [NL] ++ py "bar"]
  ∧ strip (py "foo" ++ [12] ++ py "bar") = py "foo" ++ [12] ++ py "bar"
  ∧ dialogues_of no_ucd_names (fst (build_patterns [py "e"]))
      (snd (build_patterns [py "e"]))
      (py "e " ++ [DQ; DQ; DQ; NL] ++ py "foo" ++ [12] ++ py "bar"
       ++ [NL; DQ; DQ; DQ; NL])
    = Some [[]; py "foo" ++ [NL] ++ py "bar"].
Proof. split_and!; vm_compute; reflexivity. Qed.

(** ** The menu-choice scan over a whole source *)

Ltac flatten_app :=
  repeat first [rewrite <- !app_assoc | progress cbn [app]].
Ltac list_lengths :=
  repeat first [rewrite !length_app | progress cbn [length]]; lia.

(** The characters of a match are passed without a new search. *)
Lemma finditer_from_skip (r : regex) (s1 s2 : pystr) :
  ∀ (p : nat) (pv : option N),
    finditer_from r p pv (s1 ++ s2) (length s1)
    = finditer_from r (p + length s1) (prev_after pv s1) s2 0.
Proof.
  induction s1 as [|c s1 IH]; intros p pv.
  { simpl. by rewrite Nat.add_0_r. }
  cbn [app length finditer_from last]. cbn [app Nat.sub].
  rewrite Nat.sub_0_r, IH, prev_after_cons with (pv := pv).
  f_equal. lia.
Qed.

(** After a match the scan goes on where the match ends. *)
Lemma finditer_from_match (r : regex) (p : nat) (pv : option N)
    (s1 s2 : pystr) (m : rematch) :
  match_here r p pv (s1 ++ s2) false = Some m →
  m_end m = (p + length s1)%nat → s1 ≠ [] →
  finditer_from r p pv (s1 ++ s2) 0
  = m :: finditer_from r (p + length s1) (prev_after pv s1) s2 0.
Proof.
  intros Hm He Hne. destruct s1 as [|c s1]; [done|].
  cbn [app finditer_from]. unfold matches_here.
  change (c :: s1 ++ s2) with ((c :: s1) ++ s2). rewrite Hm.
  rewrite (proj2 (Nat.eqb_neq _ _)) by (rewrite He; simpl; lia).
  cbn [last app]. rewrite He.
  replace (p + length (c :: s1) - p - 1)%nat with (length s1)
    by (simpl; lia).
  rewrite finditer_from_skip, prev_after_cons with (pv := pv).
  do 2 f_equal. simpl. lia.
Qed.

Lemma matches_here_consumes (r : regex) (p : nat) (pv : option N)
    (s : pystr) :
  consumes r = true →
  matches_here r p pv s = []
  ∨ ∃ m, matches_here r p pv s = [m] ∧ m_start m = p ∧ (p < m_end m)%nat.
Proof.
  intros Hc. unfold matches_here.
  destruct (match_here r p pv s false) as [m|] eqn:Hm; [|by left].
  destruct (match_here_span r p pv s false m Hc Hm) as [Hs He].
  right. exists m. by rewrite (proj2 (Nat.eqb_neq _ _)) by lia.
Qed.

(** When no match that starts in the first part of a text runs over its
    end, the scan comes to the end of that part and searches on from
    there. *)
Lemma finditer_from_reaches (r : regex) (s1 s2 : pystr) :
  consumes r = true →
  ∀ (p : nat) (pv : option N) (skip : nat),
    (skip ≤ length s1)%nat →
    (∀ m, m ∈ finditer_from r p pv (s1 ++ s2) skip →
          (m_start m < p + length s1)%nat →
          (m_end m ≤ p + length s1)%nat) →
    ∃ ms1,
      finditer_from r p pv (s1 ++ s2) skip
      = ms1 ++ finditer_from r (p + length s1) (prev_after pv s1) s2 0
      ∧ Forall (λ m, (m_start m < p + length s1)%nat) ms1.
Proof.
  intros Hc. induction s1 as [|c s1 IH]; intros p pv skip Hskip Hin.
  { exists []. simpl in *. rewrite Nat.add_0_r.
    by replace skip with 0%nat by lia. }
  cbn [app finditer_from] in *.
  assert (match skip with
          | 0%nat => matches_here r p pv (c :: s1 ++ s2)
          | S _ => []
          end = []
          ∨ ∃ m, match skip with
                 | 0%nat => matches_here r p pv (c :: s1 ++ s2)
                 | S _ => []
                 end = [m] ∧ m_start m = p ∧ (p < m_end m)%nat)
    as [Hnone|(m & Hone & Hs & He)].
  { destruct skip; [by apply matches_here_consumes|by left]. }
  - rewrite Hnone in *. cbn [last app] in *.
    destruct (IH (S p) (Some c) (skip - 1)%nat) as (ms1 & Heq & Hall).
    + simpl in Hskip. lia.
    + intros m Hm Hlt. simpl. specialize (Hin m Hm). simpl in Hin. lia.
    + exists ms1. rewrite Heq, prev_after_cons with (pv := pv).
      split; [do 2 f_equal; simpl; lia|].
      eapply Forall_impl; [exact Hall|]. simpl. intros; lia.
  - rewrite Hone in *. cbn [last app] in *.
    assert (m_end m ≤ p + length (c :: s1))%nat as Hle.
    { apply Hin; [left|simpl; lia]. }
    destruct (IH (S p) (Some c) (m_end m - p - 1)%nat) as (ms1 & Heq & Hall).
    + simpl in Hle. lia.
    + intros m' Hm' Hlt. simpl.
      assert (m' ∈ m :: finditer_from r (S p) (Some c) (s1 ++ s2)
                         (m_end m - p - 1)) as Hm'' by (by right).
      specialize (Hin m' Hm''). simpl in Hin. lia.
    + exists (m :: ms1). rewrite Heq, prev_after_cons with (pv := pv).
      split; [cbn [app]; do 3 f_equal; simpl; lia|].
      constructor; [simpl; lia|].
      eapply Forall_impl; [exact Hall|]. simpl. intros; lia.
Qed.

(** The menu pattern matches at a line start only. *)
Lemma menu_choice_re_line_start (p : nat) (c : N) (s : pystr)
    (must : bool) :
  c ≠ NL → match_here menu_choice_re p (Some c) s must = None.
Proof.
  intros Hc. unfold match_here, menu_choice_re. rewrite rmatch_seq.
  change (rmatch Bol ?st ?k) with (if at_line_start st then k st else None).
  unfold at_line_start. cbn [prev].
  by rewrite (proj2 (N.eqb_neq c NL)).
Qed.

(** It does not match where the first character after the whitespace is
    not a quote. *)
Lemma menu_choice_re_no_quote (p : nat) (pv : option N)
    (lead more : pystr) (c : N) (must : bool) :
  forallb is_space lead = true → is_space c = false → c ≠ DQ →
  match_here menu_choice_re p pv (lead ++ c :: more) must = None.
Proof.
  intros Hlead Hc Hq. unfold match_here, menu_choice_re.
  rewrite rmatch_seq.
  change (rmatch Bol ?st ?k) with (if at_line_start st then k st else None).
  destruct (at_line_start _); [|done].
  rewrite rmatch_seq. unfold ws.
  rewrite rmatch_star_cls_back by done.
  rewrite greedy_back_none; [done|].
  intros a b Hab. rewrite rmatch_seq. apply rmatch_chr_ne.
  destruct b as [|d b]; cbn [app]; unfold stops.
  - apply N.eqb_neq. by intros <-.
  - apply N.eqb_neq. intros <-.
    assert (forallb is_space (a ++ DQ :: b) = true) as Hsp
      by (by rewrite <- Hab).
    rewrite forallb_app in Hsp. apply andb_true_iff in Hsp as [_ Hsp].
    simpl in Hsp. done.
Qed.

Lemma prev_after_not_newline (pv : option N) (a : pystr) (c : N) :
  pv = Some c → c ≠ NL → forallb any_but_newline a = true →
  ∃ d, prev_after pv a = Some d ∧ d ≠ NL.
Proof.
  intros -> Hc Ha. unfold prev_after.
  destruct (last a) as [d|] eqn:Hl; [|by exists c].
  exists d. split; [done|].
  apply last_Some in Hl as [a' ->]. rewrite forallb_app in Ha.
  apply andb_true_iff in Ha as [_ Ha]. simpl in Ha.
  rewrite andb_true_r in Ha. unfold any_but_newline in Ha.
  apply negb_true_iff in Ha. by apply N.eqb_neq in Ha.
Qed.

(** Inside a line, after a character that is not a newline, the scan finds
    nothing up to the end of the line. *)
Lemma finditer_from_rest_of_line (body rest : pystr) (p : nat) (c : N) :
  c ≠ NL → forallb any_but_newline body = true →
  finditer_from menu_choice_re p (Some c) ((body ++ [NL]) ++ rest) 0
  = finditer_from menu_choice_re (p + length (body ++ [NL])) (Some NL) rest 0.
Proof.
  intros Hc Hbody. rewrite finditer_from_unmatched.
  - f_equal. unfold prev_after. by rewrite last_snoc.
  - intros a b Hab Hb.
    assert (forallb any_but_newline a = true) as Ha.
    { destruct b as [|d b _] using rev_ind; [done|].
      rewrite app_assoc in Hab. apply app_inj_tail in Hab as [-> _].
      rewrite forallb_app in Hbody. by apply andb_true_iff in Hbody as [? _]. }
    destruct (prev_after_not_newline (Some c) a c eq_refl Hc Ha)
      as (d & -> & Hd).
    by apply menu_choice_re_line_start.
Qed.

Lemma choice_line_scan (indent s tail rest : pystr) (p : nat)
    (pv : option N) :
  pv = None ∨ pv = Some NL →
  menu_line_ok (ChoiceLine indent s tail) = true →
  finditer_from menu_choice_re p pv
    (render_line (ChoiceLine indent s tail) ++ rest) 0
  = ReMatch p (p + length indent + length s + 3) (<["1" := s]> ∅)
    :: finditer_from menu_choice_re
         (p + length (render_line (ChoiceLine indent s tail))) (Some NL)
         rest 0.
Proof.
  intros Hpv Hok. cbn [menu_line_ok] in Hok.
  apply andb_true_iff in Hok as [Hok Htail].
  apply andb_true_iff in Hok as [Hok Hs].
  apply andb_true_iff in Hok as [Hind Hne].
  assert (s ≠ []) as Hne' by (by destruct s).
  cbn [render_line].
  replace ((indent ++ DQ :: s ++ DQ :: 58 :: tail ++ [NL]) ++ rest)
    with ((indent ++ DQ :: s ++ [DQ; 58]) ++ (tail ++ [NL]) ++ rest).
  2:{ by flatten_app. }
  rewrite (finditer_from_match menu_choice_re p pv _ _
             (ReMatch p (p + length indent + length s + 3)
                (<["1" := s]> ∅))).
  - f_equal.
    replace (prev_after pv (indent ++ DQ :: s ++ [DQ; 58])) with (Some 58).
    2:{ unfold prev_after.
        replace (indent ++ DQ :: s ++ [DQ; 58])
          with ((indent ++ DQ :: s ++ [DQ]) ++ [58]) by (by flatten_app).
        by rewrite last_snoc. }
    rewrite finditer_from_rest_of_line by done.
    f_equal. list_lengths.
  - flatten_app. by apply menu_choice_re_matches.
  - cbn [m_end]. list_lengths.
  - by destruct indent.
Qed.

Lemma other_line_scan (lead body rest : pystr) (c : N) (p : nat)
    (pv : option N) :
  menu_line_ok (OtherLine lead c body) = true →
  finditer_from menu_choice_re p pv
    (render_line (OtherLine lead c body) ++ rest) 0
  = finditer_from menu_choice_re
      (p + length (render_line (OtherLine lead c body))) (Some NL) rest 0.
Proof.
  intros Hok. cbn [menu_line_ok] in Hok.
  apply andb_true_iff in Hok as [Hok Hbody].
  apply andb_true_iff in Hok as [Hok Hq].
  apply andb_true_iff in Hok as [Hlead Hc].
  apply negb_true_iff in Hc. apply negb_true_iff, N.eqb_neq in Hq.
  cbn [render_line].
  assert (c ≠ NL) as Hnl by (by intros ->).
  replace ((lead ++ c :: body ++ [NL]) ++ rest)
    with (lead ++ [c] ++ (body ++ [NL]) ++ rest)
    by (by flatten_app).
  rewrite finditer_from_unmatched.
  - rewrite finditer_from_unmatched.
    + change (prev_after (prev_after pv lead) [c]) with (Some c).
      rewrite finditer_from_rest_of_line by done.
      f_equal. list_lengths.
    + intros a b Hab Hb. destruct a as [|d a].
      * simpl in Hab. subst b. cbn [app].
        by apply (menu_choice_re_no_quote _ _ []).
      * injection Hab as _ Hab. symmetry in Hab.
        by apply app_eq_nil in Hab as [_ ->].
  - intros a b Hab Hb. rewrite <- app_assoc.
    apply menu_choice_re_no_quote; [|done..].
    rewrite Hab, forallb_app in Hlead.
    by apply andb_true_iff in Hlead as [_ ?].
Qed.

(** The scan of a source made of such lines gives the quoted texts of its
    choice lines, each of them and in their order. *)
Lemma menu_lines_scan (lines : list menu_line) :
  ∀ (p : nat) (pv : option N),
    pv = None ∨ pv = Some NL →
    forallb menu_line_ok lines = true →
    map (λ m, strip (group m "1"))
        (finditer_from menu_choice_re p pv
           (concat (map render_line lines)) 0)
    = choices_of lines.
Proof.
  induction lines as [|l lines IH]; intros p pv Hpv Hok.
  { by destruct Hpv as [-> | ->]. }
  cbn [forallb] in Hok. apply andb_true_iff in Hok as [Hl Hok].
  cbn [map concat choices_of flat_map]. destruct l as [indent s tail|lead c body].
  - rewrite choice_line_scan by done. cbn [map app].
    rewrite group_insert. f_equal. apply IH; [by right|done].
  - rewrite other_line_scan by done. cbn [app].
    apply IH; [by right|done].
Qed.

(** C9, as the code has it: the menu-choice scan takes no character name:
    the texts it gives are the same under every list of names, and come
    last among the texts of a source; and a line made of a quoted text and
    a colon right after it is matched, indented or not and whatever
    follows, and gives the quoted text trimmed, when the scan comes to the
    start of the line: when the line starts the source, or no match starts
    before it, or no match that starts before it runs over its start.  A
    source made of such lines and of lines that start otherwise gives the
    texts of all its choice lines, in their order. *)
Theorem C9_menu_choice_matches_any_quoted_line_with_colon :
  (∀ ucd names content,
     dialogues_of ucd (fst (build_patterns names)) (snd (build_patterns names))
       content
     = (λ singles, singles
                   ++ multi_line_texts (snd (build_patterns names)) content
                   ++ menu_choices content)
       <$> single_line_texts ucd (fst (build_patterns names)) content)
  ∧ (∀ p pv indent s post,
       pv = None ∨ pv = Some NL →
       forallb is_space indent = true →
       s ≠ [] → forallb (not_in [DQ]) s = true →
       ∃ m, match_here menu_choice_re p pv
              (indent ++ DQ :: s ++ DQ :: 58 :: post) false = Some m
            ∧ m_start m = p
            ∧ strip (group m "1") = strip s)
  ∧ (∀ indent s post,
       forallb is_space indent = true →
       s ≠ [] → forallb (not_in [DQ]) s = true →
       ∃ more,
         menu_choices (indent ++ DQ :: s ++ DQ :: 58 :: post)
         = strip s :: more)
  ∧ (∀ before indent s post,
       before = [] ∨ last before = Some NL →
       (∀ a b, before = a ++ b → b ≠ [] →
               match_here menu_choice_re (0 + length a) (prev_after None a)
                 (b ++ indent ++ DQ :: s ++ DQ :: 58 :: post) false = None) →
       forallb is_space indent = true →
       s ≠ [] → forallb (not_in [DQ]) s = true →
       ∃ more,
         menu_choices (before ++ indent ++ DQ :: s ++ DQ :: 58 :: post)
         = strip s :: more)
  ∧ (∀ before indent s post,
       before = [] ∨ last before = Some NL →
       (∀ m, m ∈ finditer menu_choice_re
                   (before ++ indent ++ DQ :: s ++ DQ :: 58 :: post) →
             (m_start m < length before)%nat →
             (m_end m ≤ length before)%nat) →
       forallb is_space indent = true →
       s ≠ [] → forallb (not_in [DQ]) s = true →
       ∃ earlier m later,
         finditer menu_choice_re
           (before ++ indent ++ DQ :: s ++ DQ :: 58 :: post)
         = earlier ++ m :: later
         ∧ Forall (λ m', (m_start m' < length before)%nat) earlier
         ∧ m_start m = length before
         ∧ group m "1" = s
         ∧ menu_choices (before ++ indent ++ DQ :: s ++ DQ :: 58 :: post)
           = map (λ m', strip (group m' "1")) earlier
             ++ strip s :: map (λ m', strip (group m' "1")) later)
  ∧ (∀ lines,
       forallb menu_line_ok lines = true →
       menu_choices (concat (map render_line lines)) = choices_of lines).
Proof.
  split_and!.
  - intros ucd names content. unfold dialogues_of.
    by destruct (single_line_texts _ _ _).
  - intros p pv indent s post Hbol Hind Hne Hs.
    eexists. split; [by apply menu_choice_re_matches|].
    split; [done|]. by rewrite group_insert.
  - intros indent s post Hind Hne Hs.
    destruct (finditer_from_here menu_choice_re 0 None
                (indent ++ DQ :: s ++ DQ :: 58 :: post)
                (ReMatch 0 (0 + length indent + length s + 3)
                   (<["1" := s]> ∅))) as [more Hmore].
    + apply menu_choice_re_matches; auto.
    + simpl. lia.
    + exists (map (λ m, strip (group m "1")) more).
      unfold menu_choices, finditer. rewrite Hmore. simpl.
      by rewrite group_insert.
  - intros before indent s post Hlast Hnone Hind Hne Hs.
    destruct (finditer_from_here menu_choice_re (0 + length before)
                (prev_after None before)
                (indent ++ DQ :: s ++ DQ :: 58 :: post)
                (ReMatch (0 + length before)
                   (0 + length before + length indent + length s + 3)
                   (<["1" := s]> ∅))) as [more Hmore].
    + apply menu_choice_re_matches; [|done..]. unfold prev_after.
      destruct Hlast as [->| ->]; auto.
    + simpl. lia.
    + exists (map (λ m, strip (group m "1")) more).
      unfold menu_choices, finditer.
      rewrite finditer_from_unmatched by done. rewrite Hmore. simpl.
      by rewrite group_insert.
  - intros before indent s post Hlast Hover Hind Hne Hs.
    destruct (finditer_from_reaches menu_choice_re before
                (indent ++ DQ :: s ++ DQ :: 58 :: post) eq_refl
                0 None 0) as (earlier & Heq & Hall); [lia|exact Hover|].
    destruct (finditer_from_here menu_choice_re (0 + length before)
                (prev_after None before)
                (indent ++ DQ :: s ++ DQ :: 58 :: post)
                (ReMatch (0 + length before)
                   (0 + length before + length indent + length s + 3)
                   (<["1" := s]> ∅))) as [later Hlater].
    + apply menu_choice_re_matches; [|done..]. unfold prev_after.
      destruct Hlast as [->| ->]; auto.
    + simpl. lia.
    + eexists earlier, _, later. unfold menu_choices, finditer.
      rewrite Heq, Hlater. split_and!; [done|exact Hall|done| |].
      * by rewrite group_insert.
      * rewrite map_app. cbn [map]. by rewrite group_insert.
  - intros lines Hok. unfold menu_choices, finditer.
    apply menu_lines_scan; [by left|done].
Qed.

(** C9 as stated fails: a line made of a quoted text and a colon right
    after it is not matched when an earlier match runs over its start.
    Here the quoted text that opens on the first line closes at the quote
    that opens the second, and the second line, which the pattern would
    match if the scan came to its start, gives no text. *)
Lemma C9_line_inside_an_earlier_match_is_skipped :
  menu_choices (DQ :: py "a" ++ [NL] ++ DQ :: py ": b" ++ [DQ; 58; NL])
  = [py "a"]
  ∧ readlines (DQ :: py "a" ++ [NL] ++ DQ :: py ": b" ++ [DQ; 58; NL])
    = [DQ :: py "a" ++ [NL]; DQ :: py ": b" ++ [DQ; 58; NL]]
  ∧ (∃ m, match_here menu_choice_re 3 (Some NL)
            (DQ :: py ": b" ++ [DQ; 58; NL]) false = Some m
          ∧ group m "1" = py ": b").
Proof.
  split_and!; [vm_compute; reflexivity..|].
  eexists. split; vm_compute; reflexivity.
Qed.

(** ** CharacterRegistry *)

Lemma first_occurrences_foldl (l : list pystr) :
  foldl add_name [] l = first_occurrences l.
Proof.
  rewrite foldl_add_name. simpl.
  induction (first_occurrences l) as [|x k IH]; [done|].
  by rewrite filter_cons_True, IH by set_solver.
Qed.

Lemma first_occurrences_app (l1 l2 : list pystr) :
  first_occurrences (l1 ++ l2)
  = first_occurrences l1 ++ filter (λ x, x ∉ l1) (first_occurrences l2).
Proof.
  rewrite <- !first_occurrences_foldl, foldl_app, foldl_add_name.
  rewrite !first_occurrences_foldl. f_equal.
  apply list_filter_iff. intros x. by rewrite first_occurrences_elem.
Qed.

Lemma scan_definitions_foldl ua (names : list pystr) (text : pystr) :
  scan_definitions ua names text
  = foldl add_name names
      (map (λ m, group m "short") (finditer (DEFINE_RE ua) text)).
Proof.
  unfold scan_definitions. revert names.
  induction (finditer _ text) as [|m ms IH]; intros names; [done|].
  simpl. apply IH.
Qed.

Lemma gathered_names ua (w : world) (rpy_files names : list pystr) :
  foldl (scan_definitions ua) names (map (text_read (rpy w)) rpy_files)
  = foldl add_name names (definitions_in ua w rpy_files).
Proof.
  unfold definitions_in. revert names.
  induction rpy_files as [|p ps IH]; intros names; [done|].
  simpl. by rewrite IH, foldl_app, scan_definitions_foldl.
Qed.

(** C7: the names come out as the first occurrences of the names in the
    definition statements, taken file by file in the order given and, within
    a file, in the order of the scan; so no name is there twice, every
    defined name is there, and a name stands right after the distinct names
    defined before its first definition.  The scan of a file goes by
    position: its matches are non-empty and each starts where the one
    before ended, or later. *)
Theorem C7_gather_char_names_first_definition_order
    ua (w : world) (rpy_files : list pystr) :
  rpy_files ⊆ map fst (rpy w) →
  gather_char_names ua rpy_files w
  = Ok (first_occurrences (definitions_in ua w rpy_files))
       (logged w (map CharacterScan rpy_files))
  ∧ NoDup (first_occurrences (definitions_in ua w rpy_files))
  ∧ (∀ x, x ∈ first_occurrences (definitions_in ua w rpy_files)
          ↔ x ∈ definitions_in ua w rpy_files)
  ∧ (∀ before x after,
       definitions_in ua w rpy_files = before ++ x :: after →
       x ∉ before →
       ∃ tail, first_occurrences (definitions_in ua w rpy_files)
               = first_occurrences before ++ x :: tail)
  ∧ (∀ text,
       Forall (λ m, (m_start m < m_end m)%nat)
              (finditer (DEFINE_RE ua) text)
       ∧ StronglySorted (λ m m', (m_end m ≤ m_start m')%nat)
           (finditer (DEFINE_RE ua) text)).
Proof.
  intros Hfiles. split_and!.
  - rewrite gather_char_names_ok by done.
    by rewrite gathered_names, first_occurrences_foldl.
  - apply first_occurrences_NoDup.
  - intros x. apply first_occurrences_elem.
  - intros before x after -> Hx. rewrite first_occurrences_app. simpl.
    rewrite filter_cons_True by done. eauto.
  - intros text.
    destruct (finditer_from_disjoint (DEFINE_RE ua) text eq_refl 0 None 0)
      as [Hall Hsorted].
    split; [|done]. eapply Forall_impl; [exact Hall|]. by intros m [_ ?].
Qed.

Lemma C7_gather_char_names_witness :
  gather_char_names no_unicode_alnum
    [py "game/script.rpy"; py "game/a.rpy"] two_scripts_world
  = Ok (first_occurrences
          (definitions_in no_unicode_alnum two_scripts_world
             [py "game/script.rpy"; py "game/a.rpy"]))
       (logged two_scripts_world
          (map CharacterScan [py "game/script.rpy"; py "game/a.rpy"]))
  ∧ first_occurrences
      (definitions_in no_unicode_alnum two_scripts_world
         [py "game/script.rpy"; py "game/a.rpy"])
    = [py "b"; py "e"].
Proof.
  split.
  - apply (C7_gather_char_names_first_definition_order no_unicode_alnum
             two_scripts_world [py "game/script.rpy"; py "game/a.rpy"]).
    apply (bool_decide_unpack _). vm_compute. reflexivity.
  - vm_compute. reflexivity.
Defined.

(** ** Fatal ends *)

Lemma no_definitions_no_names ua (w : world) (rpy_files names : list pystr) :
  rpy_files ⊆ map fst (rpy w) →
  (∀ path text, (path, text) ∈ rpy w →
                finditer (DEFINE_RE ua) (universal_newlines text) = []) →
  foldl (scan_definitions ua) names (map (text_read (rpy w)) rpy_files)
  = names.
Proof.
  intros Hfiles Hnone. revert names.
  induction rpy_files as [|p ps IH]; intros names; [done|].
  simpl. rewrite IH by set_solver.
  destruct (assoc_elem p (rpy w)) as (text & Ha & Hin); [set_solver|].
  unfold scan_definitions, text_read. rewrite Ha. simpl.
  by rewrite (Hnone p text).
Qed.

Lemma dialogue_scan_not_in_prefix (a : args) (w : world) (path : pystr) :
  DialogueScan path ∈ log (after_names a w) → DialogueScan path ∈ log w.
Proof.
  unfold after_names, logged, after_screens. cbv zeta.
  destruct (file_at w _); simpl; rewrite !elem_of_app, list_elem_of_fmap;
    rewrite ?elem_of_cons, ?elem_of_nil; naive_solver.
Qed.

(** C6: when no source has a definition statement the run ends by a fatal
    exit, with the message about character definitions when there are
    sources at all, and no dialogue scan has run by then: the log of the
    run has no dialogue scan that was not there before. *)
Theorem C6_no_definitions_exit_before_dialogue_scan ua ucd (a : args)
    (w : world) :
  (∀ path text, (path, text) ∈ rpy w →
                finditer (DEFINE_RE ua) (universal_newlines text) = []) →
  ∃ msg w',
    main ua ucd a w = Exit msg w'
    ∧ (rpy w ≠ [] → msg = no_characters_message)
    ∧ (∀ path, DialogueScan path ∈ log w' → DialogueScan path ∈ log w).
Proof.
  intros Hnone. destruct (decide (rpy w = [])) as [Hw|Hw].
  - exists (no_sources_message a), w. by rewrite main_no_sources.
  - exists no_characters_message, (after_names a w). split_and!; [|done|].
    + apply main_no_characters; [done|]. unfold run_names.
      apply no_definitions_no_names; [apply run_order_subseteq|done].
    + apply dialogue_scan_not_in_prefix.
Qed.

Lemma C6_no_definitions_witness :
  ∃ msg w',
    main no_unicode_alnum no_ucd_names (game_args false) undefined_speaker_world
    = Exit msg w'
    ∧ (rpy undefined_speaker_world ≠ [] → msg = no_characters_message)
    ∧ (∀ path, DialogueScan path ∈ log w' →
               DialogueScan path ∈ log undefined_speaker_world).
Proof.
  apply (C6_no_definitions_exit_before_dialogue_scan no_unicode_alnum
           no_ucd_names (game_args false) undefined_speaker_world).
  intros path text Hin. apply list_elem_of_singleton in Hin.
  injection Hin as -> ->. vm_compute. reflexivity.
Defined.

(** ** The check for extracted text *)

Lemma unique_texts_of_nil (all_texts : list pystr) :
  unique_texts_of all_texts = [] ↔ Forall (λ t, t = []) all_texts.
Proof.
  rewrite Forall_forall. split.
  - intros Hu t Ht. destruct (decide (t = [])) as [|Hne]; [done|].
    assert (t ∈ unique_texts_of all_texts) as Hin
      by (by apply unique_texts_of_elem).
    rewrite Hu in Hin. by apply elem_of_nil in Hin.
  - intros Hall. destruct (unique_texts_of all_texts) as [|t l] eqn:Hu; [done|].
    assert (t ∈ unique_texts_of all_texts) as Hin by (rewrite Hu; left).
    apply unique_texts_of_elem in Hin as [Hin Hne]. by apply Hall in Hin.
Qed.

Lemma label_only_run ua ucd (fill : bool) :
  main ua ucd (game_args fill) label_only_world
  = Exit no_characters_message
      (World no_other_paths (rpy label_only_world)
         (Some (screens_template fill [py "Start Game"; py "Quit"]))
         [ScreenTextScan (py "game/screens.rpy"); TemplateWritten;
          CharacterScan (py "game/screens.rpy")]).
Proof.
  rewrite main_no_characters; [reflexivity|done|by vm_compute].
Qed.

(** C4, as the code has it: once sources and character definitions are
    found, the run ends by the fatal exit for missing text exactly when
    every text extracted from the script sources is empty, and ends
    normally exactly when one of them is not and the template can take
    the texts; label texts play no part in this.  The run whose only text
    is the label and the button of the UI source ends by a fatal exit, and
    the template it has written by then starts with the records of Start
    Game and Quit, in this order. *)
Theorem C4_fatal_exactly_without_dialogue_text :
  (∀ ua ucd a w all_texts,
     rpy w ≠ [] → run_names ua a w ≠ [] →
     run_dialogues ua ucd a w = Some all_texts →
     ((∃ w', main ua ucd a w = Exit no_dialogue_message w')
      ↔ Forall (λ t, t = []) all_texts)
     ∧ ((∃ w', main ua ucd a w = Ok () w')
        ↔ Exists (λ t, t ≠ []) all_texts
          ∧ forallb encodable (unique_texts_of all_texts) = true))
  ∧ (∀ ua ucd fill,
       ∃ w' rest,
         main ua ucd (game_args fill) label_only_world
         = Exit no_characters_message w'
         ∧ template w'
           = Some (template_record fill [NL] (py "Start Game")
                   ++ template_record fill [NL] (py "Quit") ++ rest)).
Proof.
  split.
  - intros ua ucd a w all_texts Hw Hn Hd.
    rewrite <- unique_texts_of_nil.
    assert (Exists (λ t, t ≠ []) all_texts ↔ unique_texts_of all_texts ≠ [])
      as ->.
    { rewrite Exists_exists. split.
      - intros (t & Ht & Hne) Hu.
        assert (t ∈ unique_texts_of all_texts) as Hin
          by (by apply unique_texts_of_elem).
        rewrite Hu in Hin. by apply elem_of_nil in Hin.
      - destruct (unique_texts_of all_texts) as [|t l] eqn:Hu; [done|].
        intros _. exists t. apply unique_texts_of_elem. rewrite Hu. left. }
    destruct (decide (unique_texts_of all_texts = [])) as [Hu|Hu].
    { rewrite (main_no_dialogue ua ucd a w all_texts) by done.
      split; split; [done|eauto|by intros [? ?]|by intros [? _]]. }
    destruct (forallb encodable (unique_texts_of all_texts)) eqn:Henc.
    + rewrite (main_ok ua ucd a w all_texts) by done.
      split; split; [by intros [? ?]|done|done|eauto].
    + destruct (main_write_raised ua ucd a w all_texts) as [w'' Hr];
        [done..|]. rewrite Hr.
      split; split; [by intros [? ?]|done|by intros [? ?]|by intros [_ ?]].
  - intros ua ucd fill. rewrite label_only_run. eexists _, _.
    split; [done|]. cbn [template]. unfold screens_template. cbv zeta.
    cbn [map concat]. rewrite app_nil_r, <- !app_assoc. reflexivity.
Qed.

Lemma C4_fatal_exactly_witness :
  ((∃ w', main no_unicode_alnum no_ucd_names (game_args false) silent_world
          = Exit no_dialogue_message w')
   ↔ Forall (λ t : pystr, t = []) [])
  ∧ ((∃ w', main no_unicode_alnum no_ucd_names (game_args false) silent_world
            = Ok () w')
     ↔ Exists (λ t : pystr, t ≠ []) []
       ∧ forallb encodable (unique_texts_of []) = true).
Proof.
  apply (proj1 C4_fatal_exactly_without_dialogue_text no_unicode_alnum
           no_ucd_names (game_args false) silent_world []).
  - vm_compute. discriminate.
  - vm_compute. discriminate.
  - vm_compute. reflexivity.
Defined.

(** C4 as stated fails: the run whose only text is the label and the button
    of the UI source does not end normally; it ends by a fatal exit, as
    does the run that also has a script with a character definition and no
    dialogue. *)
Lemma C4_label_only_run_is_fatal :
  main no_unicode_alnum no_ucd_names (game_args false) label_only_world
  = Exit no_characters_message
      (World no_other_paths (rpy label_only_world)
         (Some (screens_template false [py "Start Game"; py "Quit"]))
         [ScreenTextScan (py "game/screens.rpy"); TemplateWritten;
          CharacterScan (py "game/screens.rpy")])
  ∧ (∃ w', main no_unicode_alnum no_ucd_names (game_args false) silent_world
           = Exit no_dialogue_message w').
Proof.
  split.
  - apply label_only_run.
  - eexists. vm_compute. reflexivity.
Qed.

(** ** TemplateDeduplicator *)

Lemma drop_while_none {A} (p : A → bool) (l : list A) :
  drop_while p l = [] → forallb p l = true.
Proof.
  induction l as [|x l IH]; simpl; [done|].
  destruct (p x); [done|]. discriminate.
Qed.

Lemma is_blank_spaces (line : pystr) :
  is_blank line = true → forallb is_space line = true.
Proof.
  unfold is_blank, strip, lstrip. intros Hb.
  destruct (drop_while is_space (rstrip line)) eqn:Hd; [|done].
  apply drop_while_none in Hd.
  destruct (rstrip_spec line) as (trail & Hl & Ht & _).
  rewrite Hl, forallb_app, Hd, Ht. done.
Qed.

Lemma blank_not_source (line : pystr) :
  is_blank line = true → is_source line = false.
Proof.
  intros Hb%is_blank_spaces. unfold is_source.
  destruct line as [|c line]; [done|]. cbn [startswith py map list_ascii_of_string].
  destruct (N.eqb_spec (N_of_ascii "<") c) as [<-|]; [|done].
  cbn [forallb] in Hb. apply andb_true_iff in Hb as [Hc _].
  by vm_compute in Hc.
Qed.

Lemma translation_not_source (line : pystr) :
  startswith line (py ">") = true → is_source line = false.
Proof.
  unfold is_source. destruct line as [|c line]; [done|].
  cbn [startswith py map list_ascii_of_string].
  destruct (N.eqb_spec (N_of_ascii ">") c) as [<-|]; [|done]. done.
Qed.

Lemma skipped_not_source (line : pystr) :
  skipped line = true → is_source line = false.
Proof.
  unfold skipped. intros [?|?]%orb_true_iff;
    [by apply translation_not_source|by apply blank_not_source].
Qed.

Lemma filter_source_drop_while (p : pystr → bool) (l : list pystr) :
  (∀ x, p x = true → is_source x = false) →
  filter (λ line, is_source line = true) (drop_while p l)
  = filter (λ line, is_source line = true) l.
Proof.
  intros Hp. induction l as [|x l IH]; simpl; [done|].
  destruct (p x) eqn:Hx; [|done].
  rewrite filter_cons_False; [done|]. rewrite (Hp x Hx). done.
Qed.

Lemma filter_source_take_while (p : pystr → bool) (l : list pystr) :
  (∀ x, p x = true → is_source x = false) →
  filter (λ line, is_source line = true) (take_while p l) = [].
Proof.
  intros Hp. induction l as [|x l IH]; simpl; [done|].
  destruct (p x) eqn:Hx; [|done].
  rewrite filter_cons_False; [done|]. rewrite (Hp x Hx). done.
Qed.

Lemma translation_after_split (more : list pystr) :
  translation_after more ++ drop (length (translation_after more)) more = more.
Proof.
  unfold translation_after. destruct more as [|t more]; [done|].
  by destruct (startswith t (py ">")).
Qed.

Lemma filter_source_translation (more : list pystr) :
  filter (λ line, is_source line = true) (translation_after more) = [].
Proof.
  unfold translation_after. destruct more as [|t more]; [done|].
  destruct (startswith t (py ">")) eqn:Ht; [|done].
  rewrite filter_cons_False; [done|].
  rewrite (translation_not_source t Ht). done.
Qed.

(** What is left after a kept source line has the source lines of all that
    followed it. *)
Lemma filter_source_after_kept (more : list pystr) :
  filter (λ line, is_source line = true)
    (drop_while is_blank (drop (length (translation_after more)) more))
  = filter (λ line, is_source line = true) more.
Proof.
  rewrite filter_source_drop_while by apply blank_not_source.
  transitivity (filter (λ line, is_source line = true)
                  (translation_after more
                   ++ drop (length (translation_after more)) more)).
  - by rewrite filter_app, filter_source_translation.
  - by rewrite translation_after_split.
Qed.

(** The loop emits the kept lines, each with its line end made [\r\n]. *)
Lemma dedup_loop_kept (seen : gset pystr) (lines : list pystr) :
  dedup_loop seen lines = map crlf (kept_lines seen lines).
Proof.
  funelim (kept_lines seen lines); simp dedup_loop; [done|].
  fold (is_source line). cbv zeta.
  destruct (is_source line); [|by rewrite H1].
  case_bool_decide; [done|].
  rewrite H0. by rewrite map_cons, !map_app.
Qed.

(** The source lines that are kept are the first ones by payload. *)
Lemma kept_lines_sources (seen : gset pystr) (lines : list pystr) :
  filter (λ line, is_source line = true) (kept_lines seen lines)
  = first_from seen (filter (λ line, is_source line = true) lines).
Proof.
  funelim (kept_lines seen lines); simp kept_lines; [done|].
  cbv zeta. rewrite filter_cons.
  destruct (is_source line) eqn:Hs.
  - rewrite decide_True by done. cbn [first_from].
    case_bool_decide.
    + rewrite H. by rewrite filter_source_drop_while by apply skipped_not_source.
    + rewrite filter_cons_True by done. rewrite !filter_app.
      rewrite filter_source_translation.
      rewrite filter_source_take_while by apply blank_not_source.
      simpl. rewrite H0. by rewrite filter_source_after_kept.
  - rewrite decide_False by (by intros [=]).
    rewrite filter_cons_False by (rewrite Hs; by intros [=]). apply H1.
Qed.

Lemma first_from_payloads (seen : gset pystr) (sources : list pystr) :
  map payload (first_from seen sources)
  = filter (λ x, x ∉ seen) (first_occurrences (map payload sources)).
Proof.
  revert seen. induction sources as [|l S IH]; intros seen; [done|].
  cbn [first_from map first_occurrences].
  rewrite filter_cons, list_filter_filter. case_bool_decide as Hp.
  - rewrite decide_False by naive_solver. rewrite IH.
    apply list_filter_iff. intros x. split; [|naive_solver].
    intros Hx. split; [done|]. by intros ->.
  - rewrite decide_True by done. cbn [map]. rewrite IH. f_equal.
    apply list_filter_iff. intros x. set_solver.
Qed.

Lemma first_by_payload_payloads (sources : list pystr) :
  map payload (first_by_payload sources)
  = first_occurrences (map payload sources).
Proof.
  unfold first_by_payload. rewrite first_from_payloads.
  induction (first_occurrences _) as [|x l IH]; [done|].
  by rewrite filter_cons_True, IH by set_solver.
Qed.

Lemma first_from_idemp (seen : gset pystr) (sources : list pystr) :
  first_from seen (first_from seen sources) = first_from seen sources.
Proof.
  revert seen. induction sources as [|l S IH]; intros seen; [done|].
  cbn [first_from]. case_bool_decide as Hp; [apply IH|].
  cbn [first_from]. rewrite bool_decide_false by done. by rewrite IH.
Qed.

Lemma first_from_length (seen : gset pystr) (sources : list pystr) :
  (length (first_from seen sources) ≤ length sources)%nat.
Proof.
  revert seen. induction sources as [|l S IH]; intros seen; [done|].
  cbn [first_from]. case_bool_decide; simpl.
  - specialize (IH seen). lia.
  - specialize (IH ({[payload l]} ∪ seen)). lia.
Qed.

Lemma first_from_sublist (seen : gset pystr) (sources : list pystr) :
  first_from seen sources `sublist_of` sources.
Proof.
  revert seen. induction sources as [|l S IH]; intros seen; [done|].
  cbn [first_from]. case_bool_decide.
  - by apply sublist_cons.
  - by apply sublist_skip.
Qed.

Lemma after_kept_split (more : list pystr) :
  translation_after more
  ++ take_while is_blank (drop (length (translation_after more)) more)
  ++ drop_while is_blank (drop (length (translation_after more)) more)
  = more.
Proof. by rewrite drop_while_take_while, translation_after_split. Qed.

Lemma kept_lines_sublist (seen : gset pystr) (lines : list pystr) :
  kept_lines seen lines `sublist_of` lines.
Proof.
  funelim (kept_lines seen lines); simp kept_lines; [done|]. cbv zeta.
  destruct (is_source line).
  - case_bool_decide.
    + apply sublist_cons. etrans; [apply H|apply drop_while_sublist].
    + apply sublist_skip.
      transitivity
        (translation_after more
         ++ take_while is_blank (drop (length (translation_after more)) more)
         ++ drop_while is_blank (drop (length (translation_after more)) more)).
      * by repeat apply sublist_app.
      * by rewrite after_kept_split.
  - by apply sublist_skip.
Qed.

(** When every source line is a first one, every line is kept. *)
Lemma kept_lines_all (seen : gset pystr) (lines : list pystr) :
  first_from seen (filter (λ line, is_source line = true) lines)
  = filter (λ line, is_source line = true) lines →
  kept_lines seen lines = lines.
Proof.
  funelim (kept_lines seen lines); simp kept_lines; [done|]. cbv zeta.
  rewrite filter_cons. destruct (is_source line) eqn:Hs.
  - rewrite decide_True by done. cbn [first_from].
    case_bool_decide as Hp; intros Hf.
    + pose proof (first_from_length seen
                    (filter (λ line, is_source line = true) more)) as Hlen.
      rewrite Hf in Hlen. simpl in Hlen. lia.
    + injection Hf as Hf. rewrite H0.
      * by rewrite after_kept_split.
      * by rewrite filter_source_after_kept.
  - rewrite decide_False by (by intros [=]). intros Hf. by rewrite H1.
Qed.

(** *** Lines and the text of a file *)

Lemma lines_wf_sublist (kept lines : list pystr) :
  kept `sublist_of` lines → lines_wf lines → lines_wf kept.
Proof.
  induction 1 as [|x k l Hkl IH|x k l Hkl IH]; [done| |].
  - intros (Hx & Ht & Hl). split_and!; [done| |by apply IH].
    intros Hk. apply Ht. intros ->. by apply sublist_nil_r in Hkl.
  - intros (_ & _ & Hl). by apply IH.
Qed.

Lemma readlines_from_wf (s cur : pystr) :
  NL ∉ cur → CR ∉ cur → CR ∉ s → lines_wf (readlines_from cur s).
Proof.
  revert cur. induction s as [|c s IH]; intros cur Hn Hc Hs.
  - destruct cur as [|a cur]; [done|]. simpl. split_and!; [|done..].
    by right.
  - cbn [readlines_from]. destruct (N.eqb_spec c NL) as [->|Hne].
    + assert (terminated (cur ++ [NL])) by (by exists cur).
      cbn [lines_wf]. split_and!; [by left|done|].
      apply IH; [by intros ?%elem_of_nil..|]. set_solver.
    + apply IH.
      * rewrite elem_of_app, list_elem_of_singleton. naive_solver.
      * rewrite elem_of_app, list_elem_of_singleton. set_solver.
      * set_solver.
Qed.

Lemma universal_newlines_no_cr (s : pystr) : CR ∉ universal_newlines s.
Proof.
  assert (∀ n s, (length s ≤ n)%nat → CR ∉ universal_newlines s) as H;
    [|by apply (H (length s))].
  clear. induction n as [|n IH]; intros s Hn.
  { destruct s; [|simpl in Hn; lia]. by intros ?%elem_of_nil. }
  destruct s as [|c t]; [by intros ?%elem_of_nil|].
  simpl in Hn. cbn [universal_newlines].
  destruct (N.eqb_spec c CR) as [->|Hc].
  - destruct t as [|d t'].
    + rewrite list_elem_of_singleton. done.
    + simpl in Hn. rewrite elem_of_cons.
      destruct (d =? NL); intros [?|Hin]; try done;
        revert Hin; apply IH; simpl; lia.
  - rewrite elem_of_cons. intros [?|Hin]; [done|].
    revert Hin. apply IH. lia.
Qed.

Lemma readlines_wf (text : pystr) :
  lines_wf (readlines (universal_newlines text)).
Proof.
  apply readlines_from_wf; [by intros ?%elem_of_nil..|].
  apply universal_newlines_no_cr.
Qed.

Lemma crlf_body (body : pystr) : NL ∉ body → crlf body = body.
Proof.
  unfold crlf. rewrite replace_one_char. intros Hb.
  induction body as [|c body IH]; [done|]. simpl.
  destruct (N.eqb_spec c NL) as [->|_]; [by destruct Hb; left|].
  simpl. f_equal. apply IH. set_solver.
Qed.

Lemma crlf_terminated (body : pystr) :
  NL ∉ body → crlf (body ++ [NL]) = body ++ [CR; NL].
Proof.
  intros Hb. pose proof (crlf_body body Hb) as Hc. unfold crlf in *.
  rewrite replace_one_char in *. rewrite flat_map_app, Hc. done.
Qed.

Lemma universal_newlines_body (body rest : pystr) :
  CR ∉ body →
  universal_newlines (body ++ CR :: NL :: rest)
  = body ++ NL :: universal_newlines rest.
Proof.
  induction body as [|c body IH]; intros Hb; [done|].
  cbn [app universal_newlines].
  destruct (N.eqb_spec c CR) as [->|_]; [by destruct Hb; left|].
  f_equal. apply IH. set_solver.
Qed.

Lemma universal_newlines_plain (body : pystr) :
  CR ∉ body → universal_newlines body = body.
Proof.
  induction body as [|c body IH]; intros Hb; [done|].
  cbn [universal_newlines].
  destruct (N.eqb_spec c CR) as [->|_]; [by destruct Hb; left|].
  f_equal. apply IH. set_solver.
Qed.

Lemma readlines_from_body (body cur rest : pystr) :
  NL ∉ body →
  readlines_from cur (body ++ NL :: rest)
  = (cur ++ body ++ [NL]) :: readlines_from [] rest.
Proof.
  revert cur. induction body as [|c body IH]; intros cur Hb.
  - simpl. done.
  - cbn [app readlines_from].
    destruct (N.eqb_spec c NL) as [->|_]; [by destruct Hb; left|].
    rewrite IH by set_solver. by rewrite <- app_assoc.
Qed.

Lemma readlines_from_plain (body cur : pystr) :
  NL ∉ body → cur ++ body ≠ [] →
  readlines_from cur body = [cur ++ body].
Proof.
  revert cur. induction body as [|c body IH]; intros cur Hb Hne.
  - simpl. rewrite app_nil_r in *. by destruct cur.
  - cbn [readlines_from].
    destruct (N.eqb_spec c NL) as [->|_]; [by destruct Hb; left|].
    rewrite IH; [by rewrite <- app_assoc|set_solver|].
    by destruct cur.
Qed.

(** Written with [\r\n] line ends and read again, well-formed lines come
    back as they were. *)
Lemma readlines_written (lines : list pystr) :
  lines_wf lines →
  readlines (universal_newlines (concat (map crlf lines))) = lines.
Proof.
  induction lines as [|line more IH]; [done|].
  intros (Hok & Hterm & Hwf). cbn [map concat].
  assert (terminated line
          ∨ (more = [] ∧ line ≠ [] ∧ (NL ∉ line) ∧ (CR ∉ line)))
    as [(body & -> & Hn & Hc)|(-> & Hne & Hn & Hc)].
  { destruct Hok as [?|?]; [by left|].
    destruct more; [by right|]. left. by apply Hterm. }
  - rewrite crlf_terminated by done.
    rewrite <- app_assoc. cbn [app].
    rewrite universal_newlines_body by done.
    unfold readlines in *. rewrite readlines_from_body by done.
    by rewrite IH.
  - simpl. rewrite app_nil_r, crlf_body by done.
    rewrite universal_newlines_plain by done.
    unfold readlines. by rewrite readlines_from_plain.
Qed.

Lemma first_from_app (seen : gset pystr) (l1 l2 : list pystr) :
  first_from seen (l1 ++ l2)
  = first_from seen l1
    ++ first_from (list_to_set (map payload l1) ∪ seen) l2.
Proof.
  revert seen. induction l1 as [|l l1 IH]; intros seen.
  { simpl. by rewrite (left_id_L ∅ (∪)). }
  cbn [app first_from map list_to_set]. case_bool_decide as Hp.
  - rewrite IH. do 2 f_equal. set_solver.
  - rewrite IH. cbn [app]. do 3 f_equal. set_solver.
Qed.

Lemma kept_lines_read_back (text : pystr) :
  readlines (universal_newlines (deduplicate_rpt text))
  = kept_lines ∅ (readlines (universal_newlines text)).
Proof.
  unfold deduplicate_rpt. cbv zeta. rewrite dedup_loop_kept.
  apply readlines_written.
  eapply lines_wf_sublist; [apply kept_lines_sublist|apply readlines_wf].
Qed.

Lemma source_lines_deduplicated (text : pystr) :
  source_lines (deduplicate_rpt text) = first_by_payload (source_lines text).
Proof.
  unfold source_lines. rewrite kept_lines_read_back.
  apply kept_lines_sources.
Qed.

(** C2: after the pass, the source lines of the file are the source lines
    it had whose payload had not come before, in their order; so no two of
    them have the same payload, their payloads are the first occurrences of
    the payloads there were, and a source line whose payload none before it
    has is kept, right after the kept ones among those before it. *)
Theorem C2_kept_records_are_first_by_payload (text : pystr) :
  source_lines (deduplicate_rpt text) = first_by_payload (source_lines text)
  ∧ NoDup (map payload (source_lines (deduplicate_rpt text)))
  ∧ map payload (source_lines (deduplicate_rpt text))
    = first_occurrences (map payload (source_lines text))
  ∧ source_lines (deduplicate_rpt text) `sublist_of` source_lines text
  ∧ (∀ before line after,
       source_lines text = before ++ line :: after →
       payload line ∉ map payload before →
       ∃ tail, source_lines (deduplicate_rpt text)
               = first_by_payload before ++ line :: tail)
  ∧ (∀ before line after,
       source_lines text = before ++ line :: after →
       payload line ∈ map payload before →
       ∃ tail, source_lines (deduplicate_rpt text)
               = first_by_payload before ++ tail
               ∧ payload line ∉ map payload tail).
Proof.
  rewrite source_lines_deduplicated. split_and!.
  - done.
  - rewrite first_by_payload_payloads. apply first_occurrences_NoDup.
  - apply first_by_payload_payloads.
  - apply first_from_sublist.
  - intros before line after -> Hp. unfold first_by_payload.
    rewrite first_from_app. cbn [first_from].
    rewrite bool_decide_false by set_solver. eauto.
  - intros before line after -> Hp. unfold first_by_payload.
    rewrite first_from_app. cbn [first_from].
    rewrite bool_decide_true by set_solver.
    eexists. split; [done|].
    rewrite first_from_payloads, list_elem_of_filter. set_solver.
Qed.

(** C3: the pass changes nothing in a file it has already been through. *)
Theorem C3_deduplicate_rpt_idempotent (text : pystr) :
  deduplicate_rpt (deduplicate_rpt text) = deduplicate_rpt text.
Proof.
  unfold deduplicate_rpt at 1. cbv zeta.
  rewrite kept_lines_read_back, dedup_loop_kept.
  rewrite kept_lines_all.
  - unfold deduplicate_rpt. cbv zeta. by rewrite dedup_loop_kept.
  - rewrite kept_lines_sources. apply first_from_idemp.
Qed.

Example deduplicate_rpt_example :
  deduplicate_rpt
    (py "< a" ++ [NL] ++ py "> " ++ [NL; NL]
     ++ py "title" ++ [CR; NL]
     ++ py "< a  " ++ [NL] ++ py "> x" ++ [NL; NL]
     ++ py "< b")
  = py "< a" ++ [CR; NL] ++ py "> " ++ [CR; NL; CR; NL]
    ++ py "title" ++ [CR; NL] ++ py "< b".
Proof. vm_compute. reflexivity. Qed.

(** ** Runs on small inputs *)

(** A one-line triple-quoted block: the single-line pattern gives the empty
    text at its opening, the multi-line pattern the line trimmed. *)
Example one_line_block_texts :
  let '(single_re, multi_re) := build_patterns [py "e"] in
  dialogues_of no_ucd_names single_re multi_re
    (py "e " ++ [DQ; DQ; DQ; NL] ++ py "   Hello there  " ++ [NL; DQ; DQ; DQ; NL])
  = Some [[]; py "Hello there"]
  ∧ unique_texts_of [[]; py "Hello there"] = [py "Hello there"].
Proof. split; vm_compute; reflexivity. Qed.

(** A script that defines [eve] and has her say a text with an escaped
    newline: one record, the newline written as backslash-n again. *)
Example hello_world_run :
  main no_unicode_alnum no_ucd_names (game_args false)
    (World no_other_paths [(py "game/script.rpy",
             py "define eve = Character('Eve')" ++ [NL]
             ++ py "eve " ++ [DQ] ++ py "Hello\nWorld" ++ [DQ; NL])]
           None [])
  = Ok ()
      (World no_other_paths [(py "game/script.rpy",
               py "define eve = Character('Eve')" ++ [NL]
               ++ py "eve " ++ [DQ] ++ py "Hello\nWorld" ++ [DQ; NL])]
         (Some (py "< Hello\nWorld" ++ [CR; NL] ++ py "> " ++ [CR; NL; CR; NL]))
         [TemplateWritten; CharacterScan (py "game/script.rpy");
          DialogueScan (py "game/script.rpy");
          TemplateAppended; TemplateDeduplicated]).
Proof. vm_compute. reflexivity. Qed.

(** The same line in two sources gives one record. *)
Example same_line_twice_run :
  ∃ w,
    main no_unicode_alnum no_ucd_names (game_args true)
      (World no_other_paths [(py "game/a.rpy", py "e " ++ [DQ] ++ py "Hi" ++ [DQ; NL]);
              (py "game/script.rpy",
               py "$ e = Character('Eve')" ++ [NL]
               ++ py "e " ++ [DQ] ++ py "Hi" ++ [DQ; NL])]
             None [])
    = Ok () w
    ∧ template w
      = Some (py "< Hi" ++ [CR; NL] ++ py "> Hi" ++ [CR; NL; CR; NL]).
Proof. eexists. split; vm_compute; reflexivity. Qed.

(** ** The theorems at concrete inputs *)

Lemma C2_kept_records_witness :
  ∃ tail,
    source_lines
      (deduplicate_rpt
         (py "< a" ++ [NL] ++ py "> " ++ [NL; NL]
          ++ py "< a" ++ [NL] ++ py "> x" ++ [NL; NL] ++ py "< b" ++ [NL]))
    = first_by_payload [] ++ (py "< a" ++ [NL]) :: tail.
Proof.
  apply (proj1 (proj2 (proj2 (proj2 (proj2
           (C2_kept_records_are_first_by_payload
              (py "< a" ++ [NL] ++ py "> " ++ [NL; NL]
               ++ py "< a" ++ [NL] ++ py "> x" ++ [NL; NL]
               ++ py "< b" ++ [NL]))))))
         [] (py "< a" ++ [NL]) [py "< a" ++ [NL]; py "< b" ++ [NL]]).
  - vm_compute. reflexivity.
  - apply not_elem_of_nil.
Defined.

Lemma C5_main_records_witness :
  ∃ first all_texts,
    run_dialogues no_unicode_alnum no_ucd_names (game_args true)
      (World no_other_paths
         [(py "game/screens.rpy", label_only_screens);
          (py "game/script.rpy",
           py "define e = Character('Eve')" ++ [NL]
           ++ py "e " ++ [DQ] ++ py "a\\b\nc" ++ [DQ; NL])]
         None [])
    = Some all_texts
    ∧ (first = []
       ∨ ∃ labels,
           first
           = concat (map (template_record (fill_template (game_args true))
                            [NL])
                       (labels ++ empty_slots
                        ++ [py "Are you sure you want to quit?"]
                        ++ joystick_lines)))
    ∧ template
        (World no_other_paths
           [(py "game/screens.rpy", label_only_screens);
            (py "game/script.rpy",
             py "define e = Character('Eve')" ++ [NL]
             ++ py "e " ++ [DQ] ++ py "a\\b\nc" ++ [DQ; NL])]
           (Some (deduplicate_rpt
                    (screens_template true [py "Start Game"; py "Quit"]
                     ++ template_record true [CR; NL]
                          (py "a\b" ++ [NL] ++ py "c"))))
           [ScreenTextScan (py "game/screens.rpy"); TemplateWritten;
            CharacterScan (py "game/script.rpy");
            CharacterScan (py "game/screens.rpy");
            DialogueScan (py "game/script.rpy");
            DialogueScan (py "game/screens.rpy");
            TemplateAppended; TemplateDeduplicated])
      = Some (deduplicate_rpt
                (first
                 ++ concat (map (template_record
                                   (fill_template (game_args true)) [CR; NL])
                              (unique_texts_of all_texts)))).
Proof.
  apply (proj1 (proj2 (proj2 (proj2 (proj2 (proj2 (proj2 (proj2
           C5_quote_escapes_backslash_then_newline)))))))
         no_unicode_alnum no_ucd_names (game_args true)
         (World no_other_paths
            [(py "game/screens.rpy", label_only_screens);
             (py "game/script.rpy",
              py "define e = Character('Eve')" ++ [NL]
              ++ py "e " ++ [DQ] ++ py "a\\b\nc" ++ [DQ; NL])]
            None [])).
  vm_compute. reflexivity.
Defined.

Lemma C8_one_line_block_witness :
  multi_line_text (py "   Hello there") = strip (py "   Hello there")
  ∧ NL ∉ multi_line_text (py "   Hello there").
Proof.
  apply (proj1 (proj2 (proj2 C8_multi_line_block_text))
           (py "   Hello there") (py "   Hello there")).
  vm_compute. reflexivity.
Defined.

Lemma C9_menu_choice_witness :
  ∃ more,
    menu_choices (py "    " ++ DQ :: py "Go left " ++ DQ :: 58 :: [NL])
    = strip (py "Go left ") :: more.
Proof.
  apply (proj1 (proj2 (proj2
                  C9_menu_choice_matches_any_quoted_line_with_colon))
           (py "    ") (py "Go left ") [NL]).
  - vm_compute. reflexivity.
  - discriminate.
  - vm_compute. reflexivity.
Defined.

Lemma C10_writer_witness :
  ∃ m,
    match_here (fst (build_patterns [py "e"])) 0 None
      ([] ++ py "e" ++ py " " ++ DQ :: DQ :: DQ :: [NL]) false = Some m
    ∧ group m "text" = []
    ∧ strip <$> unescape no_ucd_names (group m "text") = Some []
    ∧ [] ∉ unique_texts_of [[]].
Proof.
  apply (proj1 (proj2 (proj2 C10_writer_gets_no_empty_text))
           no_ucd_names [py "e"] (py "e") 0%nat None [] (py " ") [NL]).
  - left. reflexivity.
  - apply list_elem_of_here.
  - discriminate.
  - repeat constructor.
  - reflexivity.
  - discriminate.
  - vm_compute. reflexivity.
Defined.

(** ** More on the escaper *)

Lemma escape_char_no_newline (c : N) : Forall (λ d, d ≠ NL) (escape_char c).
Proof.
  unfold escape_char. destruct (N.eqb_spec c BSL) as [->|Hb].
  { by repeat constructor. }
  destruct (N.eqb_spec c NL) as [->|Hn]; by repeat constructor.
Qed.

Lemma quote_no_newline (s : pystr) : Forall (λ c, c ≠ NL) (quote s).
Proof.
  rewrite quote_flat_map. induction s as [|c t IH]; [constructor|].
  simpl. apply Forall_app. split; [apply escape_char_no_newline|done].
Qed.

Lemma readlines_from_no_newline (body cur rest : pystr) :
  Forall (λ c, c ≠ NL) body →
  readlines_from cur (body ++ NL :: rest)
  = (cur ++ body ++ [NL]) :: readlines_from [] rest.
Proof.
  intros Hb. apply readlines_from_body. intros Hin.
  rewrite Forall_forall in Hb. by apply Hb in Hin.
Qed.

Lemma py_no_newline_lt : Forall (λ c, c ≠ NL) (py "< ").
Proof. by repeat constructor. Qed.

Lemma py_no_newline_gt : Forall (λ c, c ≠ NL) (py "> ").
Proof. by repeat constructor. Qed.

(** X1: the escaped form of a text has no newline in it, whatever the text;
    so a record of the first writer is three lines when read back: the
    source line, the translation line and a blank line. *)
Theorem quote_keeps_a_record_on_three_lines :
  (∀ s, Forall (λ c, c ≠ NL) (quote s))
  ∧ (∀ fill orig,
       readlines (template_record fill [NL] orig)
       = [py "< " ++ quote orig ++ [NL];
          py "> " ++ (if fill then quote orig else []) ++ [NL];
          [NL]]).
Proof.
  split; [apply quote_no_newline|].
  intros fill orig. unfold template_record, readlines. cbv zeta.
  rewrite <- !app_assoc.
  repeat change ([NL] ++ ?x) with (NL :: x).
  rewrite (app_assoc (py "< ")).
  rewrite readlines_from_no_newline
    by (apply Forall_app; split; [apply py_no_newline_lt|apply quote_no_newline]).
  rewrite (app_assoc (py "> ")).
  rewrite readlines_from_no_newline.
  - by rewrite <- !app_assoc.
  - apply Forall_app. split; [apply py_no_newline_gt|].
    destruct fill; [apply quote_no_newline|constructor].
Qed.

(** X2: two texts with the same escaped form are the same text. *)
Theorem quote_injective (s t : pystr) : quote s = quote t → s = t.
Proof.
  rewrite !quote_flat_map. intros Heq.
  pose proof (decode_escaped no_ucd_names s) as Hs.
  rewrite Heq, decode_escaped in Hs. by injection Hs.
Qed.

Lemma quote_injective_witness :
  py "a\b" ++ [NL] ++ py "c" = py "a\b" ++ NL :: py "c".
Proof.
  apply (quote_injective (py "a\b" ++ [NL] ++ py "c")
           (py "a\b" ++ NL :: py "c")).
  vm_compute. reflexivity.
Defined.

Lemma escape_char_length (c : N) : (1 ≤ length (escape_char c))%nat.
Proof.
  unfold escape_char. destruct (c =? BSL); [simpl; lia|].
  destruct (c =? NL); simpl; lia.
Qed.

Lemma quote_length (s : pystr) : (length s ≤ length (quote s))%nat.
Proof.
  rewrite quote_flat_map. induction s as [|c t IH]; [done|].
  cbn [flat_map length]. rewrite length_app.
  pose proof (escape_char_length c). lia.
Qed.

Lemma quote_cons (c : N) (t : pystr) : quote (c :: t) = escape_char c ++ quote t.
Proof. by rewrite !quote_flat_map. Qed.

(** X3: [quote] leaves a text as it is exactly when the text has neither a
    backslash nor a newline; it never makes a text shorter, and the escaped
    form of two texts put together is the two escaped forms put together. *)
Theorem quote_identity_exactly_on_plain_text :
  (∀ s, quote s = s ↔ Forall (λ c, c ≠ BSL ∧ c ≠ NL) s)
  ∧ (∀ s, (length s ≤ length (quote s))%nat)
  ∧ (∀ s t, quote (s ++ t) = quote s ++ quote t).
Proof.
  split_and!.
  - induction s as [|c t IH]; [by split; [constructor|]|].
    rewrite quote_cons, Forall_cons. unfold escape_char.
    destruct (N.eqb_spec c BSL) as [->|Hb].
    { split; [|by intros [[? _] _]]. intros Heq.
      apply (f_equal length) in Heq. simpl in Heq.
      pose proof (quote_length t). lia. }
    destruct (N.eqb_spec c NL) as [->|Hn].
    { split; [|by intros [[_ ?] _]]. intros Heq.
      apply (f_equal length) in Heq. simpl in Heq.
      pose proof (quote_length t). lia. }
    simpl. split.
    + intros [= Heq]. split; [done|]. by apply IH.
    + intros [_ Ht]. f_equal. by apply IH.
  - apply quote_length.
  - intros s t. by rewrite !quote_flat_map, flat_map_app.
Qed.

Lemma high_byte_plain (a b : N) : 128 ≤ a → a + b ≠ BSL.
Proof. unfold BSL. lia. Qed.

Lemma utf8_char_plain (c : N) (cb : bytes) :
  utf8_char c = Some cb → c ≠ BSL → Forall (λ b, b ≠ BSL) cb.
Proof.
  unfold utf8_char. intros H Hc.
  destruct (N.ltb_spec c 128); [injection H as <-; by repeat constructor|].
  destruct (c <? 2048);
    [injection H as <-; repeat constructor; by apply high_byte_plain|].
  destruct ((55296 <=? c) && (c <=? 57343)); [done|].
  destruct (c <? 65536);
    [injection H as <-; repeat constructor; by apply high_byte_plain|].
  destruct (c <? 1114112); [|done].
  injection H as <-; repeat constructor; by apply high_byte_plain.
Qed.

Lemma utf8_char_length (c : N) (cb : bytes) :
  utf8_char c = Some cb →
  (1 ≤ length cb)%nat ∧ (length cb = 1%nat → c < 128 ∧ cb = [c]).
Proof.
  unfold utf8_char. intros H.
  destruct (N.ltb_spec c 128); [injection H as <-; simpl; split; [lia|done]|].
  destruct (c <? 2048); [injection H as <-; simpl; split; [lia|done]|].
  destruct ((55296 <=? c) && (c <=? 57343)); [done|].
  destruct (c <? 65536); [injection H as <-; simpl; split; [lia|done]|].
  destruct (c <? 1114112); [|done].
  injection H as <-; simpl; split; [lia|done].
Qed.

Lemma decode_from_plain_app ucd (cb b : bytes) :
  Forall (λ x, x ≠ BSL) cb →
  decode_from ucd 0 (cb ++ b) = app cb <$> decode_from ucd 0 b.
Proof.
  induction 1 as [|x cb Hx _ IH]; simpl app.
  { by destruct (decode_from ucd 0 b). }
  rewrite decode_from_plain, IH by done.
  by destruct (decode_from ucd 0 b).
Qed.

Lemma encode_utf8_cons (c : N) (t : pystr) :
  encode_utf8 (c :: t)
  = match utf8_char c, encode_utf8 t with
    | Some b, Some bs => Some (b ++ bs)
    | _, _ => None
    end.
Proof. done. Qed.

Lemma unescape_escaped ucd (s : pystr) :
  encode_utf8 (flat_map escape_char s) ≫= decode_from ucd 0 = encode_utf8 s.
Proof.
  induction s as [|c t IH]; [done|].
  cbn [flat_map]. rewrite encode_utf8_app, encode_utf8_cons.
  unfold escape_char at 1.
  destruct (N.eqb_spec c BSL) as [->|Hb].
  { change (encode_utf8 [BSL; BSL]) with (Some [BSL; BSL]).
    change (utf8_char BSL) with (Some [BSL]).
    destruct (encode_utf8 (flat_map escape_char t)) as [b|].
    - simpl mbind. simpl app. simpl in IH. rewrite IH.
      by destruct (encode_utf8 t).
    - simpl in IH. by rewrite <- IH. }
  destruct (N.eqb_spec c NL) as [->|Hn].
  { change (encode_utf8 [BSL; 110]) with (Some [BSL; 110]).
    change (utf8_char NL) with (Some [NL]).
    destruct (encode_utf8 (flat_map escape_char t)) as [b|].
    - simpl mbind. simpl app. simpl in IH. rewrite IH.
      by destruct (encode_utf8 t).
    - simpl in IH. by rewrite <- IH. }
  rewrite (encode_utf8_cons c []). simpl (encode_utf8 []).
  destruct (utf8_char c) as [cb|] eqn:Hc; [|done].
  rewrite app_nil_r.
  destruct (encode_utf8 (flat_map escape_char t)) as [b|].
  - simpl mbind. rewrite decode_from_plain_app
      by (by apply (utf8_char_plain c)).
    simpl in IH. rewrite IH. by destruct (encode_utf8 t).
  - simpl in IH. by rewrite <- IH.
Qed.

Lemma encode_utf8_length (s : pystr) :
  ∀ bs, encode_utf8 s = Some bs →
        (length s ≤ length bs)%nat
        ∧ (length bs = length s → Forall (λ c, c < 128) s).
Proof.
  induction s as [|c t IH]; intros bs.
  { intros [= <-]. split; [done|constructor]. }
  rewrite encode_utf8_cons.
  destruct (utf8_char c) as [cb|] eqn:Hc; [|done].
  destruct (encode_utf8 t) as [bt|]; [|done].
  intros [= <-]. destruct (IH bt eq_refl) as [Hle Hall].
  destruct (utf8_char_length c cb Hc) as [H1 Hone].
  rewrite length_app. simpl. split; [lia|].
  intros Hlen. constructor.
  - apply Hone. lia.
  - apply Hall. lia.
Qed.

(** X4: decoding the escaped form of a text as the single-line scan decodes
    a body gives the UTF-8 bytes of the text, each byte read as a character;
    so the text comes back exactly when all its characters are ASCII. *)
Theorem unescape_quote_gives_utf8_bytes :
  (∀ ucd s, unescape ucd (quote s) = encode_utf8 s)
  ∧ (∀ ucd s, unescape ucd (quote s) = Some s ↔ Forall (λ c, c < 128) s).
Proof.
  assert (∀ ucd s, unescape ucd (quote s) = encode_utf8 s) as Hbytes.
  { intros ucd s. unfold unescape, decode_unicode_escape.
    rewrite quote_flat_map. apply unescape_escaped. }
  split; [done|]. intros ucd s. rewrite Hbytes. split.
  - intros Hs. by apply (encode_utf8_length s s).
  - apply encode_utf8_ascii.
Qed.

(** ** Decoding of single-line bodies *)

Lemma plain_ascii_split (s : pystr) :
  Forall (λ c, c < 128 ∧ c ≠ BSL) s →
  Forall (λ c, c < 128) s ∧ Forall (λ c, c ≠ BSL) s.
Proof. intros H. split; (eapply Forall_impl; [exact H|]); by intros c [? ?]. Qed.

Lemma unescape_plain_prefix ucd (pre post : pystr) :
  Forall (λ c, c < 128 ∧ c ≠ BSL) pre →
  unescape ucd (pre ++ post) = app pre <$> unescape ucd post.
Proof.
  intros [Hascii Hplain]%plain_ascii_split.
  unfold unescape, decode_unicode_escape.
  rewrite encode_utf8_app, encode_utf8_ascii by done.
  destruct (encode_utf8 post) as [b|]; [|done].
  simpl mbind. by apply decode_from_plain_app.
Qed.

Lemma unescape_simple_escape ucd (c : N) (out post : pystr) :
  c < 128 →
  (∀ t, escape_at ucd (c :: t) = Some (out, 1%nat)) →
  unescape ucd (BSL :: c :: post) = app out <$> unescape ucd post.
Proof.
  intros Hc Hesc. unfold unescape, decode_unicode_escape.
  rewrite !encode_utf8_cons. change (utf8_char BSL) with (Some [BSL]).
  unfold utf8_char at 1. destruct (N.ltb_spec c 128); [|lia].
  destruct (encode_utf8 post) as [b|]; [|done].
  simpl mbind. simpl app. by apply decode_from_backslash.
Qed.

(** X5: the decoding of a single-line body leaves ASCII text without a
    backslash as it is, and after such text turns backslash-n into a
    newline, an escaped quote into a quote and a doubled backslash into one
    backslash, going on with what follows. *)
Theorem unescape_keeps_plain_ascii_and_decodes_escapes :
  (∀ ucd s, Forall (λ c, c < 128 ∧ c ≠ BSL) s → unescape ucd s = Some s)
  ∧ (∀ ucd pre post,
       Forall (λ c, c < 128 ∧ c ≠ BSL) pre →
       unescape ucd (pre ++ BSL :: 110 :: post)
       = (λ r, pre ++ NL :: r) <$> unescape ucd post)
  ∧ (∀ ucd pre post,
       Forall (λ c, c < 128 ∧ c ≠ BSL) pre →
       unescape ucd (pre ++ BSL :: DQ :: post)
       = (λ r, pre ++ DQ :: r) <$> unescape ucd post)
  ∧ (∀ ucd pre post,
       Forall (λ c, c < 128 ∧ c ≠ BSL) pre →
       unescape ucd (pre ++ BSL :: BSL :: post)
       = (λ r, pre ++ BSL :: r) <$> unescape ucd post).
Proof.
  split_and!.
  - intros ucd s Hs. rewrite <- (app_nil_r s) at 1.
    rewrite unescape_plain_prefix by done. simpl. by rewrite app_nil_r.
  - intros ucd pre post Hpre. rewrite unescape_plain_prefix by done.
    rewrite (unescape_simple_escape ucd 110 [NL]) by done.
    by destruct (unescape ucd post).
  - intros ucd pre post Hpre. rewrite unescape_plain_prefix by done.
    rewrite (unescape_simple_escape ucd DQ [DQ]) by done.
    by destruct (unescape ucd post).
  - intros ucd pre post Hpre. rewrite unescape_plain_prefix by done.
    rewrite (unescape_simple_escape ucd BSL [BSL]) by done.
    by destruct (unescape ucd post).
Qed.

Lemma decode_from_truncated_hex ucd (post : bytes) :
  hex_digits 2 0 post = None → decode_from ucd 0 (BSL :: 120 :: post) = None.
Proof.
  intros Hhex. destruct post as [|b [|b0 post]]; simpl in *.
  - done.
  - by destruct (hex_value b).
  - destruct (hex_value b); [|done]. by destruct (hex_value b0).
Qed.

(** X6: a body in which ASCII text without a backslash is followed by
    backslash-x and then by something other than two hexadecimal digits
    does not decode: the decoding ends in an error. *)
Theorem unescape_fails_on_truncated_hex_escape ucd (pre post : pystr) :
  Forall (λ c, c < 128 ∧ c ≠ BSL) pre →
  Forall (λ c, c < 128) post →
  hex_digits 2 0 post = None →
  unescape ucd (pre ++ BSL :: 120 :: post) = None.
Proof.
  intros Hpre Hpost Hhex. rewrite unescape_plain_prefix by done.
  unfold unescape, decode_unicode_escape.
  rewrite !encode_utf8_cons, encode_utf8_ascii by done.
  change (utf8_char BSL) with (Some [BSL]).
  change (utf8_char 120) with (Some [120]).
  cbn [mbind option_bind].
  change ([BSL] ++ [120] ++ post) with (BSL :: 120 :: post).
  by rewrite decode_from_truncated_hex.
Qed.

Lemma unescape_fails_on_truncated_hex_escape_witness :
  unescape no_ucd_names (py "ab" ++ BSL :: 120 :: py "4z") = None.
Proof.
  apply (unescape_fails_on_truncated_hex_escape no_ucd_names
           (py "ab") (py "4z")).
  - repeat constructor; done.
  - repeat constructor.
  - reflexivity.
Defined.

(** ** Single-line pattern at a dialogue line *)

Lemma body_token_cases (t : pystr) :
  body_token t = true →
  (∃ c, t = [c] ∧ not_in [DQ; BSL] c = true)
  ∨ (∃ d, t = [BSL; d] ∧ any_but_newline d = true).
Proof.
  destruct t as [|c [|d [|e t]]]; simpl; try done.
  - intros Hc. left. by exists c.
  - intros [->%N.eqb_eq Hd]%andb_true_iff. right. by exists d.
Qed.

Lemma star_loop_succ
    (body : cursor → (cursor → option cursor) → option cursor) (g : bool)
    (k : cursor → option cursor) (n : nat) (st : cursor) :
  star_loop body g k (S n) st
  = let again :=
      body st (λ st', if (length (rest st') <? length (rest st))%nat
                      then star_loop body g k n st' else None) in
    if g then or_else again (k st) else or_else (k st) again.
Proof. done. Qed.

Lemma rmatch_alt (a b : regex) (st : cursor) (k : cursor → option cursor) :
  rmatch (Alt a b) st k = or_else (rmatch a st k) (rmatch b st k).
Proof. done. Qed.

Lemma rmatch_cls_cons (p : N → bool) (k : cursor → option cursor) (q : nat)
    (pv : option N) (c : N) (r : pystr) (cs : gmap string pystr) :
  rmatch (Cls p) (Cursor q pv (c :: r) cs) k
  = if p c then k (Cursor (S q) (Some c) r cs) else None.
Proof. done. Qed.

(** The greedy repetition of the body takes every step of the body up to
    the closing quote. *)
Lemma star_loop_body_tokens (k : cursor → option cursor) (tail : pystr)
    (tokens : list pystr) :
  ∀ (n q : nat) (pv : option N) (cs : gmap string pystr) x,
    forallb body_token tokens = true →
    (length (concat tokens ++ DQ :: tail) < n)%nat →
    k (Cursor (q + length (concat tokens)) (prev_after pv (concat tokens))
         (DQ :: tail) cs) = Some x →
    star_loop (rmatch (Alt (Cls (not_in [DQ; BSL]))
                           (Seq (Chr BSL) (Cls any_but_newline))))
      true k n (Cursor q pv (concat tokens ++ DQ :: tail) cs) = Some x.
Proof.
  induction tokens as [|t tokens IH]; intros n q pv cs x Htok Hn Hk.
  - destruct n as [|n]; [simpl in Hn; lia|].
    cbn [concat app length] in *. rewrite Nat.add_0_r in Hk.
    rewrite star_loop_succ. cbv zeta.
    rewrite rmatch_alt, rmatch_cls_cons, rmatch_seq.
    rewrite rmatch_chr_ne by done. simpl. exact Hk.
  - destruct n as [|n]; [simpl in Hn; lia|].
    simpl in Htok. apply andb_true_iff in Htok as [Ht Htok].
    cbn [concat] in *. rewrite length_app in Hk.
    destruct (body_token_cases t Ht) as [(c & -> & Hc)|(d & -> & Hd)].
    + cbn [app length] in *. rewrite star_loop_succ. cbv zeta.
      rewrite rmatch_alt, rmatch_cls_cons, Hc.
      cbn [rest length]. rewrite (proj2 (Nat.ltb_lt _ _)) by lia.
      rewrite (IH n (S q) (Some c) cs x); [done|done|lia|].
      rewrite prev_after_cons with (pv := pv).
      rewrite <- Hk. do 2 f_equal. lia.
    + cbn [app length] in *. rewrite star_loop_succ. cbv zeta.
      rewrite rmatch_alt, rmatch_cls_cons.
      change (not_in [DQ; BSL] BSL) with false. cbn [or_else].
      rewrite rmatch_seq, rmatch_chr, rmatch_cls_cons, Hd.
      cbn [rest length]. rewrite (proj2 (Nat.ltb_lt _ _)) by lia.
      rewrite (IH n (S (S q)) (Some d) cs x); [done|done|lia|].
      rewrite prev_after_cons with (pv := Some BSL).
      rewrite prev_after_cons with (pv := pv).
      rewrite <- Hk. do 2 f_equal. lia.
Qed.

Lemma single_re_at_dialogue (names : list pystr) (name : pystr)
    (p : nat) (pv : option N) (indent gap tail : pystr)
    (tokens : list pystr) :
  pv = None ∨ pv = Some NL →
  name ∈ names → name ≠ [] →
  Forall (λ n, forallb (λ c, negb (is_space c)) n = true) names →
  forallb is_space indent = true →
  gap ≠ [] → forallb is_space gap = true →
  forallb body_token tokens = true →
  match_here (fst (build_patterns names)) p pv
    (indent ++ name ++ gap ++ DQ :: concat tokens ++ DQ :: tail) false
  = Some (ReMatch p
            (p + length indent + length name + length gap
             + length (concat tokens) + 2)
            (<["text" := concat tokens]> (<["char" := name]> ∅))).
Proof.
  intros Hbol Hin Hne Hnames Hind Hgne Hgap Htok. unfold match_here.
  assert (rmatch (fst (build_patterns names))
            (Cursor p pv
               (indent ++ name ++ gap ++ DQ :: concat tokens ++ DQ :: tail) ∅)
            (λ st', if false && (pos st' =? p)%nat then None else Some st')
          = Some (Cursor (p + length indent + length name + length gap
                          + length (concat tokens) + 2)
                    (Some DQ) tail
                    (<["text" := concat tokens]> (<["char" := name]> ∅))))
    as ->; [|done].
  assert (forallb (λ c, negb (is_space c)) name = true) as Hname.
  { rewrite Forall_forall in Hnames. by apply Hnames. }
  destruct gap as [|g gap]; [done|]. simpl in Hgap.
  apply andb_true_iff in Hgap as [Hg Hgap].
  cbn [build_patterns fst].
  rewrite rmatch_seq, rmatch_bol by (by destruct Hbol as [->| ->]).
  rewrite rmatch_seq. apply rmatch_star_cls; [done| |].
  { destruct name as [|c name]; [done|]. simpl in *.
    apply andb_true_iff in Hname as [Hc _]. by apply negb_true_iff. }
  rewrite rmatch_seq, rmatch_grp.
  apply names_pattern_pick with (name := name); [done| |].
  - intros n Hn Hnn.
    destruct (decide (n `prefix_of` name ++ (g :: gap)
                        ++ DQ :: concat tokens ++ DQ :: tail))
      as [[r Hr]|Hnp].
    + rewrite Hr, rmatch_lit. rewrite rmatch_seq. unfold Plus.
      rewrite rmatch_seq. apply rmatch_cls_stops.
      apply (other_name_stops n name g r
               (gap ++ DQ :: concat tokens ++ DQ :: tail));
        [done| |done..].
      rewrite Forall_forall in Hnames. by apply Hnames.
    + apply rmatch_lit_none. intros r Hr. apply Hnp. by exists r.
  - rewrite rmatch_lit. unfold set_group. cbn [pos prev rest caps].
    rewrite take_group, rmatch_seq.
    apply (rmatch_plus_cls is_space _ (g :: gap)); [done| |done|].
    { simpl. by rewrite Hg, Hgap. }
    rewrite rmatch_seq, rmatch_chr, rmatch_seq, rmatch_grp.
    cbn [rmatch]. apply star_loop_body_tokens; [done|cbn [rest]; lia|].
    unfold set_group. cbn [pos prev rest caps].
    rewrite take_group, rmatch_chr. cbn [andb].
    do 2 f_equal. simpl. lia.
Qed.

Lemma group_insert_ne (p e : nat) (name other : string) (s : pystr)
    (groups : gmap string pystr) :
  other ≠ name →
  group (ReMatch p e (<[other := s]> groups)) name
  = group (ReMatch p e groups) name.
Proof. intros Hne. unfold group. simpl. by rewrite lookup_insert_ne. Qed.

(** X7: a line of a source that holds, after optional indentation, a known
    name, whitespace and a quoted body made of characters other than quote
    and backslash and of backslash pairs, is the first match of the
    single-line scan: the speaker is the name and the body is all there is
    up to the closing quote.  The text it gives is the body decoded and
    trimmed, and when the body does not decode the source gives no texts at
    all: the extraction ends in an error. *)
Theorem single_line_scan_takes_the_quoted_body
    ucd (names : list pystr) (name indent gap tail : pystr)
    (tokens : list pystr) :
  name ∈ names → name ≠ [] →
  Forall (λ n, forallb (λ c, negb (is_space c)) n = true) names →
  forallb is_space indent = true →
  gap ≠ [] → forallb is_space gap = true →
  forallb body_token tokens = true →
  ∃ m more,
    finditer (fst (build_patterns names))
      (indent ++ name ++ gap ++ DQ :: concat tokens ++ DQ :: tail)
    = m :: more
    ∧ group m "char" = name
    ∧ group m "text" = concat tokens
    ∧ (∀ texts,
         single_line_texts ucd (fst (build_patterns names))
           (indent ++ name ++ gap ++ DQ :: concat tokens ++ DQ :: tail)
         = Some texts →
         ∃ t others, unescape ucd (concat tokens) = Some t
                     ∧ texts = strip t :: others)
    ∧ (unescape ucd (concat tokens) = None →
       dialogues_of ucd (fst (build_patterns names))
         (snd (build_patterns names))
         (indent ++ name ++ gap ++ DQ :: concat tokens ++ DQ :: tail)
       = None).
Proof.
  intros Hin Hne Hnames Hind Hgne Hgap Htok.
  destruct (finditer_from_here (fst (build_patterns names)) 0 None
              (indent ++ name ++ gap ++ DQ :: concat tokens ++ DQ :: tail)
              (ReMatch 0
                 (0 + length indent + length name + length gap
                  + length (concat tokens) + 2)
                 (<["text" := concat tokens]> (<["char" := name]> ∅))))
    as [more Hmore].
  { apply single_re_at_dialogue; try done. by left. }
  { simpl. lia. }
  eexists _, more. split; [exact Hmore|].
  split; [by rewrite group_insert_ne, group_insert|].
  split; [by rewrite group_insert|].
  unfold dialogues_of, single_line_texts, finditer. rewrite Hmore.
  cbn [mapM]. rewrite group_insert.
  destruct (unescape ucd (concat tokens)) as [t|]; simpl.
  - split; [|done]. intros texts.
    destruct (mapM _ more) as [others|]; simpl; [|done].
    intros [= <-]. by exists t, others.
  - split; done.
Qed.

Lemma single_line_scan_witness :
  ∃ m more,
    finditer (fst (build_patterns [py "e"; py "eve"]))
      (py "  " ++ py "eve" ++ py " " ++ DQ
       :: concat [py "H"; py "i"; py "\n"; py "!"] ++ DQ :: [NL])
    = m :: more
    ∧ group m "char" = py "eve"
    ∧ group m "text" = concat [py "H"; py "i"; py "\n"; py "!"]
    ∧ (∀ texts,
         single_line_texts no_ucd_names
           (fst (build_patterns [py "e"; py "eve"]))
           (py "  " ++ py "eve" ++ py " " ++ DQ
            :: concat [py "H"; py "i"; py "\n"; py "!"] ++ DQ :: [NL])
         = Some texts →
         ∃ t others,
           unescape no_ucd_names (concat [py "H"; py "i"; py "\n"; py "!"])
           = Some t
           ∧ texts = strip t :: others)
    ∧ (unescape no_ucd_names (concat [py "H"; py "i"; py "\n"; py "!"]) = None →
       dialogues_of no_ucd_names (fst (build_patterns [py "e"; py "eve"]))
         (snd (build_patterns [py "e"; py "eve"]))
         (py "  " ++ py "eve" ++ py " " ++ DQ
          :: concat [py "H"; py "i"; py "\n"; py "!"] ++ DQ :: [NL])
       = None).
Proof.
  apply (single_line_scan_takes_the_quoted_body no_ucd_names
           [py "e"; py "eve"] (py "eve") (py "  ") (py " ") [NL]
           [py "H"; py "i"; py "\n"; py "!"]).
  - apply (bool_decide_unpack _). vm_compute. reflexivity.
  - discriminate.
  - repeat constructor.
  - reflexivity.
  - discriminate.
  - reflexivity.
  - vm_compute. reflexivity.
Defined.

(** ** What a capture group holds *)

(** A repetition hands on a position reached from its own by rounds of its
    body. *)
Lemma star_loop_reaches (R : cursor → cursor → Prop)
    (body : cursor → (cursor → option cursor) → option cursor) (g : bool)
    (k : cursor → option cursor) :
  (∀ st, R st st) →
  (∀ a b c, R a b → R b c → R a c) →
  (∀ st k' x, body st k' = Some x → ∃ st', k' st' = Some x ∧ R st st') →
  ∀ n st x, star_loop body g k n st = Some x →
            ∃ st', k st' = Some x ∧ R st st'.
Proof.
  intros Hrefl Htrans Hbody. induction n as [|n IH]; intros st x.
  { simpl. intros Hk. by exists st. }
  rewrite star_loop_succ. cbv zeta. intros Hx.
  assert (body st (λ st', if (length (rest st') <? length (rest st))%nat
                          then star_loop body g k n st' else None) = Some x
          ∨ k st = Some x) as [Hagain|Hk].
  { destruct g; apply or_else_some in Hx; tauto. }
  - apply Hbody in Hagain as (st1 & H1 & HR1).
    destruct (length (rest st1) <? length (rest st))%nat; [|done].
    apply IH in H1 as (st2 & H2 & HR2). exists st2. eauto.
  - by exists st.
Qed.

(** A pattern without a group leaves the captured groups as they are. *)
Lemma rmatch_group_free (r : regex) :
  group_free r = true →
  ∀ st k x, rmatch r st k = Some x →
            ∃ st', k st' = Some x ∧ caps st' = caps st.
Proof.
  induction r as [| |p|a IHa b IHb|a IHa b IHb|g a IHa|name a IHa];
    cbn [group_free]; intros Hg st k x; try done; cbn [rmatch].
  - intros Hk. by exists st.
  - destruct (at_line_start st); [|done]. intros Hk. by exists st.
  - destruct (rest st) as [|c t]; [done|]. destruct (p c); [|done].
    intros Hk. eexists. split; [exact Hk|]. done.
  - apply andb_true_iff in Hg as [Ha Hb].
    intros (st1 & H1 & Hc1)%(IHa Ha).
    apply (IHb Hb) in H1 as (st2 & H2 & Hc2).
    exists st2. split; [done|congruence].
  - apply andb_true_iff in Hg as [Ha Hb].
    intros [H|H]%or_else_some; [by apply IHa|by apply IHb].
  - apply (star_loop_reaches (λ st st', caps st' = caps st));
      [done|congruence|by apply IHa].
Qed.

(** The characters a repetition of a class has taken are in the class. *)
Lemma star_loop_cls_taken (p : N → bool) (g : bool)
    (k : cursor → option cursor) :
  ∀ n st x,
    star_loop (rmatch (Cls p)) g k n st = Some x →
    ∃ w r, forallb p w = true ∧ rest st = w ++ r
           ∧ k (Cursor (pos st + length w) (prev_after (prev st) w) r
                  (caps st)) = Some x.
Proof.
  induction n as [|n IH]; intros st x.
  { simpl. intros Hk. exists [], (rest st). split_and!; [done..|].
    rewrite Nat.add_0_r. by destruct st. }
  rewrite star_loop_succ. cbv zeta. intros Hx.
  assert (rmatch (Cls p) st
            (λ st', if (length (rest st') <? length (rest st))%nat
                    then star_loop (rmatch (Cls p)) g k n st' else None)
          = Some x
          ∨ k st = Some x) as [Hagain|Hk].
  { destruct g; apply or_else_some in Hx; tauto. }
  - destruct st as [q pv s cs]. destruct s as [|c t]; [done|].
    rewrite rmatch_cls_cons in Hagain. destruct (p c) eqn:Hc; [|done].
    cbn [rest] in Hagain.
    destruct (length t <? length (c :: t))%nat; [|done].
    apply IH in Hagain as (w & r & Hw & Hr & Hk). cbn [pos prev rest caps] in *.
    exists (c :: w), r. split_and!.
    + simpl. by rewrite Hc, Hw.
    + by rewrite Hr.
    + rewrite <- prev_after_cons with (c := c).
      rewrite <- Hk. do 2 f_equal. simpl. lia.
  - exists [], (rest st). split_and!; [done..|].
    rewrite Nat.add_0_r. by destruct st.
Qed.

Lemma rmatch_plus_cls_taken (p : N → bool) (g : bool) (st : cursor)
    (k : cursor → option cursor) (x : cursor) :
  rmatch (Plus g (Cls p)) st k = Some x →
  ∃ w r, w ≠ [] ∧ forallb p w = true ∧ rest st = w ++ r
         ∧ k (Cursor (pos st + length w) (prev_after (prev st) w) r
                (caps st)) = Some x.
Proof.
  unfold Plus. rewrite rmatch_seq. destruct st as [q pv s cs].
  destruct s as [|c t]; [done|]. rewrite rmatch_cls_cons.
  destruct (p c) eqn:Hc; [|done]. cbn [rmatch].
  intros (w & r & Hw & Hr & Hk)%star_loop_cls_taken.
  cbn [pos prev rest caps] in *.
  exists (c :: w), r. split_and!.
  - done.
  - simpl. by rewrite Hc, Hw.
  - by rewrite Hr.
  - rewrite <- prev_after_cons with (c := c).
    rewrite <- Hk. do 2 f_equal. simpl. lia.
Qed.

(** In a pattern that ends with a group over one or more characters of a
    class and a part without groups, a match has in the group a non-empty
    text of characters of the class. *)
Lemma rmatch_captured (pre post : regex) (name : string) (p : N → bool)
    (g : bool) (st : cursor) (k : cursor → option cursor) (x : cursor) :
  group_free post = true →
  rmatch (Seq pre (Seq (Grp name (Plus g (Cls p))) post)) st k = Some x →
  ∃ st' w, k st' = Some x ∧ w ≠ [] ∧ forallb p w = true
           ∧ caps st' !! name = Some w.
Proof.
  intros Hpost. rewrite rmatch_seq.
  intros (st1 & H1 & _)%rmatch_advances.
  rewrite rmatch_seq, rmatch_grp in H1.
  apply rmatch_plus_cls_taken in H1 as (w & r & Hne & Hw & Hr & H1).
  apply (rmatch_group_free post Hpost) in H1 as (st' & Hk & Hcaps).
  exists st', w. split_and!; [done..|].
  rewrite Hcaps. unfold set_group. cbn [pos rest caps].
  rewrite Hr, take_group. apply lookup_insert_eq.
Qed.

Lemma match_here_captured (r pre post : regex) (name : string)
    (p : N → bool) (g : bool) (q : nat) (pv : option N) (s : pystr)
    (must : bool) (m : rematch) :
  (∀ st k, rmatch r st k
           = rmatch (Seq pre (Seq (Grp name (Plus g (Cls p))) post)) st k) →
  group_free post = true →
  match_here r q pv s must = Some m →
  group m name ≠ [] ∧ forallb p (group m name) = true.
Proof.
  intros Hshape Hpost. unfold match_here. rewrite Hshape.
  destruct (rmatch _ _ _) as [x|] eqn:Hx; [|done].
  intros [= <-].
  apply (rmatch_captured pre post name p g) in Hx
    as (st' & w & Hk & Hne & Hw & Hcaps); [|done].
  destruct (must && (pos st' =? q)%nat); [done|].
  injection Hk as <-. unfold group. cbn [m_groups]. by rewrite Hcaps.
Qed.

(** What holds of every match of a pattern holds of the matches of a
    scan. *)
Lemma finditer_from_Forall (P : rematch → Prop) (r : regex) :
  (∀ q pv s must m, match_here r q pv s must = Some m → P m) →
  ∀ s q pv skip, Forall P (finditer_from r q pv s skip).
Proof.
  intros HP.
  assert (∀ q pv s, Forall P (matches_here r q pv s)) as Hhere.
  { intros q pv s. unfold matches_here.
    destruct (match_here r q pv s false) as [m|] eqn:Hm; [|constructor].
    destruct (m_end m =? q)%nat.
    - constructor; [by eapply HP|].
      destruct (match_here r q pv s true) as [m'|] eqn:Hm'; simpl;
        [|constructor].
      constructor; [by eapply HP|constructor].
    - constructor; [by eapply HP|constructor]. }
  induction s as [|c s IH]; intros q pv skip; cbn [finditer_from].
  - rewrite app_nil_r. destruct skip; [apply Hhere|constructor].
  - apply Forall_app. split; [|apply IH].
    destruct skip; [apply Hhere|constructor].
Qed.

Lemma forallb_not_quote (w : pystr) :
  forallb (not_in [DQ]) w = true → Forall (λ c, c ≠ DQ) w.
Proof.
  rewrite forallb_forall, Forall_forall. intros H c Hc%list_elem_of_In.
  apply H in Hc. unfold not_in in Hc. simpl in Hc.
  rewrite orb_false_r in Hc. apply negb_true_iff in Hc.
  by apply N.eqb_neq in Hc.
Qed.

Lemma add_name_Forall (P : pystr → Prop) (names : list pystr)
    (short : pystr) :
  Forall P names → P short → Forall P (add_name names short).
Proof.
  intros Hn Hs. unfold add_name. case_bool_decide; [done|].
  apply Forall_app. split; [done|by constructor].
Qed.

Lemma define_re_short ua (q : nat) (pv : option N) (s : pystr)
    (must : bool) (m : rematch) :
  match_here (DEFINE_RE ua) q pv s must = Some m →
  group m "short" ≠ [] ∧ forallb (is_word ua) (group m "short") = true.
Proof.
  apply (match_here_captured (DEFINE_RE ua)
           (Seq Bol (Seq (Star true ws)
              (Seq (Alt (Chr 36) (Lit (py "define"))) (Plus true ws))))
           (Seq (Star true ws)
              (Seq (Chr 61) (Seq (Star true ws) (Lit (py "Character(")))))
           "short" (is_word ua) true);
    done.
Qed.

Lemma scan_definitions_Forall ua (names : list pystr) (text : pystr) :
  Forall (λ n, n ≠ [] ∧ forallb (is_word ua) n = true) names →
  Forall (λ n, n ≠ [] ∧ forallb (is_word ua) n = true)
         (scan_definitions ua names text).
Proof.
  unfold scan_definitions, finditer.
  pose proof (finditer_from_Forall _ (DEFINE_RE ua) (define_re_short ua)
                text 0%nat None 0%nat) as Hall.
  revert names. induction Hall as [|m ms Hm _ IH]; intros names Hn; [done|].
  simpl. apply IH. by apply add_name_Forall.
Qed.

Lemma gather_loop_Forall ua (P : pystr → Prop) :
  (∀ names text, Forall P names → Forall P (scan_definitions ua names text)) →
  ∀ (ps names : list pystr) (w : world) names' w',
    Forall P names →
    for_each (λ names path,
                do text <- read_text CharacterScan path;
                ret (scan_definitions ua names text))
             names ps w
    = Ok names' w' →
    Forall P names'.
Proof.
  intros Hscan. induction ps as [|path ps IH]; intros names w names' w' Hn.
  { simpl. unfold ret. by intros [= <- _]. }
  rewrite for_each_cons. unfold read_text, bind, emit, ret at 1.
  destruct (file_at _ path) as [text|]; [|done].
  apply IH. by apply Hscan.
Qed.

Lemma is_word_not_space ua (c : N) :
  (∀ d, ua d = true → is_space d = false) →
  is_word ua c = true → is_space c = false.
Proof.
  intros Hua. unfold is_word. destruct (N.ltb_spec c 128) as [Hc|Hc].
  - unfold ascii_alnum, is_space. intros Hw.
    repeat rewrite ?orb_true_iff, ?andb_true_iff, ?N.leb_le, ?N.eqb_eq in Hw.
    repeat rewrite ?orb_false_iff, ?andb_false_iff, ?N.leb_gt, ?N.eqb_neq.
    lia.
  - apply Hua.
Qed.

(** X8: every character name the registry returns is a non-empty run of
    word characters, whatever the sources hold; so are the names a run
    builds its dialogue patterns from, and none of them has whitespace in
    it when no whitespace beyond ASCII counts as a word character. *)
Theorem gathered_names_are_words :
  (∀ ua text,
     Forall (λ n, n ≠ [] ∧ forallb (is_word ua) n = true)
            (map (λ m, group m "short") (finditer (DEFINE_RE ua) text)))
  ∧ (∀ ua rpy_files w names w',
       gather_char_names ua rpy_files w = Ok names w' →
       Forall (λ n, n ≠ [] ∧ forallb (is_word ua) n = true) names)
  ∧ (∀ ua a w,
       Forall (λ n, n ≠ [] ∧ forallb (is_word ua) n = true)
              (run_names ua a w))
  ∧ (∀ ua a w,
       (∀ c, ua c = true → is_space c = false) →
       Forall (λ n, forallb (λ c, negb (is_space c)) n = true)
              (run_names ua a w)).
Proof.
  assert (∀ ua a w,
            Forall (λ n, n ≠ [] ∧ forallb (is_word ua) n = true)
                   (run_names ua a w)) as Hrun; [|split_and!; [| |done|]].
  4:{ intros ua a w Hua. eapply Forall_impl; [apply (Hrun ua a w)|].
      intros n [_ Hn]. simpl. rewrite forallb_forall in Hn |- *.
      intros c Hc. apply negb_true_iff. eapply is_word_not_space; eauto. }
  - intros ua a w. unfold run_names.
    assert (∀ texts names,
              Forall (λ n, n ≠ [] ∧ forallb (is_word ua) n = true) names →
              Forall (λ n, n ≠ [] ∧ forallb (is_word ua) n = true)
                     (foldl (scan_definitions ua) names texts)) as Hfold.
    { induction texts as [|text texts IH]; intros names Hn; [done|].
      simpl. apply IH. by apply scan_definitions_Forall. }
    apply Hfold. constructor.
  - intros ua text. apply Forall_map. unfold finditer.
    apply finditer_from_Forall. apply define_re_short.
  - intros ua rpy_files w names w'. unfold gather_char_names.
    apply (gather_loop_Forall ua); [|constructor].
    intros ns text. apply scan_definitions_Forall.
Qed.

Lemma screen_text_re_label (q : nat) (pv : option N) (s : pystr)
    (must : bool) (m : rematch) :
  match_here screen_text_re q pv s must = Some m →
  group m "2" ≠ [] ∧ forallb (not_in [DQ]) (group m "2") = true.
Proof.
  apply (match_here_captured screen_text_re
           (Seq (Grp "1" (Alt (Lit (py "label")) (Lit (py "textbutton"))))
              (Seq (Plus true ws) (Seq (Lit (py "_(")) (Chr DQ))))
           (Seq (Chr DQ) (Chr 41)) "2" (not_in [DQ]) true);
    done.
Qed.

(** X9: every text [extract_screen_texts] returns is non-empty and has no
    double quote in it. *)
Theorem screen_texts_are_nonempty_and_quote_free :
  (∀ content,
     Forall (λ t, t ≠ [] ∧ Forall (λ c, c ≠ DQ) t)
            (map (λ m, group m "2") (finditer screen_text_re content)))
  ∧ (∀ screens_path w texts w',
       extract_screen_texts screens_path w = Ok texts w' →
       Forall (λ t, t ≠ [] ∧ Forall (λ c, c ≠ DQ) t) texts).
Proof.
  assert (∀ content,
            Forall (λ t, t ≠ [] ∧ Forall (λ c, c ≠ DQ) t)
              (map (λ m, group m "2") (finditer screen_text_re content)))
    as Hall.
  { intros content. apply Forall_map. unfold finditer.
    apply finditer_from_Forall. intros q pv s must m Hm.
    apply screen_text_re_label in Hm as [Hne Hq].
    split; [done|by apply forallb_not_quote]. }
  split; [done|].
  intros screens_path w texts w'.
  unfold extract_screen_texts, read_text, bind, emit, ret.
  destruct (file_at _ screens_path) as [text|]; [|done].
  intros [= <- _]. apply Hall.
Qed.

Lemma menu_choice_re_text (q : nat) (pv : option N) (s : pystr)
    (must : bool) (m : rematch) :
  match_here menu_choice_re q pv s must = Some m →
  group m "1" ≠ [] ∧ forallb (not_in [DQ]) (group m "1") = true.
Proof.
  apply (match_here_captured menu_choice_re
           (Seq Bol (Seq (Star true ws) (Chr DQ)))
           (Seq (Chr DQ) (Seq (Star true ws) (Chr 58)))
           "1" (not_in [DQ]) true);
    done.
Qed.

(** X10: the quoted text of every menu-choice match is non-empty and has no
    double quote in it, and no menu text the scan gives has one. *)
Theorem menu_texts_are_quote_free (content : pystr) :
  Forall (λ m, group m "1" ≠ [] ∧ Forall (λ c, c ≠ DQ) (group m "1"))
         (finditer menu_choice_re content)
  ∧ Forall (λ t, Forall (λ c, c ≠ DQ) t) (menu_choices content).
Proof.
  assert (Forall (λ m, group m "1" ≠ []
                       ∧ Forall (λ c, c ≠ DQ) (group m "1"))
                 (finditer menu_choice_re content)) as Hall.
  { unfold finditer. apply finditer_from_Forall. intros q pv s must m Hm.
    apply menu_choice_re_text in Hm as [Hne Hq].
    split; [done|by apply forallb_not_quote]. }
  split; [done|]. unfold menu_choices. apply Forall_map.
  eapply Forall_impl; [exact Hall|]. intros m [_ Hq]. simpl.
  rewrite Forall_forall in Hq |- *. intros c Hc. apply Hq.
  eapply elem_of_sublist; [exact Hc|apply strip_sublist].
Qed.

(** ** Definition statements and screen texts that are found *)

Lemma stops_first (p : N → bool) (w r : pystr) :
  w ≠ [] → forallb (λ c, negb (p c)) w = true → stops p (w ++ r).
Proof.
  destruct w as [|c w]; [done|]. simpl.
  intros _ [Hc _]%andb_true_iff. by apply negb_true_iff.
Qed.

Lemma stops_after (p : N → bool) (w r : pystr) :
  forallb (λ c, negb (p c)) w = true → stops p r → stops p (w ++ r).
Proof.
  destruct w as [|c w]; [done|]. intros Hw _. by apply stops_first.
Qed.

(** The part of the definition pattern after the keyword. *)
Lemma define_re_after_keyword ua (q : nat) (pv : option N)
    (gap1 name gap2 gap3 tail : pystr) (cs : gmap string pystr)
    (k : cursor → option cursor) (x : cursor) :
  gap1 ≠ [] → forallb is_space gap1 = true →
  name ≠ [] → forallb (is_word ua) name = true →
  forallb (λ c, negb (is_space c)) name = true →
  forallb is_space gap2 = true →
  forallb (λ c, negb (is_word ua c)) gap2 = true →
  forallb is_space gap3 = true →
  k (Cursor (q + length gap1 + length name + length gap2 + 1 + length gap3
             + 10)
       (Some 40) tail (<["short" := name]> cs)) = Some x →
  rmatch (Seq (Plus true ws)
            (Seq (Grp "short" (Plus true (Cls (is_word ua))))
               (Seq (Star true ws)
                  (Seq (Chr 61)
                     (Seq (Star true ws) (Lit (py "Character(")))))))
    (Cursor q pv
       (gap1 ++ name ++ gap2 ++ 61 :: gap3 ++ py "Character(" ++ tail) cs) k
  = Some x.
Proof.
  intros Hg1 Hgap1 Hne Hname Hnosp Hgap2 Hnw Hgap3 Hk.
  rewrite rmatch_seq. unfold ws.
  apply rmatch_plus_cls; [done..|by apply stops_first|].
  rewrite rmatch_seq, rmatch_grp.
  apply rmatch_plus_cls; [done..|by apply stops_after|].
  unfold set_group. cbn [pos prev rest caps]. rewrite take_group.
  rewrite rmatch_seq. apply rmatch_star_cls; [done..|].
  rewrite rmatch_seq, rmatch_chr, rmatch_seq.
  apply rmatch_star_cls; [done..|].
  rewrite rmatch_lit. rewrite <- Hk. f_equal. f_equal. simpl. lia.
Qed.

Lemma define_re_matches ua (kw indent gap1 name gap2 gap3 tail : pystr)
    (p : nat) (pv : option N) :
  pv = None ∨ pv = Some NL →
  kw = [36] ∨ kw = py "define" →
  forallb is_space indent = true →
  gap1 ≠ [] → forallb is_space gap1 = true →
  name ≠ [] → forallb (is_word ua) name = true →
  forallb (λ c, negb (is_space c)) name = true →
  forallb is_space gap2 = true →
  forallb (λ c, negb (is_word ua c)) gap2 = true →
  forallb is_space gap3 = true →
  match_here (DEFINE_RE ua) p pv
    (indent ++ kw ++ gap1 ++ name ++ gap2 ++ 61 :: gap3
     ++ py "Character(" ++ tail) false
  = Some (ReMatch p
            (p + length indent + length kw + length gap1 + length name
             + length gap2 + 1 + length gap3 + 10)
            (<["short" := name]> ∅)).
Proof.
  intros Hbol Hkw Hind Hg1 Hgap1 Hne Hname Hnosp Hgap2 Hnw Hgap3.
  unfold match_here.
  assert (rmatch (DEFINE_RE ua)
            (Cursor p pv
               (indent ++ kw ++ gap1 ++ name ++ gap2 ++ 61 :: gap3
                ++ py "Character(" ++ tail) ∅)
            (λ st', if false && (pos st' =? p)%nat then None else Some st')
          = Some (Cursor (p + length indent + length kw + length gap1
                          + length name + length gap2 + 1 + length gap3 + 10)
                    (Some 40) tail (<["short" := name]> ∅))) as ->; [|done].
  assert (∀ q pv',
            rmatch (Seq (Plus true ws)
                      (Seq (Grp "short" (Plus true (Cls (is_word ua))))
                         (Seq (Star true ws)
                            (Seq (Chr 61)
                               (Seq (Star true ws)
                                  (Lit (py "Character(")))))))
              (Cursor q pv'
                 (gap1 ++ name ++ gap2 ++ 61 :: gap3 ++ py "Character("
                  ++ tail) ∅)
              (λ st', if false && (pos st' =? p)%nat then None else Some st')
            = Some (Cursor (q + length gap1 + length name + length gap2 + 1
                            + length gap3 + 10)
                      (Some 40) tail (<["short" := name]> ∅))) as Hafter.
  { intros q pv'. by apply define_re_after_keyword. }
  unfold DEFINE_RE.
  rewrite rmatch_seq, rmatch_bol by (by destruct Hbol as [->| ->]).
  rewrite rmatch_seq. unfold ws at 1.
  apply rmatch_star_cls; [done|by destruct Hkw as [->| ->]|].
  rewrite rmatch_seq, rmatch_alt.
  destruct Hkw as [->| ->].
  - cbn [app]. rewrite rmatch_chr, Hafter. cbn [or_else].
    do 2 f_equal; simpl; lia.
  - rewrite rmatch_chr_ne by done. cbn [or_else].
    rewrite rmatch_lit, Hafter. do 2 f_equal; simpl; lia.
Qed.

(** X11: a definition statement in either form, the dollar sign or the
    word define, then a name, an equals sign and the call of Character,
    with whitespace where the pattern allows it, is found by the scan when
    it starts a source: its name is the first the scan gives. *)
Theorem definition_statement_is_found ua
    (kw indent gap1 name gap2 gap3 tail : pystr) :
  kw = [36] ∨ kw = py "define" →
  forallb is_space indent = true →
  gap1 ≠ [] → forallb is_space gap1 = true →
  name ≠ [] → forallb (is_word ua) name = true →
  forallb (λ c, negb (is_space c)) name = true →
  forallb is_space gap2 = true →
  forallb (λ c, negb (is_word ua c)) gap2 = true →
  forallb is_space gap3 = true →
  ∃ m more others,
    finditer (DEFINE_RE ua)
      (indent ++ kw ++ gap1 ++ name ++ gap2 ++ 61 :: gap3
       ++ py "Character(" ++ tail)
    = m :: more
    ∧ group m "short" = name
    ∧ scan_definitions ua []
        (indent ++ kw ++ gap1 ++ name ++ gap2 ++ 61 :: gap3
         ++ py "Character(" ++ tail)
      = name :: others.
Proof.
  intros Hkw Hind Hg1 Hgap1 Hne Hname Hnosp Hgap2 Hnw Hgap3.
  destruct (finditer_from_here (DEFINE_RE ua) 0 None
              (indent ++ kw ++ gap1 ++ name ++ gap2 ++ 61 :: gap3
               ++ py "Character(" ++ tail)
              (ReMatch 0
                 (0 + length indent + length kw + length gap1 + length name
                  + length gap2 + 1 + length gap3 + 10)
                 (<["short" := name]> ∅))) as [more Hmore].
  { apply define_re_matches; try done. by left. }
  { simpl. lia. }
  eexists _, more, _. split; [exact Hmore|].
  split; [by rewrite group_insert|].
  rewrite scan_definitions_foldl. unfold finditer. rewrite Hmore.
  cbn [map]. rewrite group_insert, foldl_add_name. cbn [app first_occurrences].
  rewrite filter_cons_True by apply not_elem_of_nil. done.
Qed.

Lemma definition_statement_witness :
  ∃ m more others,
    finditer (DEFINE_RE no_unicode_alnum)
      (py "    " ++ [36] ++ py " " ++ py "eve" ++ [] ++ 61 :: py " "
       ++ py "Character(" ++ py "'Eve')")
    = m :: more
    ∧ group m "short" = py "eve"
    ∧ scan_definitions no_unicode_alnum []
        (py "    " ++ [36] ++ py " " ++ py "eve" ++ [] ++ 61 :: py " "
         ++ py "Character(" ++ py "'Eve')")
      = py "eve" :: others.
Proof.
  apply (definition_statement_is_found no_unicode_alnum
           [36] (py "    ") (py " ") (py "eve") [] (py " ") (py "'Eve')")).
  - by left.
  - reflexivity.
  - discriminate.
  - reflexivity.
  - discriminate.
  - reflexivity.
  - reflexivity.
  - reflexivity.
  - reflexivity.
  - reflexivity.
Defined.

Lemma screen_text_re_matches (kw gap text post : pystr) (p : nat)
    (pv : option N) :
  kw = py "label" ∨ kw = py "textbutton" →
  gap ≠ [] → forallb is_space gap = true →
  text ≠ [] → forallb (not_in [DQ]) text = true →
  match_here screen_text_re p pv
    (kw ++ gap ++ py "_(" ++ DQ :: text ++ DQ :: 41 :: post) false
  = Some (ReMatch p
            (p + length kw + length gap + 2 + 1 + length text + 2)
            (<["2" := text]> (<["1" := kw]> ∅))).
Proof.
  intros Hkw Hg Hgap Hne Htext. unfold match_here.
  assert (rmatch screen_text_re
            (Cursor p pv
               (kw ++ gap ++ py "_(" ++ DQ :: text ++ DQ :: 41 :: post) ∅)
            (λ st', if false && (pos st' =? p)%nat then None else Some st')
          = Some (Cursor (p + length kw + length gap + 2 + 1 + length text + 2)
                    (Some 41) post (<["2" := text]> (<["1" := kw]> ∅))))
    as ->; [|done].
  assert (∀ k x,
            k (Cursor (p + length kw) (prev_after pv kw)
                 (gap ++ py "_(" ++ DQ :: text ++ DQ :: 41 :: post)
                 (<["1" := kw]> ∅)) = Some x →
            rmatch (Grp "1" (Alt (Lit (py "label")) (Lit (py "textbutton"))))
              (Cursor p pv
                 (kw ++ gap ++ py "_(" ++ DQ :: text ++ DQ :: 41 :: post) ∅)
              k = Some x) as Hkeyword.
  { intros k x Hk. rewrite rmatch_grp, rmatch_alt.
    destruct Hkw as [->| ->].
    - rewrite rmatch_lit. unfold set_group. cbn [pos prev rest caps].
      rewrite take_group.
      match goal with
      | |- or_else ?a _ = _ => assert (a = Some x) as -> by exact Hk
      end.
      done.
    - rewrite rmatch_lit_none by (by intros r).
      cbn [or_else]. rewrite rmatch_lit. unfold set_group.
      cbn [pos prev rest caps]. by rewrite take_group. }
  unfold screen_text_re. rewrite rmatch_seq. apply Hkeyword.
  rewrite rmatch_seq. unfold ws.
  apply rmatch_plus_cls; [done..|].
  rewrite rmatch_seq, rmatch_lit, rmatch_seq, rmatch_chr.
  rewrite rmatch_seq, rmatch_grp.
  apply rmatch_plus_cls; [done..|].
  unfold set_group. cbn [pos prev rest caps]. rewrite take_group.
  rewrite rmatch_seq, !rmatch_chr. cbn [andb].
  do 2 f_equal. simpl. lia.
Qed.

(** X12: a label or a textbutton followed by whitespace and a quoted
    non-empty text in the translation call is matched wherever it stands,
    not only at a line start, and its text is the first the extraction
    returns when the source starts with it. *)
Theorem screen_text_is_extracted (kw gap text post : pystr) :
  kw = py "label" ∨ kw = py "textbutton" →
  gap ≠ [] → forallb is_space gap = true →
  text ≠ [] → forallb (not_in [DQ]) text = true →
  (∀ p pv,
     ∃ m, match_here screen_text_re p pv
            (kw ++ gap ++ py "_(" ++ DQ :: text ++ DQ :: 41 :: post) false
          = Some m
          ∧ group m "1" = kw ∧ group m "2" = text)
  ∧ (∀ screens_path w,
       screens_path ∈ map fst (rpy w) →
       text_read (rpy w) screens_path
       = kw ++ gap ++ py "_(" ++ DQ :: text ++ DQ :: 41 :: post →
       ∃ more,
         extract_screen_texts screens_path w
         = Ok (text :: more) (logged w [ScreenTextScan screens_path])).
Proof.
  intros Hkw Hg Hgap Hne Htext. split.
  - intros p pv. eexists. split; [by apply screen_text_re_matches|].
    split; [by rewrite group_insert_ne, group_insert|by rewrite group_insert].
  - intros screens_path w Hin Hread.
    destruct (finditer_from_here screen_text_re 0 None
                (kw ++ gap ++ py "_(" ++ DQ :: text ++ DQ :: 41 :: post)
                (ReMatch 0
                   (0 + length kw + length gap + 2 + 1 + length text + 2)
                   (<["2" := text]> (<["1" := kw]> ∅)))) as [more Hmore].
    { by apply screen_text_re_matches. }
    { simpl. lia. }
    exists (map (λ m, group m "2") more).
    unfold extract_screen_texts. erewrite bind_ok by (by apply read_text_ok).
    rewrite Hread. unfold ret, finditer. rewrite Hmore. cbn [map].
    by rewrite group_insert.
Qed.

Lemma screen_text_witness :
  (∀ p pv,
     ∃ m, match_here screen_text_re p pv
            (py "textbutton" ++ py " " ++ py "_(" ++ DQ :: py "Quit"
             ++ DQ :: 41 :: [NL]) false
          = Some m
          ∧ group m "1" = py "textbutton" ∧ group m "2" = py "Quit")
  ∧ (∀ screens_path w,
       screens_path ∈ map fst (rpy w) →
       text_read (rpy w) screens_path
       = py "textbutton" ++ py " " ++ py "_(" ++ DQ :: py "Quit"
         ++ DQ :: 41 :: [NL] →
       ∃ more,
         extract_screen_texts screens_path w
         = Ok (py "Quit" :: more) (logged w [ScreenTextScan screens_path])).
Proof.
  apply (screen_text_is_extracted (py "textbutton") (py " ") (py "Quit") [NL]).
  - by right.
  - discriminate.
  - reflexivity.
  - discriminate.
  - reflexivity.
Defined.

(** ** More on the TemplateDeduplicator *)

Lemma crlf_flat_map (s : pystr) :
  crlf s = flat_map (λ c, if c =? NL then [CR; NL] else [c]) s.
Proof. apply replace_one_char. Qed.

Lemma crlf_concat (lines : list pystr) :
  concat (map crlf lines) = crlf (concat lines).
Proof.
  rewrite crlf_flat_map. induction lines as [|l lines IH]; [done|].
  cbn [map concat]. by rewrite flat_map_app, IH, crlf_flat_map.
Qed.

Lemma universal_newlines_crlf (s : pystr) :
  CR ∉ s → universal_newlines (crlf s) = s.
Proof.
  rewrite crlf_flat_map. induction s as [|c s IH]; [done|].
  intros Hcr. apply not_elem_of_cons in Hcr as [Hc Hs].
  cbn [flat_map]. destruct (N.eqb_spec c NL) as [->|Hn].
  - cbn [app universal_newlines]. rewrite N.eqb_refl.
    change (NL =? NL) with true. cbn match. by rewrite IH.
  - cbn [app universal_newlines].
    rewrite (proj2 (N.eqb_neq c CR)) by done. by rewrite IH.
Qed.

Lemma readlines_from_concat (s cur : pystr) :
  concat (readlines_from cur s) = cur ++ s.
Proof.
  revert cur. induction s as [|c s IH]; intros cur.
  - destruct cur; simpl; by rewrite ?app_nil_r.
  - cbn [readlines_from]. destruct (N.eqb_spec c NL) as [->|Hn].
    + cbn [concat]. rewrite IH. by rewrite <- app_assoc.
    + rewrite IH. by rewrite <- app_assoc.
Qed.

Lemma readlines_concat (s : pystr) : concat (readlines s) = s.
Proof. apply (readlines_from_concat s []). Qed.

Lemma lines_wf_no_cr (lines : list pystr) :
  lines_wf lines → CR ∉ concat lines.
Proof.
  induction lines as [|l lines IH]; [intros _; apply not_elem_of_nil|].
  intros (Hl & _ & Hwf). cbn [concat]. rewrite elem_of_app.
  intros [Hin|Hin]; [|by apply IH].
  destruct Hl as [(body & -> & _ & Hcr)|(_ & _ & Hcr)]; [|done].
  apply elem_of_app in Hin as [?|Hin]; [done|].
  by apply list_elem_of_singleton in Hin.
Qed.

Lemma deduplicate_rpt_kept (text : pystr) :
  deduplicate_rpt text
  = crlf (concat (kept_lines ∅ (readlines (universal_newlines text)))).
Proof.
  unfold deduplicate_rpt. cbv zeta. by rewrite dedup_loop_kept, crlf_concat.
Qed.

Lemma kept_lines_no_cr (text : pystr) :
  CR ∉ concat (kept_lines ∅ (readlines (universal_newlines text))).
Proof.
  apply lines_wf_no_cr.
  eapply lines_wf_sublist; [apply kept_lines_sublist|apply readlines_wf].
Qed.

Lemma deduplicate_rpt_crlf (text : pystr) :
  crlf (universal_newlines (deduplicate_rpt text)) = deduplicate_rpt text.
Proof.
  rewrite deduplicate_rpt_kept.
  by rewrite universal_newlines_crlf by apply kept_lines_no_cr.
Qed.

Lemma crlf_pairs (s : pystr) :
  CR ∉ s →
  ∀ i, (crlf s !! i = Some NL → ∃ j, i = S j ∧ crlf s !! j = Some CR)
       ∧ (crlf s !! i = Some CR → crlf s !! S i = Some NL).
Proof.
  rewrite crlf_flat_map. induction s as [|c s IH]; [done|].
  intros Hcr. apply not_elem_of_cons in Hcr as [Hc Hs].
  specialize (IH Hs). cbn [flat_map].
  destruct (N.eqb_spec c NL) as [->|Hn]; cbn [app].
  - intros [|[|i]]; cbn [lookup list_lookup].
    + split; [done|]. done.
    + split; [|done]. intros _. by exists 0%nat.
    + destruct (IH i) as [Hnl Hret]. split; [|done].
      intros (j & -> & Hj)%Hnl. by exists (S (S j)).
  - intros [|i]; cbn [lookup list_lookup].
    + split; intros [= ?]; done.
    + destruct (IH i) as [Hnl Hret]. split; [|done].
      intros (j & -> & Hj)%Hnl. by exists (S j).
Qed.

(** X13: every line end of the file the pass writes is a carriage return
    and a newline: reading the file with universal newlines and writing
    each newline as the pair gives the file again, every newline in it
    comes right after a carriage return and every carriage return right
    before a newline. *)
Theorem deduplicate_rpt_writes_crlf_line_ends (text : pystr) :
  crlf (universal_newlines (deduplicate_rpt text)) = deduplicate_rpt text
  ∧ (∀ i, deduplicate_rpt text !! i = Some NL →
          ∃ j, i = S j ∧ deduplicate_rpt text !! j = Some CR)
  ∧ (∀ i, deduplicate_rpt text !! i = Some CR →
          deduplicate_rpt text !! S i = Some NL).
Proof.
  split; [apply deduplicate_rpt_crlf|].
  rewrite deduplicate_rpt_kept.
  pose proof (crlf_pairs _ (kept_lines_no_cr text)) as Hpairs.
  split; intros i; by destruct (Hpairs i).
Qed.

Lemma first_from_all (seen : gset pystr) (sources : list pystr) :
  NoDup (map payload sources) →
  (∀ line, line ∈ sources → payload line ∉ seen) →
  first_from seen sources = sources.
Proof.
  revert seen. induction sources as [|l sources IH]; intros seen Hnd Hseen;
    [done|].
  cbn [map] in Hnd. apply NoDup_cons in Hnd as [Hl Hnd].
  cbn [first_from]. rewrite bool_decide_false by (apply Hseen; left).
  f_equal. apply IH; [done|]. intros line Hin.
  rewrite elem_of_union, elem_of_singleton. intros [Heq|Hs].
  - apply Hl. rewrite <- Heq. apply list_elem_of_fmap. by exists line.
  - by apply (Hseen line); [right|].
Qed.

(** X14: on a file in which no two source lines have the same payload, a
    file without source lines and the empty file among them, the pass
    drops nothing: it only turns every line end into a carriage return and
    a newline. *)
Theorem deduplicate_rpt_keeps_file_without_duplicates (text : pystr) :
  NoDup (map payload (source_lines text)) →
  deduplicate_rpt text = crlf (universal_newlines text).
Proof.
  intros Hnd. rewrite deduplicate_rpt_kept. rewrite kept_lines_all.
  - by rewrite readlines_concat.
  - apply first_from_all; [exact Hnd|]. intros line _. apply not_elem_of_empty.
Qed.

Lemma deduplicate_rpt_keeps_witness :
  deduplicate_rpt (py "title" ++ [NL] ++ py "< a" ++ [CR; NL] ++ py "> b")
  = crlf (universal_newlines
            (py "title" ++ [NL] ++ py "< a" ++ [CR; NL] ++ py "> b")).
Proof.
  apply (deduplicate_rpt_keeps_file_without_duplicates
           (py "title" ++ [NL] ++ py "< a" ++ [CR; NL] ++ py "> b")).
  apply (bool_decide_unpack _). vm_compute. reflexivity.
Defined.

Lemma elem_of_drop_while {A} (p : A → bool) (l : list A) (x : A) :
  x ∈ l → p x = false → x ∈ drop_while p l.
Proof.
  induction l as [|y l IH]; [done|]. intros Hin Hp. simpl.
  destruct (p y) eqn:Hy; [|done].
  apply elem_of_cons in Hin as [->|Hin]; [congruence|by apply IH].
Qed.

(** A line that is no source line, no translation line and not blank is
    kept. *)
Lemma kept_lines_keeps (seen : gset pystr) (lines : list pystr) :
  ∀ x, x ∈ lines → is_source x = false → skipped x = false →
       x ∈ kept_lines seen lines.
Proof.
  funelim (kept_lines seen lines); intros x Hin Hs Hsk.
  { by apply elem_of_nil in Hin. }
  simp kept_lines. cbv zeta. destruct (is_source line) eqn:Hline.
  - apply elem_of_cons in Hin as [->|Hin]; [congruence|].
    case_bool_decide.
    + apply H; [|done..]. by apply elem_of_drop_while.
    + right. rewrite <- after_kept_split in Hin.
      rewrite !elem_of_app in Hin |- *.
      destruct Hin as [?|[?|Hin]]; [by left|by right; left|].
      right; right. by apply H0.
  - apply elem_of_cons in Hin as [->|Hin]; [by left|].
    right. by apply H1.
Qed.

(** X15: the pass only takes lines away: the lines of the file it writes
    are lines of the file it read, in their order; and it takes away
    nothing but source lines, translation lines and blank lines. *)
Theorem deduplicate_rpt_only_drops_record_lines (text : pystr) :
  readlines (universal_newlines (deduplicate_rpt text))
    `sublist_of` readlines (universal_newlines text)
  ∧ (∀ line,
       line ∈ readlines (universal_newlines text) →
       startswith line (py "< ") = false →
       startswith line (py ">") = false →
       is_blank line = false →
       line ∈ readlines (universal_newlines (deduplicate_rpt text))).
Proof.
  rewrite kept_lines_read_back. split; [apply kept_lines_sublist|].
  intros line Hin Hs Ht Hb. apply kept_lines_keeps; [done..|].
  unfold skipped. by rewrite Ht, Hb.
Qed.

(** ** The ends of a run *)

Lemma after_screens_overwrites (a : args) (fs : pystr → option pystr)
    (files : list (pystr * pystr)) (old1 old2 : option pystr)
    (lg : list event) :
  after_screens a (World fs files old1 lg)
  = after_screens a (World fs files old2 lg).
Proof. done. Qed.

(** X16: a run that finds no source ends at once by a fatal exit whose
    message names the input root, and has done nothing by then: no scan,
    and the output file is as it was or still not there.  Once a run has
    found sources, nothing of what the output file held before has a part
    in it: two runs that differ only in the old content of the output file
    end in the same way, with the same output. *)
Theorem main_and_the_old_output :
  (∀ ua ucd a w,
     rpy w = [] →
     main ua ucd a w
     = Exit (py "Error: No .rpy files found under '" ++ input_dir a
             ++ py "'.") w)
  ∧ (∀ ua ucd a fs files old1 old2 lg,
       files ≠ [] →
       main ua ucd a (World fs files old1 lg)
       = main ua ucd a (World fs files old2 lg)).
Proof.
  split; [intros ua ucd a w; apply main_no_sources|].
  intros ua ucd a fs files old1 old2 lg Hfiles.
  assert (∀ old,
            main ua ucd a (World fs files old lg)
            = main ua ucd a (World fs files None lg)) as Hnone.
  { intros old. unfold main.
    rewrite !(bind_ok glob_rpy _ _ _ _ eq_refl). cbn [rpy].
    rewrite bool_decide_false by (by destruct files).
    cbv zeta.
    rewrite !(bind_ok (isfile _) _ _ _ _ eq_refl).
    erewrite (bind_ok _ _ (World fs files old lg)) by apply screens_phase_ok.
    erewrite (bind_ok _ _ (World fs files None lg))
      by apply screens_phase_ok.
    by rewrite (after_screens_overwrites a fs files old None). }
  by rewrite (Hnone old1), (Hnone old2).
Qed.

Lemma main_and_the_old_output_witness :
  main no_unicode_alnum no_ucd_names (game_args false)
    (World no_other_paths (rpy silent_world) (Some (py "< old")) [])
  = main no_unicode_alnum no_ucd_names (game_args false)
      (World no_other_paths (rpy silent_world) None []).
Proof.
  apply (proj2 main_and_the_old_output no_unicode_alnum no_ucd_names
           (game_args false) no_other_paths (rpy silent_world)
           (Some (py "< old")) None []).
  discriminate.
Defined.

(** X17: a run that has found sources and ends by a fatal exit has already
    written the output file over: the file holds what the first writer put
    there, which is nothing at all when the file system has no regular
    file at the path of [screens.rpy] under the input root, as the script
    joins it; and the exit is the one for missing character definitions or
    the one for missing dialogue. *)
Theorem main_fatal_exit_leaves_first_writer_output ua ucd (a : args)
    (w w' : world) (msg : pystr) :
  rpy w ≠ [] →
  main ua ucd a w = Exit msg w' →
  template w' = template (after_screens a w)
  ∧ (msg = no_characters_message ∨ msg = no_dialogue_message)
  ∧ (file_at w (path_join (input_dir a) (py "screens.rpy")) = None →
     template w' = Some [])
  ∧ (∀ text,
       file_at w (path_join (input_dir a) (py "screens.rpy")) = Some text →
       template w'
       = Some (screens_template (fill_template a)
                 (map (λ m, group m "2")
                    (finditer screen_text_re (universal_newlines text))))).
Proof.
  intros Hw Hexit.
  assert (template w' = template (after_screens a w)
          ∧ (msg = no_characters_message ∨ msg = no_dialogue_message))
    as [Ht Hmsg].
  { destruct (main_ends ua ucd a w Hw)
      as [[_ Hm]|[(_ & _ & w1 & Hm)|(all_texts & _ & _ & Hcases)]].
    - rewrite Hm in Hexit. injection Hexit as <- <-. split; [done|by left].
    - by rewrite Hm in Hexit.
    - destruct Hcases as [[_ Hm]|[(_ & w1 & Hm)|(_ & _ & Hm)]].
      + rewrite Hm in Hexit. injection Hexit as <- <-.
        split; [done|by right].
      + by rewrite Hm in Hexit.
      + by rewrite Hm in Hexit. }
  split_and!; [done..| |].
  - intros Hno. rewrite Ht. unfold after_screens. cbv zeta.
    by rewrite Hno.
  - intros text Hyes. rewrite Ht. unfold after_screens. cbv zeta.
    by rewrite Hyes.
Qed.

Lemma main_fatal_exit_witness :
  template (after_names (game_args false) undefined_speaker_world)
  = template (after_screens (game_args false) undefined_speaker_world)
  ∧ (no_characters_message = no_characters_message
     ∨ no_characters_message = no_dialogue_message)
  ∧ (file_at undefined_speaker_world
       (path_join (input_dir (game_args false)) (py "screens.rpy")) = None →
     template (after_names (game_args false) undefined_speaker_world)
     = Some [])
  ∧ (∀ text,
       file_at undefined_speaker_world
         (path_join (input_dir (game_args false)) (py "screens.rpy"))
       = Some text →
       template (after_names (game_args false) undefined_speaker_world)
       = Some (screens_template (fill_template (game_args false))
                 (map (λ m, group m "2")
                    (finditer screen_text_re (universal_newlines text))))).
Proof.
  apply (main_fatal_exit_leaves_first_writer_output no_unicode_alnum
           no_ucd_names (game_args false) undefined_speaker_world).
  - discriminate.
  - vm_compute. reflexivity.
Defined.

(** The input root spelled [game//]: [glob] gives [game/screens.rpy], the
    first writer asks for [game//screens.rpy], which the file system
    resolves to the same file, and the records of the labels are written
    before the fatal exit. *)
Lemma main_with_root_ending_in_two_separators :
  ∃ w',
    main no_unicode_alnum no_ucd_names
      (Args (py "game//") (py "translations.rpt") false)
      (World (λ path, if bool_decide (path = py "game//screens.rpy")
                      then Some label_only_screens else None)
             [(py "game/screens.rpy", label_only_screens)] None [])
    = Exit no_characters_message w'
    ∧ template w'
      = Some (screens_template false [py "Start Game"; py "Quit"]).
Proof. eexists. split; vm_compute; reflexivity. Qed.



Lemma remove_first_perm (x : pystr) (l : list pystr) :
  x ∈ l → x :: remove_first x l ≡ₚ l.
Proof.
  induction l as [|y l IH]; [by intros ?%elem_of_nil|].
  intros Hin. cbn [remove_first]. case_bool_decide as Hy; [by subst|].
  apply elem_of_cons in Hin as [->|Hin]; [done|].
  rewrite Permutation_swap. by rewrite IH.
Qed.

Lemma remove_first_filter (x : pystr) (l : list pystr) :
  filter (λ y, y ≠ x) (remove_first x l) = filter (λ y, y ≠ x) l.
Proof.
  induction l as [|y l IH]; [done|]. cbn [remove_first].
  case_bool_decide as Hy.
  - by rewrite filter_cons_False by (by intros ?).
  - by rewrite !filter_cons_True, IH by done.
Qed.

(** X19: the order in which a run goes through the sources has the same
    sources as [glob] gave; [script.rpy] of the input root, when it is
    among them, comes first, and the other sources keep their order. *)
Theorem run_order_moves_script_first (a : args) (w : world) :
  run_order a w ≡ₚ map fst (rpy w)
  ∧ (path_join (input_dir a) (py "script.rpy") ∈ map fst (rpy w) →
     ∃ others,
       run_order a w = path_join (input_dir a) (py "script.rpy") :: others)
  ∧ (path_join (input_dir a) (py "script.rpy") ∉ map fst (rpy w) →
     run_order a w = map fst (rpy w))
  ∧ filter (λ p, p ≠ path_join (input_dir a) (py "script.rpy"))
           (run_order a w)
    = filter (λ p, p ≠ path_join (input_dir a) (py "script.rpy"))
             (map fst (rpy w)).
Proof.
  unfold run_order. cbv zeta. case_bool_decide as Hs; split_and!.
  - by apply remove_first_perm.
  - intros _. by eexists.
  - done.
  - rewrite filter_cons_False by (by intros ?). apply remove_first_filter.
  - done.
  - done.
  - done.
  - done.
Qed.

(** X20: the output file of a run that ends normally has no two source
    lines with the same payload, and all its line ends are a carriage
    return and a newline. *)
Theorem main_output_is_deduplicated ua ucd (a : args) (w w' : world) :
  main ua ucd a w = Ok () w' →
  ∃ text,
    template w' = Some text
    ∧ NoDup (map payload (source_lines text))
    ∧ crlf (universal_newlines text) = text.
Proof.
  intros Hmain.
  destruct (decide (rpy w = [])) as [Hw|Hw].
  { by rewrite main_no_sources in Hmain. }
  destruct (main_ends ua ucd a w Hw)
    as [[_ Hm]|[(_ & _ & w1 & Hm)|(all_texts & _ & _ & Hcases)]];
    [by rewrite Hm in Hmain..|].
  destruct Hcases as [[_ Hm]|[(_ & w1 & Hm)|(_ & _ & Hm)]];
    [by rewrite Hm in Hmain..|].
  rewrite Hm in Hmain. injection Hmain as <-. eexists. split; [done|].
  split.
  - rewrite source_lines_deduplicated, first_by_payload_payloads.
    apply first_occurrences_NoDup.
  - apply deduplicate_rpt_crlf.
Qed.

Lemma main_output_witness :
  ∃ text,
    template
      (World no_other_paths [(py "game/script.rpy",
               py "define eve = Character('Eve')" ++ [NL]
               ++ py "eve " ++ [DQ] ++ py "Hello\nWorld" ++ [DQ; NL])]
         (Some (py "< Hello\nWorld" ++ [CR; NL] ++ py "> " ++ [CR; NL; CR; NL]))
         [TemplateWritten; CharacterScan (py "game/script.rpy");
          DialogueScan (py "game/script.rpy");
          TemplateAppended; TemplateDeduplicated])
    = Some text
    ∧ NoDup (map payload (source_lines text))
    ∧ crlf (universal_newlines text) = text.
Proof.
  apply (main_output_is_deduplicated no_unicode_alnum no_ucd_names
           (game_args false)
           (World no_other_paths [(py "game/script.rpy",
                    py "define eve = Character('Eve')" ++ [NL]
                    ++ py "eve " ++ [DQ] ++ py "Hello\nWorld" ++ [DQ; NL])]
              None [])).
  vm_compute. reflexivity.
Defined.

Lemma first_occurrences_sublist (l : list pystr) :
  first_occurrences l `sublist_of` l.
Proof.
  induction l as [|x l IH]; [done|]. cbn [first_occurrences].
  apply sublist_skip. etrans; [apply sublist_filter|done].
Qed.

Lemma filter_all (P : pystr → Prop) `{∀ x, Decision (P x)} (l : list pystr) :
  Forall P l → filter P l = l.
Proof.
  induction 1 as [|x l Hx _ IH]; [done|].
  by rewrite filter_cons_True, IH by done.
Qed.

Lemma first_occurrences_NoDup_id (l : list pystr) :
  NoDup l → first_occurrences l = l.
Proof.
  induction 1 as [|x l Hx _ IH]; [done|]. cbn [first_occurrences].
  rewrite IH. f_equal. apply filter_all.
  apply Forall_forall. by intros y Hy ->.
Qed.

(** X21: the texts step 6 of [main] hands to the writer are the extracted
    texts with the empty ones and the repeated ones taken out, in the
    order of their first occurrence: no text is there twice, and doing the
    step again changes nothing. *)
Theorem unique_texts_of_first_occurrences (all_texts : list pystr) :
  NoDup (unique_texts_of all_texts)
  ∧ unique_texts_of all_texts `sublist_of` all_texts
  ∧ unique_texts_of (unique_texts_of all_texts) = unique_texts_of all_texts
  ∧ (∀ before t after,
       all_texts = before ++ t :: after → t ≠ [] → t ∉ before →
       ∃ others,
         unique_texts_of all_texts
         = unique_texts_of before ++ t :: others).
Proof.
  split_and!.
  - rewrite unique_texts_of_spec. apply first_occurrences_NoDup.
  - rewrite unique_texts_of_spec.
    etrans; [apply first_occurrences_sublist|apply sublist_filter].
  - rewrite !unique_texts_of_spec. rewrite filter_all.
    + apply first_occurrences_NoDup_id, first_occurrences_NoDup.
    + apply Forall_forall. intros t Ht.
      apply (proj1 (first_occurrences_elem _ _)) in Ht.
      by apply list_elem_of_filter in Ht as [? _].
  - intros before t after -> Hne Hnot.
    rewrite !unique_texts_of_spec, filter_app, filter_cons_True by done.
    rewrite first_occurrences_app. cbn [first_occurrences].
    rewrite filter_cons_True; [by eexists|].
    intros Hin. by apply list_elem_of_filter in Hin as [_ ?].
Qed.



(** ** The record of an extracted text *)

Lemma universal_newlines_line (n : nat) :
  ∀ A, (length A ≤ n)%nat →
       ∃ X, universal_newlines (A ++ [NL]) = X ++ [NL]
            ∧ ∀ B, universal_newlines (A ++ NL :: B)
                   = X ++ NL :: universal_newlines B.
Proof.
  induction n as [|n IH]; intros A Hlen.
  { destruct A; [|simpl in Hlen; lia]. by exists []. }
  destruct A as [|c A]; [by exists []|].
  destruct (N.eqb_spec c CR) as [->|Hc].
  - destruct A as [|d A].
    + exists []. split; [done|]. intros B. simpl.
      change (NL =? CR) with false. done.
    + destruct (N.eqb_spec d NL) as [->|Hd].
      * destruct (IH A) as (X & HX & HB); [simpl in Hlen; lia|].
        exists (NL :: X). cbn [app universal_newlines].
        change (CR =? CR) with true. change (NL =? NL) with true. cbn match.
        split; [by rewrite HX|]. intros B. by rewrite HB.
      * destruct (IH (d :: A)) as (X & HX & HB); [simpl in Hlen |- *; lia|].
        exists (NL :: X).
        assert (∀ T, universal_newlines (CR :: d :: T)
                     = NL :: universal_newlines (d :: T)) as Hstep.
        { intros T. cbn [universal_newlines].
          change (CR =? CR) with true. cbn match.
          by rewrite (proj2 (N.eqb_neq d NL)) by done. }
        cbn [app]. rewrite !Hstep.
        split; [by rewrite <- HX|]. intros B. by rewrite <- HB.
  - destruct (IH A) as (X & HX & HB); [simpl in Hlen; lia|].
    exists (c :: X). cbn [app universal_newlines].
    rewrite (proj2 (N.eqb_neq c CR)) by done.
    split; [by rewrite HX|]. intros B. by rewrite HB.
Qed.

Lemma readlines_from_line (X B cur : pystr) :
  readlines_from cur (X ++ NL :: B)
  = readlines_from cur (X ++ [NL]) ++ readlines_from [] B.
Proof.
  revert cur. induction X as [|c X IH]; intros cur.
  { cbn [app readlines_from]. rewrite N.eqb_refl. done. }
  cbn [app readlines_from]. destruct (c =? NL); [|apply IH].
  by rewrite IH.
Qed.

(** The lines of two texts put together, when the first ends with a
    newline or is empty. *)
Lemma readlines_app (A B : pystr) :
  A = [] ∨ last A = Some NL →
  readlines (universal_newlines (A ++ B))
  = readlines (universal_newlines A) ++ readlines (universal_newlines B).
Proof.
  intros [->|Hlast]; [done|].
  apply last_Some in Hlast as [A' ->].
  destruct (universal_newlines_line (length A') A') as (X & HX & HB); [done|].
  rewrite <- app_assoc. cbn [app]. rewrite HB, HX.
  unfold readlines. apply readlines_from_line.
Qed.

Lemma template_record_last (fill : bool) (eol orig : pystr) (c : N) :
  last eol = Some c → last (template_record fill eol orig) = Some c.
Proof.
  intros Heol. unfold template_record. cbv zeta.
  rewrite !last_app, Heol. done.
Qed.

Lemma records_last (fill : bool) (eol : pystr) (texts : list pystr) (c : N) :
  last eol = Some c →
  concat (map (template_record fill eol) texts) = []
  ∨ last (concat (map (template_record fill eol) texts)) = Some c.
Proof.
  intros Heol. induction texts as [|t texts IH]; [by left|].
  right. cbn [map concat]. rewrite last_app.
  destruct IH as [-> | ->]; [|done]. cbn [last].
  by apply template_record_last.
Qed.

Lemma screens_template_last (fill : bool) (labels : list pystr) :
  last (screens_template fill labels) = Some NL.
Proof.
  unfold screens_template. cbv zeta. rewrite !last_app.
  assert (last (concat (map (template_record fill [NL]) joystick_lines))
          = Some NL) as ->; [|done].
  destruct (records_last fill [NL] joystick_lines NL eq_refl) as [Hnil|Hl];
    [|done].
  apply (f_equal length) in Hnil. by destruct fill.
Qed.

Lemma quote_no_cr (t : pystr) : CR ∉ t → CR ∉ quote t.
Proof.
  rewrite quote_flat_map. induction t as [|c t IH]; [done|].
  intros Hcr. apply not_elem_of_cons in Hcr as [Hc Ht].
  cbn [flat_map]. rewrite elem_of_app. intros [Hin|Hin]; [|by apply IH].
  unfold escape_char in Hin.
  destruct (c =? BSL); [|destruct (c =? NL)];
    repeat (apply elem_of_cons in Hin as [Hin|Hin]; [done|]);
    by apply elem_of_nil in Hin.
Qed.

(** The first line of the record of a text without a carriage return. *)
Lemma record_source_line (fill : bool) (t : pystr) :
  CR ∉ t →
  ∃ more,
    readlines (universal_newlines (template_record fill [CR; NL] t))
    = (py "< " ++ quote t ++ [NL]) :: more.
Proof.
  intros Hcr. unfold template_record. cbv zeta.
  rewrite <- !app_assoc. rewrite (app_assoc (py "< ")).
  change ([CR; NL] ++ ?x) with (CR :: NL :: x).
  rewrite universal_newlines_body.
  - unfold readlines. rewrite readlines_from_no_newline.
    + rewrite <- app_assoc. by eexists.
    + apply Forall_app. split; [apply py_no_newline_lt|apply quote_no_newline].
  - rewrite elem_of_app. intros [Hin|Hin]; [|by apply quote_no_cr in Hin].
    repeat (apply elem_of_cons in Hin as [Hin|Hin]; [done|]).
    by apply elem_of_nil in Hin.
Qed.

Lemma records_lines (fill : bool) (texts : list pystr) (t : pystr) :
  t ∈ texts → CR ∉ t →
  py "< " ++ quote t ++ [NL]
  ∈ readlines (universal_newlines
                 (concat (map (template_record fill [CR; NL]) texts))).
Proof.
  intros Hin Hcr. induction texts as [|x texts IH];
    [by apply elem_of_nil in Hin|].
  cbn [map concat]. rewrite readlines_app
    by (right; by apply template_record_last).
  rewrite elem_of_app. apply elem_of_cons in Hin as [<-|Hin].
  - left. destruct (record_source_line fill t Hcr) as [more ->]. left.
  - right. by apply IH.
Qed.

Lemma rstrip_snoc_space (s : pystr) (c : N) :
  is_space c = true → rstrip (s ++ [c]) = rstrip s.
Proof.
  intros Hc. unfold rstrip. rewrite rev_app_distr. simpl. by rewrite Hc.
Qed.

Lemma rstrip_last (s : pystr) (c : N) :
  last s = Some c → is_space c = false → rstrip s = s.
Proof.
  intros [s' ->]%last_Some Hc. unfold rstrip.
  rewrite rev_app_distr. simpl. rewrite Hc.
  change (c :: rev s') with ([c] ++ rev s').
  by rewrite rev_app_distr, rev_involutive.
Qed.

Lemma quote_last (t : pystr) (c : N) :
  last t = Some c → is_space c = false →
  ∃ d, last (quote t) = Some d ∧ is_space d = false.
Proof.
  intros [t' ->]%last_Some Hc. rewrite quote_flat_map, flat_map_app.
  cbn [flat_map]. rewrite app_nil_r, last_app. unfold escape_char.
  destruct (N.eqb_spec c BSL) as [->|Hb]; [by exists BSL|].
  destruct (N.eqb_spec c NL) as [->|Hn]; [done|]. by exists c.
Qed.

(** A text that does not end in whitespace. *)
Lemma last_drop_while (p : N → bool) (l : pystr) :
  drop_while p l ≠ [] → last (drop_while p l) = last l.
Proof.
  induction l as [|c l IH]; [done|]. simpl. destruct (p c) eqn:Hc; [|done].
  intros Hne. rewrite IH by done. destruct l as [|d l]; [done|]. done.
Qed.

Lemma strip_last (s : pystr) :
  strip s ≠ [] → ∃ c, last (strip s) = Some c ∧ is_space c = false.
Proof.
  intros Hne. unfold strip, lstrip in *. rewrite last_drop_while by done.
  destruct (rstrip_spec s) as (trail & _ & _ & Hlast).
  destruct (last (rstrip s)) as [c|] eqn:Hl; [by exists c|].
  apply last_None in Hl. rewrite Hl in Hne. done.
Qed.

Lemma dialogues_of_stripped ucd (single_re multi_re : regex)
    (content : pystr) (texts : list pystr) :
  dialogues_of ucd single_re multi_re content = Some texts →
  Forall (λ t, ∃ s, t = strip s) texts.
Proof.
  unfold dialogues_of, single_line_texts.
  destruct (mapM _ (finditer single_re content)) as [singles|] eqn:Hs; [|done].
  intros [= <-]. rewrite !Forall_app. split_and!.
  - revert singles Hs.
    induction (finditer single_re content) as [|m ms IH]; intros singles.
    { intros [= <-]. constructor. }
    cbn [mapM]. destruct (unescape ucd (group m "text")) as [t|]; [|done].
    simpl. destruct (mapM _ ms) as [rest|]; [|done]. simpl.
    intros [= <-]. constructor; [by exists t|]. by apply IH.
  - unfold multi_line_texts, multi_line_text. apply Forall_map.
    apply Forall_forall. intros m _. simpl. by eexists.
  - unfold menu_choices. apply Forall_map.
    apply Forall_forall. intros m _. simpl. by eexists.
Qed.

Lemma run_dialogues_stripped ua ucd (a : args) (w : world)
    (all_texts : list pystr) :
  run_dialogues ua ucd a w = Some all_texts →
  Forall (λ t, ∃ s, t = strip s) all_texts.
Proof.
  unfold run_dialogues.
  destruct (build_patterns (run_names ua a w)) as [single_re multi_re].
  destruct (mapM _ (run_order a w)) as [tss|] eqn:Hm; [|done].
  simpl. intros [= <-]. revert tss Hm.
  induction (run_order a w) as [|p ps IH]; intros tss.
  { intros [= <-]. constructor. }
  cbn [mapM].
  destruct (dialogues_of ucd single_re multi_re (text_read (rpy w) p))
    as [texts|] eqn:Hd; [|done].
  simpl. destruct (mapM _ ps) as [rest|]; [|done]. simpl.
  intros [= <-]. cbn [concat]. apply Forall_app. split; [|by apply IH].
  by eapply dialogues_of_stripped.
Qed.

Lemma record_payload (t : pystr) :
  (∃ s, t = strip s) → t ≠ [] →
  payload (py "< " ++ quote t ++ [NL]) = quote t.
Proof.
  intros [s ->] Hne. unfold payload.
  change (drop 2 (py "< " ++ ?x)) with x.
  rewrite rstrip_snoc_space by done.
  destruct (strip_last s Hne) as (c & Hl & Hc).
  destruct (quote_last _ c Hl Hc) as (d & Hd & Hsp).
  by apply (rstrip_last _ d).
Qed.

Lemma startswith_prefix (p x : pystr) : startswith (p ++ x) p = true.
Proof.
  induction p as [|c p IH]; [by destruct x|].
  simpl. by rewrite N.eqb_refl, IH.
Qed.

(** X23: in the output file of a run that ends normally every extracted
    text that is not empty and has no carriage return in it has its
    record: its escaped form is the payload of a source line of the
    file. *)
Theorem main_output_has_a_record_for_every_text ua ucd (a : args)
    (w w' : world) :
  main ua ucd a w = Ok () w' →
  ∃ text all_texts,
    template w' = Some text
    ∧ run_dialogues ua ucd a w = Some all_texts
    ∧ ∀ t, t ∈ all_texts → t ≠ [] → CR ∉ t →
           quote t ∈ map payload (source_lines text).
Proof.
  intros Hmain.
  destruct (decide (rpy w = [])) as [Hw|Hw].
  { by rewrite main_no_sources in Hmain. }
  destruct (main_ends ua ucd a w Hw)
    as [[_ Hm]|[(_ & _ & w1 & Hm)|(all_texts & _ & Hd & Hcases)]];
    [by rewrite Hm in Hmain..|].
  destruct Hcases as [[_ Hm]|[(_ & w1 & Hm)|(_ & _ & Hm)]];
    [by rewrite Hm in Hmain..|].
  rewrite Hm in Hmain. injection Hmain as <-.
  eexists _, all_texts. split_and!; [done..|].
  intros t Hin Hne Hcr.
  rewrite source_lines_deduplicated, first_by_payload_payloads.
  apply first_occurrences_elem.
  assert (∃ s, t = strip s) as Hs.
  { pose proof (run_dialogues_stripped ua ucd a w all_texts Hd) as Hall.
    rewrite Forall_forall in Hall. by apply Hall. }
  rewrite <- (record_payload t) by done.
  apply list_elem_of_fmap. eexists. split; [done|].
  unfold source_lines. apply list_elem_of_filter.
  split; [apply startswith_prefix|].
  rewrite readlines_app.
  - rewrite elem_of_app. right. apply records_lines; [|done].
    by apply unique_texts_of_elem.
  - unfold after_screens. cbv zeta.
    destruct (file_at w _); cbn [template default].
    + right. apply screens_template_last.
    + by left.
Qed.

Lemma main_output_record_witness :
  ∃ text all_texts,
    template
      (World no_other_paths [(py "game/script.rpy",
               py "define eve = Character('Eve')" ++ [NL]
               ++ py "eve " ++ [DQ] ++ py "Hello\nWorld" ++ [DQ; NL])]
         (Some (py "< Hello\nWorld" ++ [CR; NL] ++ py "> " ++ [CR; NL; CR; NL]))
         [TemplateWritten; CharacterScan (py "game/script.rpy");
          DialogueScan (py "game/script.rpy");
          TemplateAppended; TemplateDeduplicated])
    = Some text
    ∧ run_dialogues no_unicode_alnum no_ucd_names (game_args false)
        (World no_other_paths [(py "game/script.rpy",
                 py "define eve = Character('Eve')" ++ [NL]
                 ++ py "eve " ++ [DQ] ++ py "Hello\nWorld" ++ [DQ; NL])]
           None [])
      = Some all_texts
    ∧ ∀ t, t ∈ all_texts → t ≠ [] → CR ∉ t →
           quote t ∈ map payload (source_lines text).
Proof.
  apply (main_output_has_a_record_for_every_text no_unicode_alnum
           no_ucd_names (game_args false)
           (World no_other_paths [(py "game/script.rpy",
                    py "define eve = Character('Eve')" ++ [NL]
                    ++ py "eve " ++ [DQ] ++ py "Hello\nWorld" ++ [DQ; NL])]
              None [])).
  vm_compute. reflexivity.
Defined.

Lemma strip_idemp (s : pystr) : strip (strip s) = strip s.
Proof.
  destruct (decide (strip s = [])) as [Hnil|Hne]; [by rewrite Hnil|].
  destruct (strip_last s Hne) as (c & Hl & Hc).
  unfold strip at 1. rewrite (rstrip_last _ c Hl Hc).
  unfold strip, lstrip. apply drop_while_idemp.
Qed.

(** X24: every text the extraction gives, from a single-line body, a
    multi-line block or a menu choice, is trimmed: it has no whitespace at
    its start or at its end; so are all the texts of a run. *)
Theorem extracted_texts_are_trimmed :
  (∀ ucd single_re multi_re content texts,
     dialogues_of ucd single_re multi_re content = Some texts →
     Forall (λ t, strip t = t) texts)
  ∧ (∀ ua ucd a w all_texts,
       run_dialogues ua ucd a w = Some all_texts →
       Forall (λ t, strip t = t ∧ lstrip t = t ∧ rstrip t = t) all_texts).
Proof.
  split.
  - intros ucd single_re multi_re content texts Hd.
    eapply Forall_impl; [by eapply dialogues_of_stripped|].
    intros t [s ->]. apply strip_idemp.
  - intros ua ucd a w all_texts Hd.
    eapply Forall_impl; [by eapply run_dialogues_stripped|].
    intros t [s ->]. simpl. split_and!.
    + apply strip_idemp.
    + unfold strip, lstrip. apply drop_while_idemp.
    + destruct (decide (strip s = [])) as [Hnil|Hne]; [by rewrite Hnil|].
      destruct (strip_last s Hne) as (c & Hl & Hc).
      by apply (rstrip_last _ c).
Qed.
